(** * Smart Shopper ZA: product store, crawl retry engine and job scheduler

    A shallow embedding of
    - [database.py]         (class ProductDatabase),
    - [base_crawler.py]     (BaseCrawler: fetch_sitemap, crawl_products,
                             _save_product_data, run),
    - [retailers_config.py] (RETAILERS and its lookups),
    - [scheduler.py]        (CrawlJob, CrawlScheduler),
    the properties of these that the specification states, and further
    properties of the same code. *)

From Stdlib Require Import ZArith QArith Qround String Ascii List Lia.
From Stdlib Require Import DecimalString.
From stdpp Require Import base option list strings gmap sorting.
From Equations Require Import Equations.
From Equations.Prop Require Import Logic.
Import ListNotations.

Local Open Scope string_scope.
Local Open Scope list_scope.

(** ** Python values *)

Module Py.

(** The values [json.load] produces.  A finite float is modelled by the
    rational it denotes; Python ints and floats are kept apart because
    SQLite stores them in different storage classes. *)
#[local] Unset Elimination Schemes.
Inductive json : Type :=
| JNull
| JBool (b : bool)
| JInt (z : Z)
| JFloat (q : Q)
| JStr (s : string)
| JArr (l : list json)
| JObj (m : list (string * json)).
#[local] Set Elimination Schemes.

(** A Python dict with string keys, in insertion order. *)
Definition dict := list (string * json).

Fixpoint lookup_key (d : dict) (k : string) : option json :=
  match d with
  | [] => None
  | (k', v) :: d' => if String.eqb k' k then Some v else lookup_key d' k
  end.

(** [d.get(k, default)] *)
Definition get (d : dict) (k : string) (default : json) : json :=
  match lookup_key d k with
  | Some v => v
  | None => default
  end.

(** Truth value testing: [None], [False], zero, and empty strings, lists
    and dicts are false. *)
Definition truthy (v : json) : bool :=
  match v with
  | JNull => false
  | JBool b => b
  | JInt z => negb (z =? 0)%Z
  | JFloat q => negb (Qeq_bool q 0)
  | JStr s => negb (String.eqb s "")
  | JArr l => match l with [] => false | _ => true end
  | JObj m => match m with [] => false | _ => true end
  end.

(** [s.split(sep)] for a one-character separator: never the empty list. *)
Fixpoint split (sep : ascii) (s : string) : list string :=
  match s with
  | EmptyString => [EmptyString]
  | String c rest =>
      if Ascii.eqb c sep then EmptyString :: split sep rest
      else match split sep rest with
           | [] => [String c EmptyString]
           | seg :: segs => String c seg :: segs
           end
  end.

(** [parts[-1] if parts else ""] *)
Definition last_part (parts : list string) : string := List.last parts "".

(** [str(n)] for an int. *)
Definition str_int (z : Z) : string := NilZero.string_of_int (Z.to_int z).

(** [s.replace(old, new)] for a one-character [old]. *)
Fixpoint replace (old : ascii) (new : string) (s : string) : string :=
  match s with
  | EmptyString => EmptyString
  | String c rest =>
      if Ascii.eqb c old then new ++ replace old new rest
      else String c (replace old new rest)
  end.

(** The exceptions the store can meet while it handles one record. *)
Inductive exn : Type :=
| AttributeError      (* a method of str called on another value *)
| BindError           (* sqlite3: parameter of an unsupported type *)
| IntegrityError      (* sqlite3: NOT NULL or PRIMARY KEY violated *)
| OperationalError    (* sqlite3: the statement could not be prepared *)
| OverflowError.      (* sqlite3: an int that does not fit 64 bits *)

Inductive outcome (A : Type) : Type :=
| Ok (a : A)
| Raise (e : exn).
Arguments Ok {A} a.
Arguments Raise {A} e.

Definition is_ok {A} (o : outcome A) : bool :=
  match o with Ok _ => true | Raise _ => false end.

End Py.

(** ** The product store (database.py) *)

Module Database.
Import Py.

(** *** SQLite values and tables *)

(** Storage classes of the values the store binds and keeps. *)
Inductive sqlval : Type :=
| SNull
| SInt (z : Z)
| SReal (q : Q)
| SText (s : string).

(** The integers SQLite stores: 64 bits, signed. *)
Definition int64 (z : Z) : bool := (- 2 ^ 63 <=? z)%Z && (z <? 2 ^ 63)%Z.

(** How the sqlite3 module adapts a Python value bound to a [?]:
    [None], int (bool is an int), float and str are supported, a list or
    a dict is refused, and so is an int that does not fit 64 bits. *)
Definition adapt (v : json) : outcome sqlval :=
  match v with
  | JNull => Ok SNull
  | JBool b => Ok (SInt (if b then 1 else 0))
  | JInt z => if int64 z then Ok (SInt z) else Raise OverflowError
  | JFloat q => Ok (SReal q)
  | JStr s => Ok (SText s)
  | JArr _ | JObj _ => Raise BindError
  end.

(** SQL [=] between two values neither of which has a column affinity. *)
Definition sql_eqb (a b : sqlval) : bool :=
  match a, b with
  | SInt x, SInt y => (x =? y)%Z
  | SInt x, SReal q => Qeq_bool (inject_Z x) q
  | SReal q, SInt x => Qeq_bool q (inject_Z x)
  | SReal p, SReal q => Qeq_bool p q
  | SText s, SText t => String.eqb s t
  | _, _ => false
  end.

(** A row of table [products]; every column after its declared affinity
    and constraints.  [col_data] is the TEXT written by [json.dumps],
    modelled by the tree it encodes ([json.loads] of it). *)
Record product_row : Type := mk_row {
  col_id : string;                  (* TEXT PRIMARY KEY *)
  col_retailer : string;            (* TEXT NOT NULL *)
  col_title : string;               (* TEXT NOT NULL *)
  col_description : option string;  (* TEXT *)
  col_price : sqlval;               (* REAL *)
  col_brand : option string;        (* TEXT *)
  col_category : option string;     (* TEXT *)
  col_url : string;                 (* TEXT NOT NULL *)
  col_data : dict;                  (* TEXT NOT NULL *)
  col_created_at : Z;               (* INTEGER NOT NULL *)
  col_updated_at : Z                (* INTEGER NOT NULL *)
}.

(** A row of the fts5 table [product_search]; its columns have no
    affinity and keep the values as they were bound. *)
Record search_row : Type := mk_search {
  fts_id : sqlval;
  fts_title : sqlval;
  fts_description : sqlval;
  fts_brand : sqlval;
  fts_category : sqlval
}.

(** The database file, and the number of readings of [time.time()] made
    so far (the clock is not part of the file; it is threaded with it). *)
Record database : Type := mk_db {
  products : list product_row;
  product_search : list search_row;
  clock : nat
}.

Definition empty_db : database := mk_db [] [] 0.

(** A computation on an open connection: it may raise, and what it wrote
    before raising stays written until commit or rollback. *)
Definition M (A : Type) : Type := database -> outcome A * database.

Definition ret {A} (a : A) : M A := fun db => (Ok a, db).
Definition raise {A} (e : exn) : M A := fun db => (Raise e, db).
Definition bind {A B} (m : M A) (k : A -> M B) : M B :=
  fun db =>
    match m db with
    | (Ok a, db') => k a db'
    | (Raise e, db') => (Raise e, db')
    end.
Definition lift {A} (o : outcome A) : M A := fun db => (o, db).

Notation "x <- m ;; k" := (bind m (fun x => k))
  (at level 100, m at next level, right associativity).
Notation "m ;;; k" := (bind m (fun _ => k))
  (at level 100, right associativity).

(** What the store takes from outside the repository: the clock and
    the SQLite engine. *)
Class Engine : Type := {
  (** [time_ms n] is the [n]-th reading of [time.time()], in whole
      milliseconds. *)
  time_ms : nat -> Z;
  (** SQLite's conversions, applied by column affinity: the text of a
      number stored in a TEXT column, and the number of a text stored in
      a REAL column when the text is a well-formed numeric literal. *)
  num_to_text : sqlval -> string;
  text_to_num : string -> option Q;
  (** The fts5 engine: [fts5_match q] is [None] when [q] is not a
      well-formed fts5 query, else the test of an index row against it. *)
  fts5_match : string -> option (search_row -> bool);
  (** The largest number of [?] parameters of one statement. *)
  SQLITE_MAX_VARIABLE_NUMBER : nat;
  (** The order in which the page query, run with a limit and an offset,
      comes by the rows it selects, before they are sorted: it settles the
      order of rows with equal keys, which ORDER BY leaves open. *)
  tie_order : Z -> Z -> list product_row -> list product_row;
  tie_order_permutation :
    forall limit offset rows, Permutation (tie_order limit offset rows) rows
}.

Section Store.
Context `{Engine}.

(** [int(time.time() * 1000)] *)
Definition time_millis : M Z :=
  fun db => (Ok (time_ms (clock db)),
             mk_db (products db) (product_search db) (S (clock db))).

(** [int(time.time())] *)
Definition time_seconds : M Z :=
  fun db => (Ok (time_ms (clock db) / 1000)%Z,
             mk_db (products db) (product_search db) (S (clock db))).

(** TEXT affinity: NULL stays NULL, a number becomes its text. *)
Definition as_text (v : sqlval) : option string :=
  match v with
  | SNull => None
  | SText s => Some s
  | SInt _ | SReal _ => Some (num_to_text v)
  end.

(** REAL affinity: an integer becomes a float, a numeric text its
    number, any other text stays text. *)
Definition as_real (v : sqlval) : sqlval :=
  match v with
  | SNull => SNull
  | SInt z => SReal (inject_Z z)
  | SReal q => SReal q
  | SText s => match text_to_num s with
               | Some q => SReal q
               | None => SText s
               end
  end.

(** A NOT NULL TEXT column. *)
Definition not_null (v : sqlval) : outcome string :=
  match as_text v with
  | Some s => Ok s
  | None => Raise IntegrityError
  end.

Definition bind_outcome {A B} (o : outcome A) (k : A -> outcome B) : outcome B :=
  match o with
  | Ok a => k a
  | Raise e => Raise e
  end.

(** The comparison [id = ?] on the TEXT column [products.id]. *)
Definition id_is (pid : sqlval) (r : product_row) : bool :=
  match as_text pid with
  | Some s => String.eqb (col_id r) s
  | None => false
  end.

(** [SELECT id, updated_at FROM products WHERE id = ?] then [fetchone()],
    tested for truth. *)
Definition select_existing (product_id : json) : M bool :=
  pid <- lift (adapt product_id) ;;
  fun db => (Ok (existsb (id_is pid) (products db)), db).

(** The parameters of the two writes on [products], bound in the order of
    the UPDATE statement, then checked against the column constraints. *)
Definition bind_row (retailer title description price brand category url : json)
    (data_json : dict) (created now : Z) (product_id : json) : outcome product_row :=
  bind_outcome (adapt retailer) (fun v_retailer =>
  bind_outcome (adapt title) (fun v_title =>
  bind_outcome (adapt description) (fun v_description =>
  bind_outcome (adapt price) (fun v_price =>
  bind_outcome (adapt brand) (fun v_brand =>
  bind_outcome (adapt category) (fun v_category =>
  bind_outcome (adapt url) (fun v_url =>
  bind_outcome (adapt product_id) (fun v_id =>
  (* product_id is never None where a row is written: see derive_id *)
  bind_outcome (not_null v_id) (fun c_id =>
  bind_outcome (not_null v_retailer) (fun c_retailer =>
  bind_outcome (not_null v_title) (fun c_title =>
  bind_outcome (not_null v_url) (fun c_url =>
  Ok (mk_row c_id c_retailer c_title (as_text v_description) (as_real v_price)
        (as_text v_brand) (as_text v_category) c_url data_json created now))))))))))))).

(** [UPDATE products SET retailer = ?, ..., updated_at = ? WHERE id = ?]:
    [created_at] is kept. *)
Definition update_row (new : product_row) (r : product_row) : product_row :=
  if String.eqb (col_id r) (col_id new)
  then mk_row (col_id r) (col_retailer new) (col_title new) (col_description new)
         (col_price new) (col_brand new) (col_category new) (col_url new)
         (col_data new) (col_created_at r) (col_updated_at new)
  else r.

Definition sql_update (retailer title description price brand category url : json)
    (data_json : dict) (now : Z) (product_id : json) : M unit :=
  new <- lift (bind_row retailer title description price brand category url
                 data_json now now product_id) ;;
  fun db => (Ok tt, mk_db (map (update_row new) (products db))
                      (product_search db) (clock db)).

(** [INSERT INTO products (...) VALUES (?, ..., ?)]: refused when the
    primary key is taken. *)
Definition sql_insert (product_id retailer title description price brand
    category url : json) (data_json : dict) (now : Z) : M unit :=
  new <- lift (bind_row retailer title description price brand category url
                 data_json now now product_id) ;;
  fun db =>
    if existsb (fun r => String.eqb (col_id r) (col_id new)) (products db)
    then (Raise IntegrityError, db)
    else (Ok tt, mk_db (products db ++ [new]) (product_search db) (clock db)).

(** [DELETE FROM product_search WHERE id = ?] *)
Definition sql_delete_search (product_id : json) : M unit :=
  pid <- lift (adapt product_id) ;;
  fun db => (Ok tt, mk_db (products db)
                      (List.filter (fun e => negb (sql_eqb (fts_id e) pid))
                         (product_search db))
                      (clock db)).

(** [INSERT INTO product_search (id, title, description, brand, category)
    VALUES (?, ?, ?, ?, ?)] *)
Definition bind_search (product_id title description brand category : json)
    : outcome search_row :=
  bind_outcome (adapt product_id) (fun v_id =>
  bind_outcome (adapt title) (fun v_title =>
  bind_outcome (adapt description) (fun v_description =>
  bind_outcome (adapt brand) (fun v_brand =>
  bind_outcome (adapt category) (fun v_category =>
  Ok (mk_search v_id v_title v_description v_brand v_category)))))).

Definition sql_insert_search (product_id title description brand category : json)
    : M unit :=
  e <- lift (bind_search product_id title description brand category) ;;
  fun db => (Ok tt, mk_db (products db) (product_search db ++ [e]) (clock db)).

(** *** upsert_product and bulk_upsert_products *)

(** Lines 109-117 and 223-231: the identity of a record whose url is
    [url] (already tested for truth). *)
Definition derive_id (product_data : dict) (url : json) : M json :=
  let product_id := get product_data "id" (JStr "") in
  if truthy product_id then ret product_id
  else
    match url with
    | JStr u =>
        let url_parts := split "/" u in
        let product_id := last_part url_parts in
        if negb (String.eqb product_id "") then ret (JStr product_id)
        else (t <- time_millis ;; ret (JStr (str_int t)))
    | _ => raise AttributeError    (* url.split on a value that is not a str *)
    end.

(** Lines 126-132 and 240-246. *)
Definition extract_price (product_data : dict) : json :=
  match get product_data "price" (JObj []) with
  | JObj price_data => get price_data "current" JNull
  | JInt z => JInt z
  | JFloat q => JFloat q
  | JBool b => JBool b          (* isinstance(True, int) holds *)
  | _ => JNull
  end.

(** Lines 109-182 and, word for word the same, lines 223-288: everything
    done for one record between the url test and the commit or count. *)
Definition upsert_record (product_data : dict) (url : json) : M unit :=
  product_id <- derive_id product_data url ;;
  let retailer := get product_data "retailer" (JStr "") in
  let title := get product_data "title" (JStr "") in
  let description := get product_data "description" (JStr "") in
  let brand := get product_data "brand" (JStr "") in
  let category := get product_data "category" (JStr "") in
  let price := extract_price product_data in
  let data_json := product_data in
  now <- time_seconds ;;
  existing <- select_existing product_id ;;
  (if existing : bool
   then sql_update retailer title description price brand category url data_json
          now product_id
   else sql_insert product_id retailer title description price brand category url
          data_json now) ;;;
  sql_delete_search product_id ;;;
  sql_insert_search product_id title description brand category.

(** No commit: the file is as it was, the clock has moved on. *)
Definition rollback (before after : database) : database :=
  mk_db (products before) (product_search before) (clock after).

Definition upsert_product (product_data : dict) (db : database) : bool * database :=
  let url := get product_data "url" (JStr "") in
  if negb (truthy url) then (false, db)
  else
    match upsert_record product_data url db with
    | (Ok _, db') => (true, db')                      (* conn.commit() *)
    | (Raise _, db') => (false, rollback db db')      (* except Exception *)
    end.

(** The loop of bulk_upsert_products, inside one transaction; an
    exception raised for one record is caught inside the loop. *)
Fixpoint bulk_loop (products_in : list dict) (success_count failure_count : nat)
    (db : database) : (nat * nat) * database :=
  match products_in with
  | [] => ((success_count, failure_count), db)
  | product_data :: rest =>
      let url := get product_data "url" (JStr "") in
      if negb (truthy url)
      then bulk_loop rest success_count (S failure_count) db      (* continue *)
      else
        match upsert_record product_data url db with
        | (Ok _, db') => bulk_loop rest (S success_count) failure_count db'
        | (Raise _, db') => bulk_loop rest success_count (S failure_count) db'
        end
  end.

(** BEGIN TRANSACTION, the loop, COMMIT.  The storage itself does not
    fail here, so the outer except clause (ROLLBACK) is not entered. *)
Definition bulk_upsert_products (products_in : list dict) (db : database)
    : (nat * nat) * database :=
  bulk_loop products_in 0 0 db.

(** *** get_product_by_id *)

Definition get_product_by_id (product_id : string) (db : database) : option dict :=
  match List.find (fun r => String.eqb (col_id r) product_id) (products db) with
  | Some row => Some (col_data row)
  | None => None
  end.

(** *** find_products *)

(** [if s:] for an optional str argument. *)
Definition given (s : option string) : bool :=
  match s with
  | Some s => negb (String.eqb s "")
  | None => false
  end.

Definition dquote : ascii := Ascii.ascii_of_nat 34.

(** [id IN (?, ..., ?)] on the TEXT column [products.id]. *)
Definition id_in (ids : list sqlval) (r : product_row) : bool :=
  existsb (fun pid => id_is pid r) ids.

(** [price >= ?] and [price <= ?] for a float parameter: NULL compares to
    nothing, and a text sorts after every number. *)
Definition price_ge (bound : Q) (r : product_row) : bool :=
  match col_price r with
  | SNull => false
  | SInt z => Qle_bool bound (inject_Z z)
  | SReal q => Qle_bool bound q
  | SText _ => true
  end.

Definition price_le (bound : Q) (r : product_row) : bool :=
  match col_price r with
  | SNull => false
  | SInt z => Qle_bool (inject_Z z) bound
  | SReal q => Qle_bool q bound
  | SText _ => false
  end.

Definition text_is (s : string) (c : option string) : bool :=
  match c with
  | Some t => String.eqb t s
  | None => false
  end.

(** [ORDER BY updated_at DESC] of the page query.  SQLite leaves the
    order of rows with equal keys open: they come out in the order in
    which the engine came by them, [tie_order]. *)
Fixpoint insert_desc (r : product_row) (sorted : list product_row) : list product_row :=
  match sorted with
  | [] => [r]
  | r' :: rest =>
      if (col_updated_at r' <=? col_updated_at r)%Z
      then r :: r' :: rest
      else r' :: insert_desc r rest
  end.

Definition order_by_updated_desc (limit offset : Z) (rows : list product_row)
    : list product_row :=
  fold_right insert_desc [] (tie_order limit offset rows).

(** [LIMIT ? OFFSET ?]: a negative limit is no limit, a negative offset
    is zero. *)
Definition limit_offset {A} (limit offset : Z) (rows : list A) : list A :=
  let rest := drop (Z.to_nat offset) rows in
  if (limit <? 0)%Z then rest else take (Z.to_nat limit) rest.

(** The clauses added by lines 366-384, each with its one parameter. *)
Definition filter_clauses (retailer category brand : option string)
    (min_price max_price : option Q) : list (product_row -> bool) :=
  (if given retailer
   then [fun r => String.eqb (col_retailer r) (default "" retailer)] else [])
  ++ (if given category
      then [fun r => text_is (default "" category) (col_category r)] else [])
  ++ (if given brand
      then [fun r => text_is (default "" brand) (col_brand r)] else [])
  ++ (match min_price with Some lo => [price_ge lo] | None => [] end)
  ++ (match max_price with Some hi => [price_le hi] | None => [] end).

(** [" AND ".join(where_clauses)], or [1=1] when there is none. *)
Definition where_sql (where_clauses : list (product_row -> bool)) (r : product_row)
    : bool :=
  forallb (fun clause => clause r) where_clauses.

(** Lines 386-418, for the clauses built so far and the number of their
    parameters: the COUNT query, then the page query, which binds two
    parameters more, the limit and the offset; a statement with more
    parameters than SQLite allows raises, and so does a limit or an
    offset that does not fit 64 bits, and the except clause returns the
    empty result. *)
Definition run_queries (where_clauses : list (product_row -> bool)) (n_params : nat)
    (limit offset : Z) (db : database) : list dict * nat :=
  if (SQLITE_MAX_VARIABLE_NUMBER <? n_params + 2)%nat
  then ([], 0)                              (* too many SQL variables *)
  else if negb (int64 limit && int64 offset)
  then ([], 0)                              (* OverflowError *)
  else
    let selected := List.filter (where_sql where_clauses) (products db) in
    let total_count := length selected in
    let page :=
      limit_offset limit offset (order_by_updated_desc limit offset selected) in
    (map col_data page, total_count).

Definition find_products (query retailer category brand : option string)
    (min_price max_price : option Q) (limit offset : Z) (db : database)
    : list dict * nat :=
  let filters := filter_clauses retailer category brand min_price max_price in
  if given query then
    let fts_query := replace dquote (String dquote (String dquote EmptyString))
                       (default "" query) in
    match fts5_match fts_query with
    | None => ([], 0)                       (* except Exception *)
    | Some matches =>
        let matching_ids := map fts_id (List.filter matches (product_search db)) in
        match matching_ids with
        | [] => ([], 0)                     (* no matches for search query *)
        | _ :: _ =>
            run_queries ((id_in matching_ids) :: filters)
              (length matching_ids + length filters) limit offset db
        end
    end
  else run_queries filters (length filters) limit offset db.

(** *** get_product_count_by_retailer and get_database_stats *)

(** [SELECT k, COUNT ... GROUP BY k], read into a dict: every key with
    the number of its rows.  SQL leaves the order of the groups open; here
    they stand in the order of their first row. *)
Fixpoint count_key (k : string) (counts : list (string * nat)) : list (string * nat) :=
  match counts with
  | [] => [(k, 1%nat)]
  | (k', n) :: rest =>
      if String.eqb k' k then (k', S n) :: rest else (k', n) :: count_key k rest
  end.

Definition group_counts (keys : list string) : list (string * nat) :=
  foldl (fun counts k => count_key k counts) [] keys.

Definition get_product_count_by_retailer (db : database) : list (string * nat) :=
  group_counts (map col_retailer (products db)).

(** [WHERE c != ''] on a TEXT column: NULL is not selected. *)
Definition not_empty (c : option string) : option string :=
  match c with
  | Some s => if String.eqb s "" then None else Some s
  | None => None
  end.

(** [ORDER BY count DESC]; groups with equal counts keep their order. *)
Fixpoint insert_count (g : string * nat) (sorted : list (string * nat))
    : list (string * nat) :=
  match sorted with
  | [] => [g]
  | g' :: rest =>
      if (snd g' <? snd g)%nat then g :: g' :: rest else g' :: insert_count g rest
  end.

Definition order_by_count_desc (groups : list (string * nat)) : list (string * nat) :=
  fold_right insert_count [] groups.

(** [SELECT c, COUNT ... WHERE c != '' GROUP BY c ORDER BY count DESC
    LIMIT 10] *)
Definition top_groups (column : product_row -> option string) (db : database)
    : list (string * nat) :=
  take 10 (order_by_count_desc
             (group_counts (omap (fun r => not_empty (column r)) (products db)))).

(** [SELECT MAX(updated_at) FROM products]: NULL on an empty table. *)
Definition max_updated_at (rows : list product_row) : option Z :=
  fold_right (fun r m => Some (match m with
                               | Some t => Z.max (col_updated_at r) t
                               | None => col_updated_at r
                               end)) None rows.

(** The statistics, without the size of the file; [last_updated] is the
    timestamp that is formatted, when it tests true. *)
Record database_stats : Type := mk_database_stats {
  total_products : nat;
  retailer_counts : list (string * nat);
  top_categories : list (string * nat);
  top_brands : list (string * nat);
  last_updated : option Z
}.

Definition get_database_stats (db : database) : database_stats :=
  mk_database_stats (length (products db))
    (get_product_count_by_retailer db)
    (top_groups col_category db)
    (top_groups col_brand db)
    (match max_updated_at (products db) with
     | Some t => if (t =? 0)%Z then None else Some t
     | None => None
     end).

(** *** delete_product and clear_retailer_data *)

(** Lines 561-574: the two DELETE statements and the commit.  What is
    returned is [cursor.rowcount] as the last statement left it: the
    number of rows deleted from the index. *)
Definition delete_product (product_id : string) (db : database) : bool * database :=
  let kept := List.filter (fun r => negb (String.eqb (col_id r) product_id))
                (products db) in
  let kept_search := List.filter (fun e => negb (sql_eqb (fts_id e) (SText product_id)))
                       (product_search db) in
  let rowcount := (length (product_search db) - length kept_search)%nat in
  ((0 <? rowcount)%nat, mk_db kept kept_search (clock db)).

(** Lines 590-615.  A statement with more parameters than SQLite allows
    raises before the commit: the except clause returns 0 and the file
    is as it was. *)
Definition clear_retailer_data (retailer : string) (db : database) : nat * database :=
  let product_ids := map col_id (List.filter
                                   (fun r => String.eqb (col_retailer r) retailer)
                                   (products db)) in
  let kept := List.filter (fun r => negb (String.eqb (col_retailer r) retailer))
                (products db) in
  let deleted_count := (length (products db) - length kept)%nat in
  match product_ids with
  | [] => (deleted_count, mk_db kept (product_search db) (clock db))
  | _ :: _ =>
      if (SQLITE_MAX_VARIABLE_NUMBER <? length product_ids)%nat
      then (0%nat, db)                        (* too many SQL variables *)
      else (deleted_count,
            mk_db kept
              (List.filter
                 (fun e => negb (existsb (fun i => sql_eqb (fts_id e) (SText i))
                                   product_ids))
                 (product_search db))
              (clock db))
  end.

End Store.
End Database.

(** ** The crawl attempt engine (base_crawler.py) *)

Module Crawler.
Import Py.

(** What crawl_products reads of a crawl4ai result. *)
Record CrawlResult : Type := mk_result {
  url : string;
  success : bool;
  status_code : option Z;      (* getattr(result, 'status_code', None) *)
  page : string
}.

(** [self.stats], without the two timestamps. *)
Record Stats : Type := mk_stats {
  urls_processed : nat;
  successful : nat;
  failed : nat;
  products_found : nat;
  retry_count : nat;
  rate_limited : nat
}.

(** What a run does to the outside, in the order it does it. *)
Inductive event : Type :=
| ArunMany (urls : list string) (cache_enabled : bool) (delay : Q * Q)
| Sleep (seconds : nat)
| SaveProductData (product_data : dict)
| SaveLastRun.

(** The crawler object: its statistics, [rate_limiter.base_delay],
    whether [last_run.json] exists, the number of calls of [arun_many]
    made so far, and the events so far. *)
Record BaseCrawler : Type := mk_crawler {
  stats : Stats;
  base_delay : Q * Q;
  last_run_json : bool;
  calls : nat;
  trace : list event
}.

(** The collaborators: the fetch engine, called for the [n]-th time with
    the urls, the cache mode and the delay window in force ([Raise]: the
    browser or the engine raised), and the extractor of the retailer's
    subclass.  A float delay is modelled by the rational it denotes. *)
Class FetchEngine : Type := {
  arun_many : nat -> list string -> bool -> Q * Q -> outcome (list CrawlResult);
  process_result : CrawlResult -> outcome (option dict)
}.

Definition rate_limit_codes : list Z := [429; 503; 403; 520; 521; 522]%Z.

(** [status_code in self.rate_limiter.rate_limit_codes] *)
Definition is_rate_limited (status_code : option Z) : bool :=
  match status_code with
  | Some code => existsb (Z.eqb code) rate_limit_codes
  | None => false
  end.

Definition fresh_stats : Stats := mk_stats 0 0 0 0 0 0.

(** A crawler as [__init__] leaves it. *)
Definition new_crawler (rate_limit : Q * Q) (incremental : bool) : BaseCrawler :=
  mk_crawler fresh_stats rate_limit incremental 0 [].

Definition with_stats (c : BaseCrawler) (s : Stats) : BaseCrawler :=
  mk_crawler s (base_delay c) (last_run_json c) (calls c) (trace c).

Definition with_delay (c : BaseCrawler) (d : Q * Q) : BaseCrawler :=
  mk_crawler (stats c) d (last_run_json c) (calls c) (trace c).

Definition emit (c : BaseCrawler) (e : event) : BaseCrawler :=
  mk_crawler (stats c) (base_delay c) (last_run_json c) (calls c) (trace c ++ [e]).

Definition count_success (s : Stats) : Stats :=
  mk_stats (urls_processed s) (S (successful s)) (failed s)
    (S (products_found s)) (retry_count s) (rate_limited s).

Definition count_failed (s : Stats) : Stats :=
  mk_stats (urls_processed s) (successful s) (S (failed s))
    (products_found s) (retry_count s) (rate_limited s).

Definition count_rate_limited (s : Stats) : Stats :=
  mk_stats (urls_processed s) (successful s) (failed s)
    (products_found s) (retry_count s) (S (rate_limited s)).

Definition set_urls_processed (s : Stats) (n : nat) : Stats :=
  mk_stats n (successful s) (failed s) (products_found s) (retry_count s)
    (rate_limited s).

Definition count_retry (s : Stats) : Stats :=
  mk_stats (urls_processed s) (successful s) (failed s) (products_found s)
    (S (retry_count s)) (rate_limited s).

Section Engine.
Context `{FetchEngine}.

(** Lines 289-322: the loop over the results of one round. *)
Fixpoint process_results (crawl_results : list CrawlResult) (results : list dict)
    (retry_urls : list string) (c : BaseCrawler)
    : list dict * list string * BaseCrawler :=
  match crawl_results with
  | [] => (results, retry_urls, c)
  | result :: rest =>
      if success result then
        match process_result result with
        | Ok (Some processed_data) =>
            match processed_data with
            | _ :: _ =>
                process_results rest (results ++ [processed_data]) retry_urls
                  (emit (with_stats c (count_success (stats c)))
                     (SaveProductData processed_data))
            | [] =>                      (* an empty dict is false *)
                process_results rest results (retry_urls ++ [url result])
                  (with_stats c (count_failed (stats c)))
            end
        | Ok None | Raise _ =>
            process_results rest results (retry_urls ++ [url result])
              (with_stats c (count_failed (stats c)))
        end
      else
        let c1 := if is_rate_limited (status_code result)
                  then with_stats c (count_rate_limited (stats c))
                  else c in
        process_results rest results (retry_urls ++ [url result])
          (with_stats c1 (count_failed (stats c1)))
  end.

(** Lines 264-287: the cache mode and the call of the fetch engine. *)
Definition fetch (urls : list string) (c : BaseCrawler)
    : outcome (list CrawlResult) * BaseCrawler :=
  let use_cache := last_run_json c in
  (arun_many (calls c) urls use_cache (base_delay c),
   mk_crawler (stats c) (base_delay c) (last_run_json c) (S (calls c))
     (trace c ++ [ArunMany urls use_cache (base_delay c)])).

(** Lines 326-339: the steps of a retry round before the recursive call. *)
Definition start_retry (c : BaseCrawler) : BaseCrawler :=
  let c1 := with_stats c (count_retry (stats c)) in
  let original_rate_limit := base_delay c1 in
  let backoff_factor := inject_Z (Z.of_nat (retry_count (stats c1) + 1)) in
  let c2 := with_delay c1 (fst original_rate_limit * backoff_factor,
                           snd original_rate_limit * backoff_factor)%Q in
  emit c2 (Sleep (5 * retry_count (stats c2))).

(** Lines 351-367: the marker file is written whatever happened. *)
Definition save_last_run (c : BaseCrawler) : BaseCrawler :=
  mk_crawler (stats c) (base_delay c) true (calls c) (trace c ++ [SaveLastRun]).

Lemma process_results_retry_count crawl_results results retry_urls c :
  retry_count (stats (snd (process_results crawl_results results retry_urls c)))
  = retry_count (stats c).
Proof.
  revert results retry_urls c.
  induction crawl_results as [|r rest IH]; intros results retry_urls c; [done|].
  simpl. destruct (success r).
  - destruct (process_result r) as [[[|kv d]|]|]; rewrite IH; done.
  - rewrite IH. by destruct (is_rate_limited (status_code r)).
Qed.

Equations? crawl_products (urls : list string) (c : BaseCrawler)
    : list dict * BaseCrawler by wf (3 - retry_count (stats c)) lt :=
crawl_products [] c := ([], c);
crawl_products (u :: us) c with inspect (fetch (u :: us) c) := {
  | exist _ (Raise _, c1) _ => ([], save_last_run c1);
  | exist _ (Ok crawl_results, c1) Hfetch with inspect
        (process_results crawl_results [] []
           (with_stats c1 (set_urls_processed (stats c1) (length crawl_results)))) := {
    | exist _ (results, retry_urls, c2) Hprocess with retry_urls := {
      | [] => (results, save_last_run c2);
      | r :: rs with lt_dec (retry_count (stats c2)) 3 := {
        | right _ => (results, save_last_run c2);
        | left Hlt =>
            let original_rate_limit := base_delay c2 in
            let retried := crawl_products (r :: rs) (start_retry c2) in
            (results ++ fst retried,
             save_last_run (with_delay (snd retried) original_rate_limit)) } } } }.
Proof.
  apply (f_equal (fun x => retry_count (stats (snd x)))) in Hprocess.
  rewrite process_results_retry_count in Hprocess. simpl in Hprocess. lia.
Qed.

(** *** fetch_sitemap, run and get_summary *)

(** Lines 211-229 of fetch_sitemap.  [sitemap] is what lines 181-209
    read: the texts of the [loc] elements in the order of the document,
    or [None] when the request or the XML parser raised. *)
Definition fetch_sitemap (sitemap : option (list string)) (url_filter : string -> bool)
    (max_urls : Z) : list string :=
  match sitemap with
  | None => []
  | Some urls =>
      let filtered_urls := List.filter url_filter urls in
      if (0 <? max_urls)%Z && (Z.of_nat (length filtered_urls) >? max_urls)%Z
      then take (Z.to_nat max_urls) filtered_urls
      else filtered_urls
  end.

(** The counts of the summary (the retailer's name and the times are
    left out). *)
Record Summary : Type := mk_summary {
  summary_urls_processed : nat;
  summary_successful : nat;
  summary_failed : nat;
  summary_products_found : nat
}.

Definition get_summary (c : BaseCrawler) : Summary :=
  mk_summary (urls_processed (stats c)) (successful (stats c)) (failed (stats c))
    (products_found (stats c)).

(** BaseCrawler.run *)
Definition run (sitemap : option (list string)) (url_filter : string -> bool)
    (max_urls : Z) (c : BaseCrawler) : Summary * BaseCrawler :=
  let urls := fetch_sitemap sitemap url_filter max_urls in
  match urls with
  | [] => (get_summary c, c)          (* no URLs found to crawl *)
  | _ :: _ =>
      let c' := snd (crawl_products urls c) in
      (get_summary c', c')
  end.

(** *** _save_product_data *)

(** Lines 381-387: the value that is formatted into the name of the
    file, [product_<id>.json]. *)
Definition save_file_id (product_data : dict) : outcome json :=
  let product_id := get product_data "id" (JStr "unknown") in
  let is_unknown := match product_id with
                    | JStr s => String.eqb s "unknown"
                    | _ => false
                    end in
  if is_unknown then
    match lookup_key product_data "url" with
    | Some (JStr u) => Ok (JStr (last_part (split "/" u)))
    | Some _ => Raise AttributeError          (* no method split *)
    | None => Ok product_id
    end
  else Ok product_id.

End Engine.
End Crawler.

(** ** The retailers (retailers_config.py) and their crawlers *)

Module RetailersConfig.
Import Py.

(** An entry of RETAILERS.  A float of the rate limit is modelled by the
    rational it denotes. *)
Record Retailer : Type := mk_retailer {
  name : string;
  sitemap : string;
  module : string;
  class : string;
  url_patterns : list string;
  rate_limit : Q * Q;
  concurrency : Z
}.

Definition RETAILERS : list Retailer :=
  [ mk_retailer "PriceCheck" "https://www.pricecheck.co.za/sitemap.xml"
      "pricecheck_crawler" "PriceCheckCrawler" ["/offer/"; "/offers/"]
      (1, 3)%Q 6;
    mk_retailer "Checkers" "https://www.checkers.co.za/sitemap.xml"
      "checkers_crawler" "CheckersCrawler" ["/p/"; "/products/"]
      (3 # 2, 7 # 2)%Q 5;
    mk_retailer "Shoprite" "https://www.shoprite.co.za/sitemap.xml"
      "shoprite_crawler" "ShopriteCrawler" ["/p/"; "/products/"]
      (3 # 2, 7 # 2)%Q 5;
    mk_retailer "PicknPay" "https://www.pnp.co.za/sitemap.xml"
      "picknpay_crawler" "PicknPayCrawler" ["/prodid/"; "/products/"]
      (1, 3)%Q 6;
    mk_retailer "Makro" "https://www.makro.co.za/sitemap.xml"
      "makro_crawler" "MakroCrawler" ["/p/"; "/product/"]
      (2, 4)%Q 4;
    mk_retailer "Woolworths" "https://www.woolworths.co.za/sitemap.xml"
      "woolworths_crawler" "WoolworthsCrawler" ["/prod/"; "/product/"]
      (2, 4)%Q 4 ].

(** [s.lower()] for a str of ASCII characters. *)
Definition lower_ascii (c : ascii) : ascii :=
  let n := nat_of_ascii c in
  if (65 <=? n)%nat && (n <=? 90)%nat then ascii_of_nat (n + 32) else c.

Fixpoint lower (s : string) : string :=
  match s with
  | EmptyString => EmptyString
  | String c rest => String (lower_ascii c) (lower rest)
  end.

(** get_retailer_config: [None] stands for the ValueError raised when
    the loop ends. *)
Definition get_retailer_config (retailer_name : string) : option Retailer :=
  List.find (fun retailer => String.eqb (lower (name retailer)) (lower retailer_name))
    RETAILERS.

Definition get_all_retailer_names : list string := map name RETAILERS.

(** [pattern in url] for two strs. *)
Fixpoint str_in (pattern s : string) : bool :=
  String.prefix pattern s
  || match s with
     | EmptyString => false
     | String _ rest => str_in pattern rest
     end.

Definition create_url_filter (retailer : Retailer) (url : string) : bool :=
  existsb (fun pattern => str_in pattern url) (url_patterns retailer).

(** The filters and rate limits that the two crawler classes of the
    repository pass to BaseCrawler.__init__ (pricecheck_crawler.py and
    checkers_crawler.py, lines 42-54). *)
Definition pricecheck_url_filter (url : string) : bool :=
  str_in "/offer/" url || str_in "/offers/" url.

Definition pricecheck_rate_limit : Q * Q := (1, 3)%Q.

Definition checkers_url_filter (url : string) : bool :=
  str_in "/p/" url || str_in "/products/" url.

Definition checkers_rate_limit : Q * Q := (3 # 2, 7 # 2)%Q.

End RetailersConfig.

(** ** The job scheduler (scheduler.py) *)

Module Scheduler.
Import Py Database.

(** A CrawlJob object.  Times are seconds; [timedelta(hours=h)] is
    [h * 3600].  The retailer's configuration is resolved into
    [concurrency] when the job is made. *)
Record CrawlJob : Type := mk_job {
  retailer_name : string;
  interval_hours : Z;
  max_urls : Z;
  concurrency : Z;
  enabled : bool;
  last_run : option Z;
  next_run : Z;
  running : bool;
  status : string;
  stats : dict
}.

(** What the retailer's crawler does when a job runs it: it raises (the
    text of the exception and the traceback), or it returns its summary
    and, when its run directory exists, the product files found there. *)
Inductive crawl_outcome : Type :=
| CrawlRaised (message : string) (traceback : string)
| Crawled (summary : dict) (run_dir : option (list dict)).

(** What a job meets outside the scheduler, in the run of a given
    number: the crawler module named by retailers_config.py, and the
    exception (its text and traceback) that bulk_upsert_products itself
    raises when the database file cannot be opened or committed. *)
Class Retailers : Type := {
  run_crawler : CrawlJob -> nat -> crawl_outcome;
  storage_error : nat -> option (string * string)
}.

(** How the try block of CrawlJob.run ends. *)
Inductive try_result : Type :=
| Done (summary : dict)
| Raised (message : string) (traceback : string).

(** CrawlJob.__init__: next_run is the time of creation. *)
Definition new_job (now : Z) (retailer_name : string) (interval_hours max_urls
    concurrency : Z) (enabled : bool) : CrawlJob :=
  mk_job retailer_name interval_hours max_urls concurrency enabled
    None now false "idle" [].

(** CrawlJob.is_due, where [now] is what [datetime.now()] returns. *)
Definition is_due (now : Z) (job : CrawlJob) : bool :=
  enabled job && negb (running job) && (next_run job <=? now)%Z.

(** [d[k] = v] *)
Fixpoint dict_set (d : dict) (k : string) (v : json) : dict :=
  match d with
  | [] => [(k, v)]
  | (k', v') :: d' =>
      if String.eqb k' k then (k, v) :: d' else (k', v') :: dict_set d' k v
  end.

(** CrawlJob._load_crawled_products, given the contents of the files. *)
Definition load_crawled_products (job : CrawlJob) (files : list dict) : list dict :=
  map (fun product_data =>
         match lookup_key product_data "retailer" with
         | Some _ => product_data
         | None => dict_set product_data "retailer" (JStr (retailer_name job))
         end) files.

(** The CrawlScheduler object.  [jobs] is the dict from retailer names to
    job objects, in insertion order; objects live in [objects] and are
    named by reference, so that the queue and the dict share them. *)
Record CrawlScheduler : Type := mk_scheduler {
  check_interval : Z;
  scheduler_running : bool;             (* self.running *)
  jobs : list (string * nat);
  objects : gmap nat CrawlJob;
  job_queue : list (option nat);        (* None is the signal to exit *)
  db : database;
  runs : nat
}.

Definition new_scheduler (check_interval : Z) (store : database) : CrawlScheduler :=
  mk_scheduler check_interval false [] ∅ [] store 0.

Definition fresh_ref (s : CrawlScheduler) : nat :=
  S (foldr Nat.max 0 (map fst (map_to_list (objects s)))).

Fixpoint jobs_set (js : list (string * nat)) (name : string) (ref : nat)
    : list (string * nat) :=
  match js with
  | [] => [(name, ref)]
  | (n, r) :: js' =>
      if String.eqb n name then (name, ref) :: js' else (n, r) :: jobs_set js' name ref
  end.

Definition add_job (now : Z) (name : string) (interval_hours max_urls
    concurrency : Z) (enabled : bool) (s : CrawlScheduler) : CrawlScheduler :=
  let ref := fresh_ref s in
  mk_scheduler (check_interval s) (scheduler_running s)
    (jobs_set (jobs s) name ref)
    (<[ref := new_job now name interval_hours max_urls concurrency enabled]>
       (objects s))
    (job_queue s) (db s) (runs s).

(** CrawlScheduler.remove_job: the name leaves the dict; the object
    stays alive for the queue entries that refer to it. *)
Definition remove_job (name : string) (s : CrawlScheduler) : bool * CrawlScheduler :=
  if existsb (fun entry => String.eqb (fst entry) name) (jobs s)
  then (true, mk_scheduler (check_interval s) (scheduler_running s)
                (List.filter (fun entry => negb (String.eqb (fst entry) name))
                   (jobs s))
                (objects s) (job_queue s) (db s) (runs s))
  else (false, s).

Definition get_job (name : string) (s : CrawlScheduler) : option nat :=
  match List.find (fun entry => String.eqb (fst entry) name) (jobs s) with
  | Some (_, ref) => Some ref
  | None => None
  end.

Definition put (item : option nat) (s : CrawlScheduler) : CrawlScheduler :=
  mk_scheduler (check_interval s) (scheduler_running s) (jobs s) (objects s)
    (job_queue s ++ [item]) (db s) (runs s).

(** CrawlScheduler.run_job_now *)
Definition run_job_now (name : string) (s : CrawlScheduler) : bool * CrawlScheduler :=
  match get_job name s with
  | None => (false, s)
  | Some ref =>
      match objects s !! ref with
      | Some job => if running job then (false, s) else (true, put (Some ref) s)
      | None => (false, s)
      end
  end.

(** CrawlScheduler.start and stop, as far as the shared state goes. *)
Definition start (s : CrawlScheduler) : bool * CrawlScheduler :=
  if scheduler_running s then (false, s)
  else (true, mk_scheduler (check_interval s) true (jobs s) (objects s)
                (job_queue s) (db s) (runs s)).

Definition stop (s : CrawlScheduler) : bool * CrawlScheduler :=
  if negb (scheduler_running s) then (false, s)
  else (true, put None (mk_scheduler (check_interval s) false (jobs s) (objects s)
                          (job_queue s) (db s) (runs s))).

(** One pass of _checker_loop (lines 412-417) over [self.jobs.values()];
    [now i] is the clock as the [i]-th job of the dict reads it. *)
Fixpoint due_jobs (now : nat -> Z) (i : nat) (objs : gmap nat CrawlJob)
    (values : list nat) : list nat :=
  match values with
  | [] => []
  | ref :: rest =>
      match objs !! ref with
      | Some job =>
          if is_due (now i) job
          then ref :: due_jobs now (S i) objs rest
          else due_jobs now (S i) objs rest
      | None => due_jobs now (S i) objs rest
      end
  end.

Definition checker_pass (now : nat -> Z) (s : CrawlScheduler) : CrawlScheduler :=
  mk_scheduler (check_interval s) (scheduler_running s) (jobs s) (objects s)
    (job_queue s ++ map Some (due_jobs now 0 (objects s) (map snd (jobs s))))
    (db s) (runs s).

Section Work.
Context `{Engine} `{Retailers}.

(** CrawlJob.run: the job as it is when the crawler starts, then the
    try block, its except clause and its finally clause. *)
Definition started (now : Z) (job : CrawlJob) : CrawlJob :=
  mk_job (retailer_name job) (interval_hours job) (max_urls job) (concurrency job)
    (enabled job) (Some now) (now + interval_hours job * 3600)%Z true "running"
    (stats job).

Definition finished (job : CrawlJob) (new_status : string) (new_stats : dict)
    : CrawlJob :=
  mk_job (retailer_name job) (interval_hours job) (max_urls job) (concurrency job)
    (enabled job) (last_run job) (next_run job) false new_status new_stats.

Definition error_payload (job : CrawlJob) (message traceback : string) : dict :=
  [("error", JStr ("Error running crawl job for " ++ retailer_name job ++ ": "
                   ++ message));
   ("traceback", JStr traceback)].

(** Lines 115-141: the crawl and store work of the try block, on the
    job as it is once started.  A store that raises leaves the database
    file as it was. *)
Definition work (job1 : CrawlJob) (store : database) (n : nat)
    : try_result * database :=
  match run_crawler job1 n with
  | CrawlRaised message traceback => (Raised message traceback, store)
  | Crawled summary None => (Done summary, store)
  | Crawled summary (Some files) =>
      let crawled_products := load_crawled_products job1 files in
      match storage_error n with
      | Some (message, traceback) => (Raised message traceback, store)
      | None =>
          let '((success_count, failure_count), store') :=
            bulk_upsert_products crawled_products store in
          let summary1 := dict_set summary "database_success"
                            (JInt (Z.of_nat success_count)) in
          let summary2 := dict_set summary1 "database_failure"
                            (JInt (Z.of_nat failure_count)) in
          (Done summary2, store')
      end
  end.

Definition run (now : Z) (job : CrawlJob) (store : database) (n : nat)
    : dict * CrawlJob * database :=
  let job1 := started now job in
  match work job1 store n with
  | (Done summary, store') =>
      (summary, finished job1 "completed" summary, store')
  | (Raised message traceback, store') =>               (* except Exception *)
      let payload := error_payload job1 message traceback in
      (payload, finished job1 "failed" payload, store')
  end.

(** The scheduler while the worker runs the job at the head of the
    queue: the job has left the queue and CrawlJob.run has made its four
    assignments before the try block. *)
Definition in_flight (now : Z) (s : CrawlScheduler) : CrawlScheduler :=
  match job_queue s with
  | Some ref :: queue =>
      match objects s !! ref with
      | Some job =>
          mk_scheduler (check_interval s) (scheduler_running s) (jobs s)
            (<[ref := started now job]> (objects s)) queue (db s) (runs s)
      | None => s
      end
  | _ => s
  end.

(** How an iteration of _worker_loop ends: the loop goes on, it waits in
    [job_queue.get()], or the loop is left. *)
Inductive worker_state : Type := Continue | Waiting | Exited.

(** One iteration of the while loop of _worker_loop. *)
Definition worker_iteration (now : Z) (s : CrawlScheduler)
    : worker_state * CrawlScheduler :=
  if negb (scheduler_running s) then (Exited, s)
  else
    match job_queue s with
    | [] => (Waiting, s)
    | None :: queue =>
        (Exited, mk_scheduler (check_interval s) (scheduler_running s) (jobs s)
                   (objects s) queue (db s) (runs s))
    | Some ref :: queue =>
        match objects s !! ref with
        | Some job =>
            let '(_, job', store') := run now job (db s) (runs s) in
            (Continue, mk_scheduler (check_interval s) (scheduler_running s)
                         (jobs s) (<[ref := job']> (objects s)) queue store'
                         (S (runs s)))
        | None =>
            (Continue, mk_scheduler (check_interval s) (scheduler_running s)
                         (jobs s) (objects s) queue (db s) (runs s))
        end
    end.

(** The worker loop over the clock readings [times], one per iteration,
    until it waits, exits or the readings are used up. *)
Fixpoint worker_loop (times : list Z) (s : CrawlScheduler)
    : worker_state * CrawlScheduler :=
  match times with
  | [] => (Continue, s)
  | now :: later =>
      match worker_iteration now s with
      | (Continue, s') => worker_loop later s'
      | stopped => stopped
      end
  end.

End Work.

(** *** Jobs made from the retailers' configuration *)

(** CrawlJob.__init__, lines 66-81: the retailer is looked up ([None]:
    the ValueError of get_retailer_config goes through), and the
    concurrency is [concurrency or config.get("concurrency", 6)]. *)
Definition CrawlJob_init (now : Z) (retailer_name : string) (interval_hours
    max_urls : Z) (concurrency : option Z) (enabled : bool) : option CrawlJob :=
  match RetailersConfig.get_retailer_config retailer_name with
  | None => None
  | Some retailer_config =>
      let from_config := RetailersConfig.concurrency retailer_config in
      let resolved := match concurrency with
                      | Some c => if (c =? 0)%Z then from_config else c
                      | None => from_config
                      end in
      Some (new_job now retailer_name interval_hours max_urls resolved enabled)
  end.

(** CrawlScheduler.add_job, from the arguments of the caller: nothing is
    registered when CrawlJob.__init__ raises. *)
Definition add_job_checked (now : Z) (retailer_name : string) (interval_hours
    max_urls : Z) (concurrency : option Z) (enabled : bool) (s : CrawlScheduler)
    : option CrawlScheduler :=
  match CrawlJob_init now retailer_name interval_hours max_urls concurrency enabled with
  | None => None
  | Some job =>
      Some (add_job now retailer_name interval_hours max_urls
              (Scheduler.concurrency job) enabled s)
  end.

End Scheduler.

(** ** Concrete collaborators and inputs for the examples *)

Module Demo.
Import Py Database.

(** A clock that ticks one second a reading, and an engine that agrees
    with SQLite on the values the examples use: integers are written in
    decimal (the examples bind no float to a TEXT column and no text to
    the price), and a query of one word matches the index rows that have
    this word as a column (a parenthesis makes the query ill-formed). *)
Definition demo_match (q : string) (e : search_row) : bool :=
  sql_eqb (fts_id e) (SText q) || sql_eqb (fts_title e) (SText q)
  || sql_eqb (fts_description e) (SText q) || sql_eqb (fts_brand e) (SText q)
  || sql_eqb (fts_category e) (SText q).

Fixpoint contains (c : ascii) (s : string) : bool :=
  match s with
  | EmptyString => false
  | String c' rest => Ascii.eqb c' c || contains c rest
  end.

Definition demo_engine : Engine := {|
  time_ms := fun n => (1700000000000 + 1000 * Z.of_nat n)%Z;
  num_to_text := fun v => match v with
                          | SInt z => str_int z
                          | SReal q => str_int (Qfloor q)
                          | _ => ""
                          end;
  text_to_num := fun _ => None;
  fts5_match := fun q => if contains "(" q then None else Some (demo_match q);
  SQLITE_MAX_VARIABLE_NUMBER := Z.to_nat 32766;
  tie_order := fun _ _ rows => rows;
  tie_order_permutation := fun _ _ rows => Permutation_refl rows
|}.

(** The test product of database.py. *)
Definition test_product : dict :=
  [("url", JStr "https://www.example.com/product/123");
   ("retailer", JStr "TestRetailer");
   ("title", JStr "Test Product");
   ("description", JStr "This is a test product");
   ("price", JObj [("current", JFloat (9999 # 100)); ("currency", JStr "ZAR")]);
   ("brand", JStr "TestBrand");
   ("category", JStr "TestCategory")].

(** The same product, crawled again at a new price. *)
Definition test_product_again : dict :=
  [("url", JStr "https://www.example.com/product/123");
   ("retailer", JStr "TestRetailer");
   ("title", JStr "Test Product");
   ("description", JStr "A new description");
   ("price", JObj [("current", JFloat (8999 # 100)); ("currency", JStr "ZAR")]);
   ("brand", JStr "TestBrand");
   ("category", JStr "TestCategory")].

Definition no_url_product : dict :=
  [("retailer", JStr "TestRetailer"); ("title", JStr "No url")].

(** The [n]-th of a retailer's coffee products. *)
Definition coffee (n : nat) : dict :=
  [("url", JStr ("https://shop.example/p/" ++ str_int (Z.of_nat n)));
   ("retailer", JStr "Shop");
   ("title", JStr "coffee");
   ("price", JObj [("current", JInt 75); ("currency", JStr "ZAR")])].


Definition test_url : string := "https://www.example.com/product/123".

Definition mixed_batch : list dict := [test_product; no_url_product; coffee 1].



(** A site that answers every request with 429 Too Many Requests. *)
Definition throttling_site : Crawler.FetchEngine := {|
  Crawler.arun_many := fun _ urls _ _ =>
    Ok (map (fun u => Crawler.mk_result u false (Some 429%Z) "") urls);
  Crawler.process_result := fun _ => Ok None
|}.

Definition two_urls : list string :=
  ["https://shop.example/p/1"; "https://shop.example/p/2"].

(** A site that throttles the first fetch and serves the second. *)
Definition recovering_site : Crawler.FetchEngine := {|
  Crawler.arun_many := fun n urls _ _ =>
    Ok (map (fun u => Crawler.mk_result u (0 <? n)%nat
                        (if (0 <? n)%nat then Some 200%Z else Some 429%Z)
                        "page") urls);
  Crawler.process_result := fun r => Ok (Some [("url", JStr (Crawler.url r))])
|}.

(** A scheduler started with two jobs made at time 0. *)
Definition two_jobs : Scheduler.CrawlScheduler :=
  snd (Scheduler.start (Scheduler.add_job 0 "Checkers" 24 1000 5 true
                (Scheduler.add_job 0 "PriceCheck" 24 1000 6 true
                   (Scheduler.new_scheduler 60 empty_db)))).

(** The checker has queued both jobs at time 0 and the worker, from time
    1 on, runs the first of them. *)
Definition busy_scheduler : Scheduler.CrawlScheduler :=
  Scheduler.in_flight 1 (Scheduler.checker_pass (fun _ => 0%Z) two_jobs).

(** Crawler modules of which PriceCheck cannot be imported. *)
Definition broken_pricecheck : Scheduler.Retailers := {|
  Scheduler.run_crawler := fun job _ =>
    if String.eqb (Scheduler.retailer_name job) "PriceCheck"
    then Scheduler.CrawlRaised "No module named 'pricecheck_crawler'" "Traceback"
    else Scheduler.Crawled [("retailer", JStr (Scheduler.retailer_name job))]
           (Some [test_product]);
  Scheduler.storage_error := fun _ => None
|}.

Definition both_queued : Scheduler.CrawlScheduler :=
  Scheduler.checker_pass (fun _ => 0%Z) two_jobs.

(** A record whose title is given as null. *)
Definition untitled_product : dict :=
  [("url", JStr "https://shop.example/p/9");
   ("retailer", JStr "Shop");
   ("title", JNull)].

(** A product whose id is the string 5, and the same product listed again
    with its id given as the number 5. *)
Definition text_id_product : dict :=
  [("id", JStr "5");
   ("url", JStr "https://shop.example/item");
   ("retailer", JStr "Shop");
   ("title", JStr "old")].

Definition int_id_product : dict :=
  [("id", JInt 5);
   ("url", JStr "https://shop.example/item");
   ("retailer", JStr "Shop");
   ("title", JStr "new")].

(** A product whose price does not fit 64 bits. *)
Definition huge_price_product : dict :=
  [("url", JStr "https://shop.example/p/7");
   ("retailer", JStr "Shop");
   ("title", JStr "gold");
   ("price", JObj [("current", JInt (10 ^ 30)); ("currency", JStr "ZAR")])].

(** The store after the test product and two coffee products went in. *)
Definition small_store : database :=
  snd (@bulk_upsert_products demo_engine [test_product; coffee 1; coffee 2] empty_db).

(** A crawler that has made one fetch before. *)
Definition second_call : Crawler.BaseCrawler :=
  Crawler.mk_crawler Crawler.fresh_stats (1, 3)%Q false 1 [].

(** A sitemap with a product page and a page that is none. *)
Definition shop_sitemap : list string :=
  ["https://shop.example/p/1"; "https://shop.example/about"].

End Demo.

(** ** Properties of the product store *)

Module StoreProps.
Import Py Database.

(** The record has no url, or a url that tests false. *)
(** Newest first: no row is followed by a row updated after it. *)
Definition newest_first (rows : list product_row) : Prop :=
  StronglySorted (fun a b => (col_updated_at b <= col_updated_at a)%Z) rows.

Definition lacks_url (product_data : dict) : bool :=
  negb (truthy (get product_data "url" (JStr ""))).

Definition bindable (v : json) : bool := is_ok (adapt v).

Definition is_null (v : json) : bool :=
  match v with JNull => true | _ => false end.

Definition is_str (v : json) : bool :=
  match v with JStr _ => true | _ => false end.

(** The records the store accepts: a url that tests true; an id that
    tests true and can be bound, or else a url that is a str; every bound
    field of a type sqlite3 supports, an int within 64 bits; retailer and
    title not None. *)
Definition valid_record (product_data : dict) : bool :=
  let url := get product_data "url" (JStr "") in
  let product_id := get product_data "id" (JStr "") in
  let retailer := get product_data "retailer" (JStr "") in
  let title := get product_data "title" (JStr "") in
  truthy url
  && (if truthy product_id then bindable product_id else is_str url)
  && (bindable retailer
      && bindable title
      && bindable (get product_data "description" (JStr ""))
      && bindable (extract_price product_data)
      && bindable (get product_data "brand" (JStr ""))
      && bindable (get product_data "category" (JStr ""))
      && bindable url
      && negb (is_null retailer)
      && negb (is_null title)).

Section Props.
Context `{Engine}.

(** The primary key of a stored value of [product_id]. *)
Definition row_id_of (product_id : json) : option string :=
  match adapt product_id with
  | Ok v => as_text v
  | Raise _ => None
  end.

(** The rows of [products] with primary key [i], and the rows of the
    index whose id equals the bound value [v]. *)
Definition rows_with (i : string) (db : database) : list product_row :=
  List.filter (fun r => String.eqb (col_id r) i) (products db).

Definition entries_with (v : sqlval) (db : database) : list search_row :=
  List.filter (fun e => sql_eqb (fts_id e) v) (product_search db).

(** The constraint PRIMARY KEY of [products.id]. *)
Definition primary_key (db : database) : Prop :=
  NoDup (map col_id (products db)).

(** What a successful upsert_record leaves: the row written under [v]
    and the index entry put in place of the old ones. *)
Definition written (v : sqlval) (row : product_row) (e : search_row)
    (db : database) (clk : nat) : database :=
  mk_db (if existsb (id_is v) (products db)
         then map (update_row row) (products db)
         else products db ++ [row])
        (List.filter (fun e' => negb (sql_eqb (fts_id e') v)) (product_search db)
           ++ [e])
        clk.

Lemma derive_id_frame product_data url db :
  products (snd (derive_id product_data url db)) = products db
  ∧ product_search (snd (derive_id product_data url db)) = product_search db.
Proof.
  unfold derive_id.
  destruct (truthy (get product_data "id" (JStr ""))); [done|].
  destruct url; try done.
  destruct (negb _); done.
Qed.

Lemma derive_id_no_null product_data url db pid db' :
  derive_id product_data url db = (Ok pid, db') → is_null pid = false.
Proof.
  unfold derive_id.
  destruct (truthy (get product_data "id" (JStr ""))) eqn:Hid.
  - intros [= <- _]. by destruct (get product_data "id" (JStr "")).
  - destruct url; try done.
    destruct (negb _); [by intros [= <- _]|].
    unfold bind, time_millis, ret. by intros [= <- _].
Qed.

(** What a successful binding of the row's parameters tells. *)
Inductive bound_row (title description price brand category pid : json)
    (data : dict) (created now : Z) (row : product_row) : Prop :=
| Bound (v vt vd vp vb vc : sqlval)
    (adapt_id : adapt pid = Ok v)
    (adapt_title : adapt title = Ok vt)
    (adapt_description : adapt description = Ok vd)
    (adapt_price : adapt price = Ok vp)
    (adapt_brand : adapt brand = Ok vb)
    (adapt_category : adapt category = Ok vc)
    (text_id : as_text v = Some (col_id row))
    (text_title : as_text vt = Some (col_title row))
    (row_description : col_description row = as_text vd)
    (row_price : col_price row = as_real vp)
    (row_brand : col_brand row = as_text vb)
    (row_category : col_category row = as_text vc)
    (row_data : col_data row = data)
    (row_created : col_created_at row = created)
    (row_updated : col_updated_at row = now).

Lemma bind_row_inv retailer title description price brand category url data
    created now pid row :
  bind_row retailer title description price brand category url data created now pid
  = Ok row →
  bound_row title description price brand category pid data created now row.
Proof.
  unfold bind_row, bind_outcome, not_null.
  destruct (adapt retailer) as [vr|]; [|done].
  destruct (adapt title) as [vt|] eqn:Ht; [|done].
  destruct (adapt description) as [vd|] eqn:Hd; [|done].
  destruct (adapt price) as [vp|] eqn:Hp; [|done].
  destruct (adapt brand) as [vb|] eqn:Hb; [|done].
  destruct (adapt category) as [vc|] eqn:Hc; [|done].
  destruct (adapt url) as [vu|]; [|done].
  destruct (adapt pid) as [v|] eqn:Hv; [|done].
  destruct (as_text v) as [i|] eqn:Hi; [|done].
  destruct (as_text vr) as [r|]; [|done].
  destruct (as_text vt) as [t|] eqn:Htt; [|done].
  destruct (as_text vu) as [u|]; [|done].
  intros [= <-].
  by eapply (Bound _ _ _ _ _ _ _ _ _ _ v vt vd vp vb vc).
Qed.

Lemma existsb_id_is v i rows :
  as_text v = Some i →
  existsb (id_is v) rows = existsb (fun r => String.eqb (col_id r) i) rows.
Proof.
  intros Hv. induction rows as [|r rows IH]; [done|].
  simpl. unfold id_is at 1. by rewrite Hv, IH.
Qed.

Lemma bound_row_search title description price brand category pid data created
    now row :
  bound_row title description price brand category pid data created now row →
  ∃ e, bind_search pid title description brand category = Ok e.
Proof.
  intros []. unfold bind_search, bind_outcome.
  rewrite adapt_id, adapt_title, adapt_description, adapt_brand, adapt_category.
  eauto.
Qed.

(** [stored product_data url db db']: upsert_record went through, and
    how [db'] comes from [db]. *)
Inductive stored (product_data : dict) (url : json) (db db' : database) : Prop :=
| Stored (pid : json) (dbi : database) (v : sqlval) (row : product_row)
    (e : search_row)
    (Hid : derive_id product_data url db = (Ok pid, dbi))
    (Hv : adapt pid = Ok v)
    (Hrow : bind_row (get product_data "retailer" (JStr ""))
              (get product_data "title" (JStr ""))
              (get product_data "description" (JStr ""))
              (extract_price product_data)
              (get product_data "brand" (JStr ""))
              (get product_data "category" (JStr "")) url product_data
              (time_ms (clock dbi) / 1000) (time_ms (clock dbi) / 1000) pid
            = Ok row)
    (He : bind_search pid (get product_data "title" (JStr ""))
            (get product_data "description" (JStr ""))
            (get product_data "brand" (JStr ""))
            (get product_data "category" (JStr "")) = Ok e)
    (Hdb : db' = written v row e db (S (clock dbi))).

(** A record is written whole or not at all. *)
Lemma upsert_record_inv product_data url db :
  match upsert_record product_data url db with
  | (Ok _, db') => stored product_data url db db'
  | (Raise _, db') =>
      products db' = products db ∧ product_search db' = product_search db
  end.
Proof.
  pose proof (derive_id_frame product_data url db) as [Hp Hs].
  unfold upsert_record, bind at 1.
  destruct (derive_id product_data url db) as [[pid|ex] dbi] eqn:Hid;
    simpl in Hp, Hs; [|done].
  unfold bind at 1, time_seconds.
  unfold bind at 1, select_existing, bind at 1, lift.
  destruct (adapt pid) as [v|ex] eqn:Hv; [|by simpl].
  simpl products. simpl product_search. simpl clock.
  rewrite Hp.
  destruct (existsb (id_is v) (products db)) eqn:Hex.
  - unfold bind at 1, sql_update, bind at 1, lift.
    destruct (bind_row _ _ _ _ _ _ _ _ _ _ _) as [row|ex] eqn:Hrow; [|by simpl].
    destruct (bound_row_search _ _ _ _ _ _ _ _ _ _ (bind_row_inv _ _ _ _ _ _ _ _ _ _ _ _ Hrow))
      as [e He].
    simpl. unfold bind at 1, sql_delete_search, bind at 1, lift. rewrite Hv.
    simpl. unfold sql_insert_search, bind, lift. rewrite He. simpl.
    eapply (Stored _ _ _ _ pid dbi v row e); try done.
    unfold written. by rewrite Hex, Hs.
  - unfold bind at 1, sql_insert, bind at 1, lift.
    destruct (bind_row _ _ _ _ _ _ _ _ _ _ _) as [row|ex] eqn:Hrow; [|by simpl].
    pose proof (bind_row_inv _ _ _ _ _ _ _ _ _ _ _ _ Hrow) as Hb.
    destruct (bound_row_search _ _ _ _ _ _ _ _ _ _ Hb) as [e He].
    destruct Hb. rewrite Hv in adapt_id. injection adapt_id as <-.
    simpl products.
    rewrite <- (existsb_id_is v _ _ text_id), Hex.
    simpl. unfold bind at 1, sql_delete_search, bind at 1, lift. rewrite Hv.
    simpl. unfold sql_insert_search, bind, lift. rewrite He. simpl.
    eapply (Stored _ _ _ _ pid dbi v row e); try done.
    unfold written. by rewrite Hex, Hs.
Qed.

(** *** Rows by primary key *)

Definition has_id (i : string) (r : product_row) : bool := String.eqb (col_id r) i.

Lemma filter_none_existsb {A} (f : A → bool) (l : list A) :
  existsb f l = false → List.filter f l = [].
Proof.
  induction l as [|x l IH]; [done|]. simpl.
  destruct (f x); [done|]. exact IH.
Qed.

Lemma existsb_has_id_in i rows :
  existsb (has_id i) rows = true ↔ In i (map col_id rows).
Proof.
  induction rows as [|r rows IH]; simpl; [by split|].
  rewrite orb_true_iff, IH. unfold has_id.
  rewrite String.eqb_eq. tauto.
Qed.

Lemma filter_unique_id i rows :
  NoDup (map col_id rows) → existsb (has_id i) rows = true →
  ∃ r, List.filter (has_id i) rows = [r] ∧ col_id r = i.
Proof.
  induction rows as [|r rows IH]; [done|].
  simpl. intros [Hnot Hnd']%NoDup_cons Hex.
  destruct (has_id i r) eqn:Hr.
  - unfold has_id in Hr. apply String.eqb_eq in Hr. exists r. split; [|done].
    rewrite filter_none_existsb; [done|].
    destruct (existsb (has_id i) rows) eqn:Hex'; [|done].
    apply existsb_has_id_in in Hex'. subst i.
    rewrite <- list_elem_of_In in Hex'. done.
  - simpl in Hex. by apply IH.
Qed.

Lemma update_row_id row r : col_id (update_row row r) = col_id r.
Proof. unfold update_row. by destruct (String.eqb _ _). Qed.

Lemma map_update_ids row rows :
  map col_id (map (update_row row) rows) = map col_id rows.
Proof.
  rewrite map_map. apply map_ext. intros r. apply update_row_id.
Qed.

Lemma filter_map_update i row rows :
  List.filter (has_id i) (map (update_row row) rows)
  = map (update_row row) (List.filter (has_id i) rows).
Proof.
  induction rows as [|r rows IH]; [done|]. simpl.
  assert (has_id i (update_row row r) = has_id i r) as ->
    by (unfold has_id; by rewrite update_row_id).
  destruct (has_id i r); simpl; by rewrite IH.
Qed.

Lemma filter_map_update_other i row rows :
  col_id row ≠ i →
  List.filter (has_id i) (map (update_row row) rows) = List.filter (has_id i) rows.
Proof.
  intros Hne. rewrite filter_map_update.
  induction rows as [|r rows IH]; [done|]. simpl.
  destruct (has_id i r) eqn:Hr; [|done]. simpl. rewrite IH. f_equal.
  unfold update_row. destruct (String.eqb (col_id r) (col_id row)) eqn:Heq; [|done].
  apply String.eqb_eq in Heq. unfold has_id in Hr. apply String.eqb_eq in Hr.
  congruence.
Qed.

Lemma get_product_by_id_rows i db :
  get_product_by_id i db = col_data <$> head (rows_with i db).
Proof.
  unfold get_product_by_id, rows_with.
  induction (products db) as [|r rows IH]; [done|]. simpl.
  destruct (String.eqb (col_id r) i); [done|]. exact IH.
Qed.

Lemma sql_eqb_refl v i : as_text v = Some i → sql_eqb v v = true.
Proof.
  destruct v; simpl; try done; intros _.
  - apply Z.eqb_refl.
  - apply Qeq_bool_iff. reflexivity.
  - apply String.eqb_refl.
Qed.

(** *** What a write leaves *)

Section Written.
Variables (v : sqlval) (row : product_row) (e : search_row) (db : database)
  (clk : nat).
Hypothesis text_id : as_text v = Some (col_id row).
Hypothesis entry_id : fts_id e = v.

Lemma written_primary_key :
  primary_key db → primary_key (written v row e db clk).
Proof.
  unfold primary_key, written. simpl. intros Hnd.
  rewrite (existsb_id_is v _ _ text_id).
  destruct (existsb _ _) eqn:Hex.
  - by rewrite map_update_ids.
  - rewrite map_app. simpl. apply NoDup_app. split; [done|]. split.
    + intros i Hi Hin. apply list_elem_of_In in Hin. simpl in Hin.
      destruct Hin as [<-|[]]. apply list_elem_of_In in Hi.
      apply existsb_has_id_in in Hi. unfold has_id in Hi. congruence.
    + apply NoDup_singleton.
Qed.

(** Exactly one row has the id written, and it carries the new values. *)
Lemma written_row :
  primary_key db →
  ∃ r, rows_with (col_id row) (written v row e db clk) = [r]
       ∧ col_id r = col_id row ∧ col_data r = col_data row
       ∧ col_title r = col_title row ∧ col_description r = col_description row
       ∧ col_brand r = col_brand row ∧ col_category r = col_category row
       ∧ col_price r = col_price row ∧ col_updated_at r = col_updated_at row.
Proof.
  unfold primary_key, written, rows_with. simpl. intros Hnd.
  rewrite (existsb_id_is v _ _ text_id).
  destruct (existsb _ _) eqn:Hex.
  - destruct (filter_unique_id _ _ Hnd Hex) as (r & Hr & Hid).
    fold (has_id (col_id row)). rewrite filter_map_update, Hr. simpl.
    exists (update_row row r). split; [done|].
    unfold update_row. rewrite Hid, String.eqb_refl. simpl. done.
  - fold (has_id (col_id row)) in *. rewrite List.filter_app.
    rewrite (filter_none_existsb _ _ Hex). simpl.
    unfold has_id at 1. rewrite String.eqb_refl. exists row. done.
Qed.

(** The rows with another id are as they were. *)
Lemma written_other_rows i :
  col_id row ≠ i → rows_with i (written v row e db clk) = rows_with i db.
Proof.
  intros Hne. unfold written, rows_with. simpl. fold (has_id i).
  destruct (existsb _ _).
  - by apply filter_map_update_other.
  - rewrite List.filter_app. simpl. unfold has_id at 2.
    apply String.eqb_neq in Hne. rewrite Hne. apply app_nil_r.
Qed.

(** Exactly one index row has the id written: the new one. *)
Lemma written_entry : entries_with v (written v row e db clk) = [e].
Proof.
  unfold written, entries_with. simpl. rewrite List.filter_app. simpl.
  rewrite entry_id, (sql_eqb_refl _ _ text_id).
  rewrite (filter_none_existsb _ (List.filter _ _)); [done|].
  induction (product_search db) as [|e' es IH]; [done|]. simpl.
  destruct (sql_eqb (fts_id e') v) eqn:He'; simpl; [done|].
  by rewrite He'.
Qed.

(** An update keeps the number of rows. *)
Lemma written_length :
  existsb (has_id (col_id row)) (products db) = true →
  length (products (written v row e db clk)) = length (products db).
Proof.
  unfold written. simpl. rewrite (existsb_id_is v _ _ text_id).
  fold (has_id (col_id row)). intros ->. apply length_map.
Qed.

End Written.

(** The first row with the id written carries the new values, whatever
    the table held before. *)
Lemma written_find v row e db clk :
  as_text v = Some (col_id row) →
  ∃ r, List.find (has_id (col_id row)) (products (written v row e db clk)) = Some r
       ∧ col_data r = col_data row ∧ col_price r = col_price row.
Proof.
  intros Hv. unfold written. simpl.
  rewrite (existsb_id_is v _ _ Hv). fold (has_id (col_id row)).
  induction (products db) as [|r rows IH]; simpl.
  - unfold has_id. rewrite String.eqb_refl. by exists row.
  - destruct (has_id (col_id row) r) eqn:Hr; simpl.
    + unfold has_id at 1. rewrite update_row_id. fold (has_id (col_id row) r).
      rewrite Hr. exists (update_row row r).
      unfold update_row. unfold has_id in Hr. by rewrite Hr.
    + destruct (existsb (has_id (col_id row)) rows) eqn:Hex; simpl.
      * unfold has_id at 1. rewrite update_row_id. fold (has_id (col_id row) r).
        rewrite Hr. exact IH.
      * rewrite Hr. exact IH.
Qed.

Lemma written_get v row e db clk :
  as_text v = Some (col_id row) →
  get_product_by_id (col_id row) (written v row e db clk) = Some (col_data row).
Proof.
  intros Hv. destruct (written_find v row e db clk Hv) as (r & Hr & Hd & _).
  unfold get_product_by_id. fold (has_id (col_id row)). by rewrite Hr, Hd.
Qed.

Lemma stored_get product_data url db db' :
  stored product_data url db db' →
  ∃ pid i, fst (derive_id product_data url db) = Ok pid
           ∧ row_id_of pid = Some i
           ∧ get_product_by_id i db' = Some product_data.
Proof.
  intros []. destruct (bind_row_inv _ _ _ _ _ _ _ _ _ _ _ _ Hrow).
  rewrite Hv in adapt_id. injection adapt_id as <-.
  exists pid, (col_id row). rewrite Hid. split; [done|]. split.
  - unfold row_id_of. by rewrite Hv.
  - subst db'. rewrite written_get; [|done]. by rewrite row_data.
Qed.

Lemma upsert_product_true product_data db db' :
  upsert_product product_data db = (true, db') →
  truthy (get product_data "url" (JStr "")) = true
  ∧ stored product_data (get product_data "url" (JStr "")) db db'.
Proof.
  unfold upsert_product.
  destruct (truthy (get product_data "url" (JStr ""))); [|done]. simpl.
  pose proof (upsert_record_inv product_data (get product_data "url" (JStr "")) db)
    as Hinv.
  destruct (upsert_record _ _ db) as [[[]|ex] db1]; [|done].
  by intros [= <-].
Qed.

(** *** The last part of a url *)

Fixpoint has_char (c : ascii) (s : string) : bool :=
  match s with
  | EmptyString => false
  | String c' rest => Ascii.eqb c' c || has_char c rest
  end.

(** [segment] is what follows the last [c] of [s], or all of [s] when
    there is no [c] in it. *)
Definition after_last (c : ascii) (s segment : string) : Prop :=
  has_char c segment = false
  ∧ (s = segment ∨ ∃ before, s = (before ++ String c segment)%string).

(** [c.join(parts)] *)
Fixpoint join (c : ascii) (parts : list string) : string :=
  match parts with
  | [] => EmptyString
  | [x] => x
  | x :: rest => (x ++ String c (join c rest))%string
  end.

Lemma split_not_nil c s : split c s ≠ [].
Proof.
  destruct s as [|a s]; simpl; [done|].
  destruct (Ascii.eqb a c); [done|]. by destruct (split c s).
Qed.

Lemma split_join c s : join c (split c s) = s.
Proof.
  induction s as [|a s IH]; [done|]. simpl.
  pose proof (split_not_nil c s) as Hne.
  destruct (Ascii.eqb a c) eqn:Hac.
  - apply Ascii.eqb_eq in Hac. subst a.
    destruct (split c s) as [|x l]; [done|]. simpl in *. by rewrite IH.
  - destruct (split c s) as [|x [|y l]]; [done| |]; simpl in *; by rewrite <- IH.
Qed.

Lemma split_no_char c s : Forall (fun x => has_char c x = false) (split c s).
Proof.
  induction s as [|a s IH]; simpl; [by repeat constructor|].
  destruct (Ascii.eqb a c) eqn:Hac; [by constructor|].
  destruct (split c s) as [|x l]; [by repeat constructor; simpl; rewrite Hac|].
  apply Forall_cons in IH as [Hx Hl]. constructor; [|done].
  simpl. by rewrite Hac.
Qed.

Lemma append_assoc (a b c : string) : ((a ++ b) ++ c = a ++ (b ++ c))%string.
Proof.
  induction a as [|x a IH]; [done|].
  change (String x ((a ++ b) ++ c) = String x (a ++ (b ++ c)))%string.
  by rewrite IH.
Qed.

Lemma join_last c parts :
  parts ≠ [] →
  join c parts = last_part parts
  ∨ ∃ before, join c parts = (before ++ String c (last_part parts))%string.
Proof.
  induction parts as [|x [|y l] IH]; [done|by left|]. intros _. right.
  change (last_part (x :: y :: l)) with (last_part (y :: l)).
  change (join c (x :: y :: l)) with (x ++ String c (join c (y :: l)))%string.
  destruct IH as [->|[before ->]]; [done| |].
  - by exists x.
  - exists (x ++ String c before)%string.
    by rewrite append_assoc.
Qed.

Lemma last_part_in parts : parts ≠ [] → In (last_part parts) parts.
Proof.
  induction parts as [|x [|y l] IH]; [done|by left|]. intros _. right.
  by apply IH.
Qed.

Lemma after_last_split c s : after_last c s (last_part (split c s)).
Proof.
  pose proof (split_not_nil c s) as Hne. split.
  - pose proof (split_no_char c s) as Hall. rewrite List.Forall_forall in Hall.
    apply Hall. by apply last_part_in.
  - destruct (join_last c (split c s) Hne) as [Hj|[before Hj]];
      rewrite split_join in Hj; eauto.
Qed.

(** The part after the last separator is unique. *)
Lemma after_last_unique c s x y : after_last c s x → after_last c s y → x = y.
Proof.
  revert x y. induction s as [|a s IH]; intros x y [Hx Hsx] [Hy Hsy].
  - destruct Hsx as [<-|[bx Hbx]]; destruct Hsy as [<-|[by_ Hby]]; try done.
    + by destruct by_.
    + by destruct bx.
    + by destruct bx.
  - assert (Hcase : ∀ z, has_char c z = false →
              (String a s = z ∨ ∃ b, String a s = (b ++ String c z)%string) →
              (has_char c (String a s) = false ∧ z = String a s)
              ∨ (a = c ∧ has_char c s = false ∧ z = s)
              ∨ (has_char c s = true ∧ after_last c s z)).
    { intros z Hz [<-|[b Hb]]; [by left|]. right.
      destruct b as [|b0 b]; simpl in Hb; injection Hb as -> ->.
      - destruct (has_char c z) eqn:E; [done|]. left. done.
      - right. split.
        + clear. induction b as [|b1 b IHb]; simpl.
          * by rewrite Ascii.eqb_refl.
          * by rewrite IHb, orb_true_r.
        + split; [done|]. right. by exists b. }
    destruct (Hcase x Hx Hsx) as [[Hnx ->]|[(-> & Hsn & ->)|[Hsc Hax]]];
    destruct (Hcase y Hy Hsy) as [[Hny ->]|[(Hac & Hsn' & ->)|[Hsc' Hay]]];
      try done; simpl in *.
    + rewrite Hac, Ascii.eqb_refl in Hnx. done.
    + rewrite Hsc' in Hnx. by rewrite orb_true_r in Hnx.
    + rewrite Ascii.eqb_refl in Hny. done.
    + congruence.
    + rewrite Hsc in Hny. by rewrite orb_true_r in Hny.
    + congruence.
    + by apply IH.
Qed.

Lemma bulk_loop_single product_data db sc fc db' :
  bulk_upsert_products [product_data] db = ((sc, fc), db') →
  sc = 1 →
  truthy (get product_data "url" (JStr "")) = true
  ∧ stored product_data (get product_data "url" (JStr "")) db db'.
Proof.
  unfold bulk_upsert_products. simpl.
  destruct (truthy (get product_data "url" (JStr ""))); simpl;
    [|by intros [= <- _ _]].
  pose proof (upsert_record_inv product_data (get product_data "url" (JStr "")) db)
    as Hinv.
  destruct (upsert_record _ _ db) as [[[]|ex] db1]; [|by intros [= <- _ _]].
  by intros [= _ _ <-].
Qed.

(** A field of the nested price of a record. *)
Definition price_field (product_data : dict) (k : string) : option json :=
  match lookup_key product_data "price" with
  | Some (JObj price_data) => lookup_key price_data k
  | _ => None
  end.

(** *** Which records go through *)

Lemma not_null_is_ok x v :
  adapt x = Ok v → is_ok (not_null v) = negb (is_null x).
Proof.
  destruct x; simpl; try done; try (by intros [= <-]).
  destruct (int64 _); [by intros [= <-]|done].
Qed.

Lemma truthy_not_null x : truthy x = true → is_null x = false.
Proof. by destruct x. Qed.

Lemma bind_row_is_ok retailer title description price brand category url data
    created now pid :
  bindable pid = true → is_null pid = false → is_null url = false →
  is_ok (bind_row retailer title description price brand category url data
           created now pid)
  = bindable retailer && bindable title && bindable description
    && bindable price && bindable brand && bindable category && bindable url
    && negb (is_null retailer) && negb (is_null title).
Proof.
  unfold bind_row, bind_outcome, bindable. intros Hpid Hnn Hurl.
  destruct (adapt retailer) as [vr|] eqn:Hr; simpl; [|done].
  destruct (adapt title) as [vt|] eqn:Ht; simpl; [|done].
  destruct (adapt description) as [vd|]; simpl; [|done].
  destruct (adapt price) as [vp|]; simpl; [|done].
  destruct (adapt brand) as [vb|]; simpl; [|done].
  destruct (adapt category) as [vc|]; simpl; [|done].
  destruct (adapt url) as [vu|] eqn:Hu; simpl; [|done].
  destruct (adapt pid) as [v|] eqn:Hv; [|done].
  pose proof (not_null_is_ok _ _ Hv) as H1. rewrite Hnn in H1.
  pose proof (not_null_is_ok _ _ Hr) as H2.
  pose proof (not_null_is_ok _ _ Ht) as H3.
  pose proof (not_null_is_ok _ _ Hu) as H4. rewrite Hurl in H4.
  destruct (not_null v); [|done].
  destruct (not_null vr); simpl in H2; rewrite <- H2; [|done].
  destruct (not_null vt); simpl in H3; rewrite <- H3; [|done].
  destruct (not_null vu); [|done]. done.
Qed.

(** upsert_record goes through exactly for the valid records. *)
Lemma upsert_record_valid product_data db :
  truthy (get product_data "url" (JStr "")) = true →
  is_ok (fst (upsert_record product_data (get product_data "url" (JStr "")) db))
  = valid_record product_data.
Proof.
  intros Hurl. unfold valid_record. rewrite Hurl. simpl andb.
  pose proof (derive_id_no_null product_data (get product_data "url" (JStr "")) db)
    as Hnn.
  unfold upsert_record, bind at 1.
  assert (Hid : ∀ pid dbi,
    derive_id product_data (get product_data "url" (JStr "")) db = (Ok pid, dbi) →
    (if truthy (get product_data "id" (JStr ""))
     then bindable (get product_data "id" (JStr ""))
     else is_str (get product_data "url" (JStr ""))) = bindable pid).
  { unfold derive_id.
    destruct (truthy (get product_data "id" (JStr ""))); [by intros ?? [= <- _]|].
    destruct (get product_data "url" (JStr "")); try done.
    destruct (negb _); [by intros ?? [= <- _]|].
    unfold bind, time_millis, ret. by intros ?? [= <- _]. }
  destruct (derive_id product_data (get product_data "url" (JStr "")) db)
    as [[pid|ex] dbi] eqn:Hd.
  - rewrite (Hid _ _ eq_refl). specialize (Hnn _ _ eq_refl).
    unfold bind at 1, time_seconds.
    unfold bind at 1, select_existing, bind at 1, lift.
    unfold bindable at 1.
    destruct (adapt pid) as [v|ex] eqn:Hv; [|done]. simpl andb.
    assert (Hb : bindable pid = true) by (unfold bindable; by rewrite Hv).
    rewrite <- (bind_row_is_ok _ _ _ _ _ _ _ product_data
                  (time_ms (clock dbi) / 1000) (time_ms (clock dbi) / 1000) pid
                  Hb Hnn (truthy_not_null _ Hurl)).
    match goal with |- context [existsb ?f ?l] => destruct (existsb f l) eqn:Hex end.
    + unfold bind at 1, sql_update, bind at 1, lift.
      destruct (bind_row _ _ _ _ _ _ _ _ _ _ _) as [row|ex] eqn:Hrow; [|done].
      destruct (bound_row_search _ _ _ _ _ _ _ _ _ _
                  (bind_row_inv _ _ _ _ _ _ _ _ _ _ _ _ Hrow)) as [e He].
      simpl. unfold bind at 1, sql_delete_search, bind at 1, lift. rewrite Hv.
      simpl. unfold sql_insert_search, bind, lift. by rewrite He.
    + unfold bind at 1, sql_insert, bind at 1, lift.
      destruct (bind_row _ _ _ _ _ _ _ _ _ _ _) as [row|ex] eqn:Hrow; [|done].
      pose proof (bind_row_inv _ _ _ _ _ _ _ _ _ _ _ _ Hrow) as Hbr.
      destruct (bound_row_search _ _ _ _ _ _ _ _ _ _ Hbr) as [e He].
      destruct Hbr. rewrite Hv in adapt_id. injection adapt_id as <-.
      simpl products in *. rewrite <- (existsb_id_is v _ _ text_id), Hex.
      simpl. unfold bind at 1, sql_delete_search, bind at 1, lift. rewrite Hv.
      simpl. unfold sql_insert_search, bind, lift. by rewrite He.
  - simpl. symmetry. apply andb_false_intro1.
    revert Hd. unfold derive_id.
    destruct (truthy (get product_data "id" (JStr ""))); [done|].
    destruct (get product_data "url" (JStr "")); try done.
    destruct (negb _); [done|]. unfold bind, time_millis, ret. done.
Qed.

Lemma lacks_url_invalid product_data :
  lacks_url product_data = true → valid_record product_data = false.
Proof.
  unfold lacks_url, valid_record.
  by destruct (truthy (get product_data "url" (JStr ""))).
Qed.

(** *** The bulk loop *)

(** One turn of the loop on the database. *)
Definition turn (product_data : dict) (db : database) : database :=
  if truthy (get product_data "url" (JStr ""))
  then snd (upsert_record product_data (get product_data "url" (JStr "")) db)
  else db.

Lemma bulk_loop_cons product_data rest sc fc db :
  bulk_loop (product_data :: rest) sc fc db
  = if valid_record product_data
    then bulk_loop rest (S sc) fc (turn product_data db)
    else bulk_loop rest sc (S fc) (turn product_data db).
Proof.
  simpl. unfold turn.
  destruct (truthy (get product_data "url" (JStr ""))) eqn:Hurl; simpl.
  - rewrite <- (upsert_record_valid product_data db Hurl).
    by destruct (upsert_record _ _ db) as [[[]|ex] db'].
  - rewrite lacks_url_invalid; [done|]. unfold lacks_url. by rewrite Hurl.
Qed.

Lemma bulk_loop_counts batch sc fc db :
  fst (bulk_loop batch sc fc db)
  = (sc + length (List.filter valid_record batch),
     fc + length (List.filter (fun p => negb (valid_record p)) batch)).
Proof.
  revert sc fc db. induction batch as [|p rest IH]; intros sc fc db.
  - simpl. by rewrite !Nat.add_0_r.
  - rewrite bulk_loop_cons. simpl List.filter.
    destruct (valid_record p); rewrite IH; simpl; f_equal; lia.
Qed.

Lemma bulk_loop_db batch sc fc db :
  snd (bulk_loop batch sc fc db) = foldl (fun d p => turn p d) db batch.
Proof.
  revert sc fc db. induction batch as [|p rest IH]; intros sc fc db; [done|].
  rewrite bulk_loop_cons. simpl foldl. by destruct (valid_record p).
Qed.

Lemma bulk_db_app before after db :
  snd (bulk_upsert_products (before ++ after) db)
  = snd (bulk_upsert_products after (snd (bulk_upsert_products before db))).
Proof.
  unfold bulk_upsert_products. rewrite !bulk_loop_db. apply foldl_app.
Qed.

Lemma bulk_db_cons p after db :
  snd (bulk_upsert_products (p :: after) db)
  = snd (bulk_upsert_products after (turn p db)).
Proof. unfold bulk_upsert_products. by rewrite !bulk_loop_db. Qed.

(** A turn on a valid record stores it; any other turn leaves both
    tables alone. *)
Lemma turn_valid product_data db :
  valid_record product_data = true →
  stored product_data (get product_data "url" (JStr "")) db (turn product_data db).
Proof.
  intros Hvalid. unfold turn.
  assert (Hurl : truthy (get product_data "url" (JStr "")) = true).
  { unfold valid_record in Hvalid.
    by destruct (truthy (get product_data "url" (JStr ""))). }
  rewrite Hurl. pose proof (upsert_record_valid product_data db Hurl) as Hok.
  pose proof (upsert_record_inv product_data (get product_data "url" (JStr "")) db)
    as Hinv.
  rewrite Hvalid in Hok.
  by destruct (upsert_record _ _ db) as [[[]|ex] db'].
Qed.

Lemma turn_invalid product_data db :
  valid_record product_data = false →
  products (turn product_data db) = products db
  ∧ product_search (turn product_data db) = product_search db.
Proof.
  intros Hvalid. unfold turn.
  destruct (truthy (get product_data "url" (JStr ""))) eqn:Hurl; [|done].
  pose proof (upsert_record_valid product_data db Hurl) as Hok.
  pose proof (upsert_record_inv product_data (get product_data "url" (JStr "")) db)
    as Hinv.
  rewrite Hvalid in Hok.
  by destruct (upsert_record _ _ db) as [[[]|ex] db'].
Qed.

Lemma stored_identity product_data url db db' :
  stored product_data url db db' →
  ∃ pid v row e clk,
    fst (derive_id product_data url db) = Ok pid ∧ adapt pid = Ok v
    ∧ as_text v = Some (col_id row) ∧ row_id_of pid = Some (col_id row)
    ∧ fts_id e = v ∧ col_data row = product_data
    ∧ as_text (fts_title e) = Some (col_title row)
    ∧ as_text (fts_description e) = col_description row
    ∧ as_text (fts_brand e) = col_brand row
    ∧ as_text (fts_category e) = col_category row
    ∧ db' = written v row e db clk.
Proof.
  intros []. destruct (bind_row_inv _ _ _ _ _ _ _ _ _ _ _ _ Hrow).
  rewrite Hv in adapt_id. injection adapt_id as <-.
  exists pid, v, row, e, (S (clock dbi)). rewrite Hid.
  revert He. unfold bind_search, bind_outcome.
  rewrite Hv, adapt_title, adapt_description, adapt_brand, adapt_category.
  intros [= <-]. simpl. unfold row_id_of. rewrite Hv.
  rewrite row_description, row_brand, row_category. done.
Qed.

(** Rows are never deleted by a turn, and a turn that writes under
    another id leaves the row alone. *)
Lemma turn_keeps_row i product_data db :
  is_Some (get_product_by_id i db) →
  is_Some (get_product_by_id i (turn product_data db)).
Proof.
  intros Hsome. destruct (valid_record product_data) eqn:Hvalid.
  - destruct (stored_identity _ _ _ _ (turn_valid _ db Hvalid))
      as (pid & v & row & e & clk & _ & _ & Hi & _ & _ & _ & _ & _ & _ & _ & ->).
    destruct (decide (col_id row = i)) as [<-|Hne].
    + by rewrite written_get.
    + rewrite get_product_by_id_rows, written_other_rows; [|done].
      by rewrite <- get_product_by_id_rows.
  - destruct (turn_invalid _ db Hvalid) as [Hp _].
    unfold get_product_by_id in *. by rewrite Hp.
Qed.

Lemma turn_other_row i product_data db :
  (∀ pid, fst (derive_id product_data (get product_data "url" (JStr "")) db) = Ok pid →
          row_id_of pid ≠ Some i) →
  get_product_by_id i (turn product_data db) = get_product_by_id i db.
Proof.
  intros Hother. destruct (valid_record product_data) eqn:Hvalid.
  - destruct (stored_identity _ _ _ _ (turn_valid _ db Hvalid))
      as (pid & v & row & e & clk & Hid & _ & _ & Hrid & _ & _ & _ & _ & _ & _ & ->).
    rewrite !get_product_by_id_rows, written_other_rows; [done|].
    intros <-. by apply (Hother pid).
  - destruct (turn_invalid _ db Hvalid) as [Hp _].
    unfold get_product_by_id. by rewrite Hp.
Qed.

Lemma turn_primary_key product_data db :
  primary_key db → primary_key (turn product_data db).
Proof.
  intros Hpk. destruct (valid_record product_data) eqn:Hvalid.
  - destruct (stored_identity _ _ _ _ (turn_valid _ db Hvalid))
      as (pid & v & row & e & clk & _ & _ & Hi & _ & _ & _ & _ & _ & _ & _ & ->).
    by apply written_primary_key.
  - destruct (turn_invalid _ db Hvalid) as [Hp _].
    unfold primary_key. by rewrite Hp.
Qed.

Lemma bulk_keeps_row i batch db :
  is_Some (get_product_by_id i db) →
  is_Some (get_product_by_id i (snd (bulk_upsert_products batch db))).
Proof.
  revert db. induction batch as [|p rest IH]; intros db Hsome; [done|].
  rewrite bulk_db_cons. apply IH. by apply turn_keeps_row.
Qed.

Lemma bulk_other_rows i batch db :
  (∀ q dbq pid, In q batch →
     fst (derive_id q (get q "url" (JStr "")) dbq) = Ok pid →
     row_id_of pid ≠ Some i) →
  get_product_by_id i (snd (bulk_upsert_products batch db))
  = get_product_by_id i db.
Proof.
  revert db. induction batch as [|p rest IH]; intros db Hother; [done|].
  rewrite bulk_db_cons, IH.
  - apply turn_other_row. intros pid. apply Hother. by left.
  - intros q dbq pid Hq. apply Hother. by right.
Qed.

(** An id reads back after a batch what it read before, when no valid
    record of the batch derives it at its turn. *)
Lemma bulk_other_turns i batch db :
  (∀ earlier q later pid,
     batch = earlier ++ q :: later → valid_record q = true →
     fst (derive_id q (get q "url" (JStr ""))
            (snd (bulk_upsert_products earlier db))) = Ok pid →
     row_id_of pid ≠ Some i) →
  get_product_by_id i (snd (bulk_upsert_products batch db))
  = get_product_by_id i db.
Proof.
  revert db. induction batch as [|p rest IH]; intros db Hother; [done|].
  rewrite bulk_db_cons, IH.
  - destruct (valid_record p) eqn:Hvalid.
    + apply turn_other_row. intros pid. by apply (Hother [] p rest).
    + destruct (turn_invalid _ db Hvalid) as [Hp _].
      unfold get_product_by_id. by rewrite Hp.
  - intros earlier q later pid -> Hvalid. rewrite <- bulk_db_cons.
    by apply (Hother (p :: earlier) q later pid).
Qed.

Lemma get_product_by_id_in i db product_data :
  get_product_by_id i db = Some product_data →
  In product_data (map col_data (products db)).
Proof.
  unfold get_product_by_id.
  destruct (List.find _ (products db)) as [r|] eqn:Hfind; [|done].
  intros [= <-]. apply List.find_some in Hfind as [Hin _]. by apply List.in_map.
Qed.

Lemma bulk_primary_key batch db :
  primary_key db → primary_key (snd (bulk_upsert_products batch db)).
Proof.
  revert db. induction batch as [|p rest IH]; intros db Hpk; [done|].
  rewrite bulk_db_cons. apply IH. by apply turn_primary_key.
Qed.

(** What an id reads back after a turn: what it read before, or the
    record of the turn. *)
Lemma turn_get_cases i product_data db :
  get_product_by_id i (turn product_data db) = get_product_by_id i db
  ∨ (valid_record product_data = true
     ∧ get_product_by_id i (turn product_data db) = Some product_data).
Proof.
  destruct (valid_record product_data) eqn:Hvalid.
  - destruct (stored_identity _ _ _ _ (turn_valid _ db Hvalid))
      as (pid & v & row & e & clk & _ & _ & Hi & _ & _ & Hdata & _ & _ & _ & _ & Hw).
    destruct (decide (col_id row = i)) as [<-|Hne].
    + right. split; [done|]. rewrite Hw, written_get; [|done]. by rewrite Hdata.
    + left. rewrite Hw, !get_product_by_id_rows, written_other_rows; done.
  - left. destruct (turn_invalid _ db Hvalid) as [Hp _].
    unfold get_product_by_id. by rewrite Hp.
Qed.

Lemma bulk_get_cases i batch db :
  get_product_by_id i (snd (bulk_upsert_products batch db)) = get_product_by_id i db
  ∨ ∃ q, In q batch ∧ valid_record q = true
         ∧ get_product_by_id i (snd (bulk_upsert_products batch db)) = Some q.
Proof.
  revert db. induction batch as [|p rest IH]; intros db; [by left|].
  rewrite bulk_db_cons.
  destruct (IH (turn p db)) as [Hsame|(q & Hq & Hvalid & Hget)].
  - rewrite Hsame. destruct (turn_get_cases i p db) as [Hkeep|[Hvalid Hget]].
    + by left.
    + right. exists p. split; [by left|]. done.
  - right. exists q. split; [by right|]. done.
Qed.

Lemma filter_complement_length {A} (f : A → bool) (l : list A) :
  length (List.filter (fun x => negb (f x)) l) = length l - length (List.filter f l).
Proof.
  induction l as [|x l IH]; [done|]. simpl.
  pose proof (List.filter_length_le f l).
  destruct (f x); simpl; lia.
Qed.

(** *** The claim on batches *)

(** What the claim on batches says of the valid records of a batch,
    whose other records lack a url: each of them is retrievable by an id
    afterwards. *)
Definition valid_records_retrievable (batch : list dict) (db : database) : Prop :=
  (∀ p, In p batch → lacks_url p = false → valid_record p = true) →
  ∀ p, In p batch → valid_record p = true →
       ∃ i, get_product_by_id i (snd (bulk_upsert_products batch db)) = Some p.

(** C2, amended: in a batch of N records of which K lack a url and the
    others are valid, bulk_upsert_products returns (N - K, K); a failing
    record does not stop the loop: every valid record, wherever it stands
    among the failing ones, is stored under its id at its turn; afterwards
    that id retrieves the record itself unless a later valid record of
    the batch has the same id, and then it retrieves a later valid record
    of the batch. *)
Theorem bulk_upsert_partial_failure batch db :
  (∀ p, In p batch → lacks_url p = false → valid_record p = true) →
  let K := length (List.filter lacks_url batch) in
  let result := bulk_upsert_products batch db in
  fst result = (length batch - K, K)
  ∧ ∀ before p after,
      batch = before ++ p :: after → valid_record p = true →
      ∃ pid i,
        fst (derive_id p (get p "url" (JStr ""))
               (snd (bulk_upsert_products before db))) = Ok pid
        ∧ row_id_of pid = Some i
        ∧ get_product_by_id i
            (snd (bulk_upsert_products (before ++ [p]) db)) = Some p
        ∧ (∃ q, In q (p :: after) ∧ valid_record q = true
                ∧ get_product_by_id i (snd result) = Some q)
        ∧ ((∀ between q later pidq,
              after = between ++ q :: later → valid_record q = true →
              fst (derive_id q (get q "url" (JStr ""))
                     (snd (bulk_upsert_products (before ++ p :: between) db)))
              = Ok pidq →
              row_id_of pidq ≠ Some i) →
           get_product_by_id i (snd result) = Some p).
Proof.
  intros Hbatch K result. split.
  - subst result K. unfold bulk_upsert_products. rewrite bulk_loop_counts. simpl.
    assert (Hsame : List.filter (fun p => negb (valid_record p)) batch
                    = List.filter lacks_url batch).
    { apply List.filter_ext_in. intros p Hp.
      destruct (lacks_url p) eqn:Hl.
      - by rewrite lacks_url_invalid.
      - by rewrite Hbatch. }
    rewrite Hsame. f_equal.
    rewrite <- Hsame, filter_complement_length.
    pose proof (List.filter_length_le valid_record batch). lia.
  - intros before p after -> Hvalid. subst result.
    rewrite !bulk_db_app, !bulk_db_cons.
    set (db1 := snd (bulk_upsert_products before db)).
    destruct (stored_identity _ _ _ _ (turn_valid p db1 Hvalid))
      as (pid & v & row & e & clk & Hid & _ & Hi & Hrid & _ & Hdata & _ & _ & _ & _ & Hw).
    exists pid, (col_id row). split; [done|]. split; [done|].
    assert (Hget : get_product_by_id (col_id row) (turn p db1) = Some p).
    { rewrite Hw, written_get; [|done]. by rewrite Hdata. }
    split; [done|]. split.
    + destruct (bulk_get_cases (col_id row) after (turn p db1))
        as [Hsame|(q & Hq & Hqvalid & Hqget)].
      * exists p. split; [by left|]. split; [done|]. by rewrite Hsame.
      * exists q. split; [by right|]. done.
    + intros Hother. rewrite bulk_other_turns; [done|].
      intros between q later pidq -> Hqvalid Hqid.
      apply (Hother between q later pidq); [done|done|].
      by rewrite bulk_db_app, bulk_db_cons.
Qed.

(** *** The claims on single records *)

(** C10: when the url of a record is missing or tests false (the empty
    string), upsert_product returns False and the database is what it
    was: no row of products and no row of the search index is written,
    and not even the clock is read. *)
Theorem upsert_product_refuses_missing_url product_data db :
  lookup_key product_data "url" = None
  ∨ (∃ url, lookup_key product_data "url" = Some url ∧ truthy url = false) →
  upsert_product product_data db = (false, db).
Proof.
  intros Hurl. unfold upsert_product, get.
  destruct Hurl as [->|(url & -> & ->)]; done.
Qed.

(** C3: for a record with a non-empty url, the identity is the id field
    when it tests true; else the part of the url after its last slash
    when that part is not empty; else a string made from the clock.  A
    successful upsert, single or bulk, stores the record under it. *)
Theorem derived_identity product_data u db :
  get product_data "url" (JStr "") = JStr u → u ≠ "" →
  ∃ segment,
    after_last "/" u segment
    ∧ fst (derive_id product_data (JStr u) db)
      = Ok (if truthy (get product_data "id" (JStr ""))
            then get product_data "id" (JStr "")
            else if negb (String.eqb segment "") then JStr segment
            else JStr (str_int (time_ms (clock db))))
    ∧ ∀ db',
        upsert_product product_data db = (true, db')
        ∨ bulk_upsert_products [product_data] db = ((1, 0), db') →
        ∃ pid i, fst (derive_id product_data (JStr u) db) = Ok pid
                 ∧ row_id_of pid = Some i
                 ∧ get_product_by_id i db' = Some product_data.
Proof.
  intros Hurl Hne. exists (last_part (split "/" u)).
  split; [apply after_last_split|]. split.
  - unfold derive_id.
    destruct (truthy (get product_data "id" (JStr ""))); [done|].
    by destruct (negb _).
  - intros db' [Hup|Hbulk].
    + apply upsert_product_true in Hup as [_ Hst]. rewrite Hurl in Hst.
      by apply stored_get.
    + apply bulk_loop_single in Hbulk as [_ Hst]; [|done]. rewrite Hurl in Hst.
      by apply stored_get.
Qed.

(** C9: a record inserted with a nested price (a value under current,
    a string under currency) and read back by its id shows the same
    current price and the same currency; the price column holds the
    current price as SQLite stores it. *)
Theorem price_round_trip product_data price_data current currency db db' :
  lookup_key product_data "price" = Some (JObj price_data) →
  lookup_key price_data "current" = Some current →
  lookup_key price_data "currency" = Some (JStr currency) →
  upsert_product product_data db = (true, db') →
  ∃ pid i read_back row number,
    fst (derive_id product_data (get product_data "url" (JStr "")) db) = Ok pid
    ∧ row_id_of pid = Some i
    ∧ get_product_by_id i db' = Some read_back
    ∧ price_field read_back "current" = Some current
    ∧ price_field read_back "currency" = Some (JStr currency)
    ∧ List.find (has_id i) (products db') = Some row
    ∧ adapt current = Ok number
    ∧ col_price row = as_real number.
Proof.
  intros Hprice Hcur Hccy Hup.
  apply upsert_product_true in Hup as [_ []].
  destruct (bind_row_inv _ _ _ _ _ _ _ _ _ _ _ _ Hrow).
  rewrite Hv in adapt_id. injection adapt_id as <-.
  destruct (written_find v row e db (S (clock dbi)) text_id) as (r & Hr & Hd & Hp).
  assert (Hx : extract_price product_data = current).
  { unfold extract_price, get. by rewrite Hprice, Hcur. }
  rewrite Hx in adapt_price.
  exists pid, (col_id row), product_data, r, vp. rewrite Hid. subst db'.
  repeat split; try done.
  - unfold row_id_of. by rewrite Hv.
  - rewrite written_get; [|done]. by rewrite row_data.
  - unfold price_field. by rewrite Hprice.
  - unfold price_field. by rewrite Hprice.
  - by rewrite Hp.
Qed.

(** *** find_products *)








Lemma in_insert_desc x r sorted :
  In x (insert_desc r sorted) ↔ x = r ∨ In x sorted.
Proof.
  induction sorted as [|r' rest IH]; simpl.
  - split; intros [<-|[]]; by left.
  - destruct (col_updated_at r' <=? col_updated_at r)%Z; simpl.
    + split; intros [<-|[<-|?]]; auto.
    + rewrite IH. split; intros [<-|[<-|?]]; auto.
Qed.

Lemma insertion_sort_permutation rows :
  Permutation (fold_right insert_desc [] rows) rows.
Proof.
  assert (Hinsert : ∀ r sorted, Permutation (insert_desc r sorted) (r :: sorted)).
  { intros r sorted. induction sorted as [|r' rest IH]; simpl; [done|].
    destruct (col_updated_at r' <=? col_updated_at r)%Z; [done|].
    rewrite IH. apply perm_swap. }
  induction rows as [|r rows IH]; simpl; [done|].
  by rewrite Hinsert, IH.
Qed.

Lemma order_by_permutation limit offset rows :
  Permutation (order_by_updated_desc limit offset rows) rows.
Proof.
  unfold order_by_updated_desc.
  by rewrite insertion_sort_permutation, tie_order_permutation.
Qed.

Lemma in_order_by limit offset x rows :
  In x (order_by_updated_desc limit offset rows) ↔ In x rows.
Proof.
  split; apply Permutation_in; [|symmetry]; apply order_by_permutation.
Qed.

Lemma length_order_by limit offset rows :
  length (order_by_updated_desc limit offset rows) = length rows.
Proof. apply Permutation_length, order_by_permutation. Qed.

Lemma in_limit_offset {A} limit offset (x : A) rows :
  In x (limit_offset limit offset rows) → In x rows.
Proof.
  unfold limit_offset. intros Hin.
  assert (Hdrop : ∀ n (l : list A), In x (drop n l) → In x l).
  { intros n l. rewrite <- !list_elem_of_In. apply subseteq_drop. }
  destruct (limit <? 0)%Z; [by eapply Hdrop|].
  eapply Hdrop. rewrite <- list_elem_of_In in *. by eapply subseteq_take.
Qed.

Lemma insert_desc_sorted r sorted :
  newest_first sorted → newest_first (insert_desc r sorted).
Proof.
  unfold newest_first. induction 1 as [|r' rest Hrest IH Hall]; simpl.
  - repeat constructor.
  - destruct (Z.leb_spec (col_updated_at r') (col_updated_at r)) as [Hle|Hgt].
    + constructor; [by constructor|]. constructor; [lia|].
      eapply Forall_impl; [exact Hall|]. simpl. intros x Hx. lia.
    + constructor; [done|]. apply List.Forall_forall. intros x Hx.
      apply in_insert_desc in Hx as [->|Hx]; [lia|].
      by apply (proj1 (List.Forall_forall _ _) Hall).
Qed.

Lemma order_by_sorted limit offset rows :
  newest_first (order_by_updated_desc limit offset rows).
Proof.
  unfold order_by_updated_desc.
  induction (tie_order limit offset rows) as [|r rest IH]; simpl; [constructor|].
  by apply insert_desc_sorted.
Qed.

Lemma limit_offset_sorted limit offset rows :
  newest_first rows → newest_first (limit_offset limit offset rows).
Proof.
  unfold newest_first, limit_offset. intros Hsorted.
  assert (StronglySorted (fun a b => (col_updated_at b <= col_updated_at a)%Z)
            (drop (Z.to_nat offset) rows)) as Hdrop.
  { rewrite <- (take_drop (Z.to_nat offset) rows) in Hsorted.
    by apply StronglySorted_app_1_r in Hsorted. }
  destruct (limit <? 0)%Z; [done|].
  rewrite <- (take_drop (Z.to_nat limit) (drop (Z.to_nat offset) rows)) in Hdrop.
  by apply StronglySorted_app_1_l in Hdrop.
Qed.

Lemma limit_offset_length {A} limit offset (rows : list A) :
  (length (limit_offset limit offset rows) ≤ length rows)%nat
  ∧ ((0 <= limit)%Z →
     (length (limit_offset limit offset rows) ≤ Z.to_nat limit)%nat).
Proof.
  unfold limit_offset. destruct (Z.ltb_spec limit 0).
  - rewrite length_drop. split; lia.
  - rewrite length_take, length_drop. split; lia.
Qed.


Lemma limit_offset_nil {A} limit offset : @limit_offset A limit offset [] = [].
Proof.
  unfold limit_offset. rewrite drop_nil. destruct (limit <? 0)%Z; [done|].
  apply take_nil.
Qed.





End Props.

(** *** Examples *)

Import Demo.

Example split_url :
  Py.split "/" "https://www.example.com/product/123"
  = ["https:"; ""; "www.example.com"; "product"; "123"].
Proof. reflexivity. Qed.

Example split_trailing : Py.split "/" "a/" = ["a"; ""].
Proof. reflexivity. Qed.

Example str_int_ex : Py.str_int 1700000000123 = "1700000000123".
Proof. reflexivity. Qed.







(** **** The theorems at the test product of database.py *)

Lemma upsert_product_refuses_missing_url_witness :
  lookup_key no_url_product "url" = None
  ∧ @upsert_product demo_engine no_url_product empty_db = (false, empty_db).
Proof.
  split; [reflexivity|].
  apply (@upsert_product_refuses_missing_url demo_engine no_url_product empty_db).
  left. reflexivity.
Defined.

Lemma derived_identity_witness :
  get test_product "url" (JStr "") = JStr test_url
  ∧ test_url ≠ ""
  ∧ ∃ segment,
      after_last "/" test_url segment
      ∧ fst (@derive_id demo_engine test_product (JStr test_url) empty_db)
        = Ok (if truthy (get test_product "id" (JStr ""))
              then get test_product "id" (JStr "")
              else if negb (String.eqb segment "") then JStr segment
              else JStr (str_int (@time_ms demo_engine (clock empty_db)))).
Proof.
  split; [reflexivity|]. split; [discriminate|].
  destruct (@derived_identity demo_engine test_product test_url empty_db)
    as (segment & Hafter & Hid & _); [reflexivity|discriminate|].
  exists segment. split; assumption.
Defined.

Lemma price_round_trip_witness :
  @upsert_product demo_engine test_product empty_db
  = (true, snd (@upsert_product demo_engine test_product empty_db))
  ∧ ∃ read_back,
      get_product_by_id "123" (snd (@upsert_product demo_engine test_product empty_db))
      = Some read_back
      ∧ price_field read_back "current" = Some (JFloat (9999 # 100))
      ∧ price_field read_back "currency" = Some (JStr "ZAR").
Proof.
  split; [reflexivity|].
  destruct (@price_round_trip demo_engine test_product
              [("current", JFloat (9999 # 100)); ("currency", JStr "ZAR")]
              (JFloat (9999 # 100)) "ZAR" empty_db
              (snd (@upsert_product demo_engine test_product empty_db)))
    as (pid & i & read_back & row & number & Hid & Hi & Hget & Hcur & Hccy & _);
    [reflexivity|reflexivity|reflexivity|reflexivity|].
  vm_compute in Hid. injection Hid as <-.
  vm_compute in Hi. injection Hi as <-.
  exists read_back. split; [exact Hget|]. split; assumption.
Defined.

(** **** Two spellings of one id *)

(** C1 fails on the code.  A product with the id "5" is stored, and then
    twice the same product with its id given as the number 5.  All three
    calls return True.  The TEXT column of products takes the number as
    the text 5, so there is one row, and it carries the last record; the
    column of product_search is untyped, so the DELETE of the number 5
    passes over the entry written for the text 5: the index is left with
    two entries for the row, and the stale one makes a search for the old
    title return the new record. *)
Theorem upsert_leaves_stale_index_entry :
  let db1 := snd (@upsert_product demo_engine text_id_product empty_db) in
  let db2 := snd (@upsert_product demo_engine int_id_product db1) in
  let db3 := snd (@upsert_product demo_engine int_id_product db2) in
  fst (@upsert_product demo_engine text_id_product empty_db) = true
  ∧ fst (@upsert_product demo_engine int_id_product db1) = true
  ∧ fst (@upsert_product demo_engine int_id_product db2) = true
  ∧ map col_id (products db3) = ["5"]
  ∧ get_product_by_id "5" db3 = Some int_id_product
  ∧ map (fun e => (fts_id e, fts_title e)) (product_search db3)
    = [(SText "5", SText "old"); (SInt 5, SText "new")]
  ∧ @find_products demo_engine (Some "old") None None None None None 100 0 db3
    = ([int_id_product], 1).
Proof. repeat split; vm_compute; reflexivity. Qed.

(** Two valid records of the same url in one batch: both are counted,
    and the id reads back the second. *)
Example bulk_upsert_same_id :
  let result := @bulk_upsert_products demo_engine
                  [test_product; test_product_again] empty_db in
  fst result = (2, 0)
  ∧ get_product_by_id "123" (snd result) = Some test_product_again.
Proof. split; reflexivity. Qed.

(** A price that does not fit 64 bits cannot be bound: the record is
    not valid, and is counted as failed. *)
Example huge_price_refused :
  valid_record huge_price_product = false
  ∧ fst (@bulk_upsert_products demo_engine [huge_price_product] empty_db) = (0, 1).
Proof. split; reflexivity. Qed.

(** C2 as stated fails: of two valid records of the same url in one
    batch, the first is retrievable by no id afterwards. *)
Lemma bulk_upsert_same_id_counterexample :
  ¬ @valid_records_retrievable demo_engine [test_product; test_product_again]
      empty_db.
Proof.
  intros Hall.
  destruct (Hall ltac:(by intros p [<-|[<-|[]]] _) test_product
              ltac:(by left) eq_refl) as [i Hi].
  apply get_product_by_id_in in Hi.
  vm_compute in Hi. destruct Hi as [Hi|[]]. discriminate Hi.
Qed.

Lemma bulk_upsert_partial_failure_witness :
  (∀ p, In p mixed_batch → lacks_url p = false → valid_record p = true)
  ∧ fst (@bulk_upsert_products demo_engine mixed_batch empty_db) = (2, 1)
  ∧ get_product_by_id "123"
      (snd (@bulk_upsert_products demo_engine mixed_batch empty_db))
    = Some test_product.
Proof.
  assert (Hbatch : ∀ p, In p mixed_batch → lacks_url p = false →
                        valid_record p = true).
  { intros p [<-|[<-|[<-|[]]]] Hurl; try reflexivity. discriminate Hurl. }
  destruct (@bulk_upsert_partial_failure demo_engine mixed_batch empty_db Hbatch)
    as [Hcount Hkept].
  split; [exact Hbatch|]. split; [exact Hcount|].
  destruct (Hkept [] test_product [no_url_product; coffee 1])
    as (pid & i & Hid & Hi & _ & _ & Hsame); [reflexivity|reflexivity|].
  vm_compute in Hid. injection Hid as <-.
  vm_compute in Hi. injection Hi as <-.
  apply Hsame. intros between q later pidq Hafter Hvalid Hq.
  destruct between as [|q0 between]; injection Hafter as <- Hafter;
    [discriminate Hvalid|].
  destruct between as [|q1 between]; injection Hafter as <- Hafter.
  - vm_compute in Hq. injection Hq as <-. vm_compute. discriminate.
  - by destruct between.
Defined.


End StoreProps.

(** ** Properties of the crawl attempt engine *)

Module CrawlerProps.
Import Py Crawler.
Local Open Scope nat_scope.

Section Props.
Context `{FetchEngine}.

(** crawl_products, as base_crawler.py writes it. *)
Lemma crawl_products_unfold urls c :
  crawl_products urls c
  = match urls with
    | [] => ([], c)
    | _ :: _ =>
        match fetch urls c with
        | (Raise _, c1) => ([], save_last_run c1)
        | (Ok crawl_results, c1) =>
            let '(results, retry_urls, c2) :=
              process_results crawl_results [] []
                (with_stats c1 (set_urls_processed (stats c1)
                                  (length crawl_results))) in
            match retry_urls with
            | [] => (results, save_last_run c2)
            | _ :: _ =>
                if (retry_count (stats c2) <? 3)%nat
                then
                  let retried := crawl_products retry_urls (start_retry c2) in
                  (results ++ fst retried,
                   save_last_run (with_delay (snd retried) (base_delay c2)))
                else (results, save_last_run c2)
            end
        end
    end.
Proof.
  funelim (crawl_products urls c); [done|..]; unfold fetch;
    match goal with E : arun_many _ _ _ _ = _ |- _ => rewrite E end; [done|..];
    match goal with E : process_results _ _ _ _ = _ |- _ => rewrite E end;
    [done|..]; destruct (Nat.ltb_spec (retry_count (stats c2)) 3); done || lia.
Qed.

(** What the loop over the results leaves alone. *)
Lemma process_results_frame crawl_results results retry_urls c :
  let c' := snd (process_results crawl_results results retry_urls c) in
  base_delay c' = base_delay c ∧ last_run_json c' = last_run_json c
  ∧ calls c' = calls c ∧ urls_processed (stats c') = urls_processed (stats c)
  ∧ ∃ events, trace c' = trace c ++ events.
Proof.
  revert results retry_urls c.
  induction crawl_results as [|r rest IH]; intros results retry_urls c; simpl.
  - repeat split; try done. exists []. by rewrite app_nil_r.
  - destruct (success r).
    + destruct (process_result r) as [[[|kv d]|]|];
        match goal with |- context [process_results rest ?a ?b ?c'] =>
          destruct (IH a b c') as (-> & -> & -> & -> & events & ->) end;
        simpl; repeat split; try done; try by exists events.
      exists (SaveProductData (kv :: d) :: events). by rewrite <- app_assoc.
    + match goal with |- context [process_results rest ?a ?b ?c'] =>
        destruct (IH a b c') as (-> & -> & -> & -> & events & ->) end.
      destruct (is_rate_limited (status_code r)); simpl; repeat split; try done;
        by exists events.
Qed.

(** Induction on the retry rounds left. *)
Lemma retry_rounds_ind (P : BaseCrawler → Prop) :
  (∀ c, (∀ c', retry_count (stats c) < 3 →
               retry_count (stats c') = S (retry_count (stats c)) → P c') → P c) →
  ∀ c, P c.
Proof.
  intros Hstep c.
  remember (3 - retry_count (stats c)) as n eqn:Hn.
  revert c Hn. induction n as [n IH] using lt_wf_ind. intros c Hn.
  apply Hstep. intros c' Hlt Hc'. apply (IH (3 - retry_count (stats c'))); lia.
Qed.

Lemma start_retry_spec c :
  retry_count (stats (start_retry c)) = S (retry_count (stats c))
  ∧ base_delay (start_retry c)
    = (fst (base_delay c) * inject_Z (Z.of_nat (S (retry_count (stats c)) + 1)),
       snd (base_delay c) * inject_Z (Z.of_nat (S (retry_count (stats c)) + 1)))%Q
  ∧ trace (start_retry c) = trace c ++ [Sleep (5 * S (retry_count (stats c)))]
  ∧ last_run_json (start_retry c) = last_run_json c
  ∧ calls (start_retry c) = calls c.
Proof. done. Qed.

(** Whatever a call of crawl_products meets, it leaves the delay window
    as it found it, never lowers the retry counter, and only adds to the
    trace: first, when there are urls, the fetch of exactly these urls
    under the window in force. *)
Lemma crawl_products_frame urls c :
  let c' := snd (crawl_products urls c) in
  base_delay c' = base_delay c
  ∧ retry_count (stats c) ≤ retry_count (stats c')
  ∧ ∃ events,
      trace c' = trace c ++ events
      ∧ (urls ≠ [] →
         ∃ later, events = ArunMany urls (last_run_json c) (base_delay c) :: later).
Proof.
  revert urls. induction c as [c IH] using retry_rounds_ind. intros urls.
  rewrite crawl_products_unfold. destruct urls as [|u us].
  { simpl. repeat split; try done. exists []. by rewrite app_nil_r. }
  unfold fetch.
  destruct (arun_many (calls c) (u :: us) (last_run_json c) (base_delay c))
    as [crawl_results|ex].
  2:{ simpl. repeat split; try done. eexists. rewrite <- app_assoc.
      split; [done|]. intros _. by eexists. }
  match goal with |- context [process_results crawl_results [] [] ?c1] =>
    pose proof (process_results_frame crawl_results [] [] c1) as Hframe;
    pose proof (process_results_retry_count crawl_results [] [] c1) as Hcount;
    destruct (process_results crawl_results [] [] c1) as [[results retry_urls] c2]
  end.
  simpl in Hframe, Hcount. destruct Hframe as (Hd & Hl & Hc & _ & events & Ht).
  destruct retry_urls as [|r rs].
  { simpl. rewrite Hd, Hcount, Ht. repeat split; try done.
    eexists. rewrite <- !app_assoc. split; [done|]. intros _. by eexists. }
  destruct (Nat.ltb_spec (retry_count (stats c2)) 3) as [Hlt|Hge].
  2:{ simpl. rewrite Hd, Hcount, Ht. repeat split; try done.
      eexists. rewrite <- !app_assoc. split; [done|]. intros _. by eexists. }
  destruct (IH (start_retry c2)) with (urls := r :: rs)
    as (Hd' & Hc' & events' & Ht' & _).
  { lia. } { simpl. lia. }
  simpl. simpl in Hc'. rewrite Ht', Hd. repeat split; try done; [lia|].
  simpl. rewrite Ht. eexists. rewrite <- !app_assoc. split; [done|].
  intros _. by eexists.
Qed.

(** C5: when a round leaves urls to retry and the retry counter of the
    run is below 3, the engine raises the counter to the number of the
    round, sleeps 5 times that number of seconds, fetches exactly the
    urls to retry under the delay window multiplied by that number plus
    one, adds what the retry round extracted after what this round
    extracted, and leaves the delay window as it was before the round,
    whatever the retry round met; the counter is the one of the whole
    run and does not go down. *)
Theorem retry_round urls c crawl_results results retry_urls c2 :
  urls ≠ [] →
  arun_many (calls c) urls (last_run_json c) (base_delay c) = Ok crawl_results →
  process_results crawl_results [] []
    (with_stats (snd (fetch urls c))
       (set_urls_processed (stats c) (length crawl_results)))
  = (results, retry_urls, c2) →
  retry_urls ≠ [] →
  retry_count (stats c) < 3 →
  let round := S (retry_count (stats c)) in
  let widened := (fst (base_delay c) * inject_Z (Z.of_nat (round + 1)),
                  snd (base_delay c) * inject_Z (Z.of_nat (round + 1)))%Q in
  let retried := crawl_products retry_urls (start_retry c2) in
  let final := crawl_products urls c in
  retry_count (stats (start_retry c2)) = round
  ∧ (∃ later,
       trace (snd final)
       = trace c2 ++ Sleep (5 * round)
                     :: ArunMany retry_urls (last_run_json c) widened :: later)
  ∧ fst final = results ++ fst retried
  ∧ base_delay (snd final) = base_delay c
  ∧ round ≤ retry_count (stats (snd final)).
Proof.
  intros Hurls Hfetch Hprocess Hretry Hlt round widened retried final.
  pose proof (process_results_frame crawl_results [] []
                (with_stats (snd (fetch urls c))
                   (set_urls_processed (stats c) (length crawl_results))))
    as Hframe.
  pose proof (process_results_retry_count crawl_results [] []
                (with_stats (snd (fetch urls c))
                   (set_urls_processed (stats c) (length crawl_results))))
    as Hcount.
  rewrite Hprocess in Hframe, Hcount. simpl in Hframe, Hcount.
  destruct Hframe as (Hd & Hl & _ & _ & _).
  assert (Hfinal : final = (results ++ fst retried,
                            save_last_run (with_delay (snd retried) (base_delay c2)))).
  { subst final. rewrite crawl_products_unfold.
    destruct urls as [|u us]; [done|]. unfold fetch in *. rewrite Hfetch.
    simpl in Hprocess. simpl. rewrite Hprocess.
    destruct retry_urls as [|r rs]; [done|].
    destruct (Nat.ltb_spec (retry_count (stats c2)) 3); [done|lia]. }
  destruct (crawl_products_frame retry_urls (start_retry c2))
    as (_ & Hmono & events & Ht & Hhead).
  destruct (Hhead Hretry) as [later ->].
  fold retried in Hmono, Ht. rewrite Hfinal. simpl.
  split; [by rewrite Hcount|]. split.
  - exists (later ++ [SaveLastRun]). rewrite Ht. simpl.
    rewrite Hd, Hl, Hcount. by rewrite <- !app_assoc.
  - split; [done|]. split; [done|]. simpl in Hmono. subst round. lia.
Qed.

(** The statistics after [n] more urls were counted as failed and as
    rate limited. *)
Definition count_limited (n : nat) (s : Stats) : Stats :=
  mk_stats (urls_processed s) (successful s) (n + failed s) (products_found s)
    (retry_count s) (n + rate_limited s).

Definition rate_limited_result (r : CrawlResult) : Prop :=
  success r = false ∧ is_rate_limited (status_code r) = true.

Lemma process_rate_limited crawl_results results retry_urls c :
  Forall rate_limited_result crawl_results →
  process_results crawl_results results retry_urls c
  = (results, retry_urls ++ map url crawl_results,
     with_stats c (count_limited (length crawl_results) (stats c))).
Proof.
  revert retry_urls c.
  induction crawl_results as [|r rest IH]; intros retry_urls c Hall.
  - simpl. rewrite app_nil_r. by destruct c as [[]].
  - apply Forall_cons in Hall as [[Hfail Hlim] Hrest].
    simpl. rewrite Hfail, Hlim, IH; [|done]. rewrite <- app_assoc. simpl.
    f_equal. unfold with_stats, count_limited. simpl. f_equal. f_equal; lia.
Qed.

(** C4: when every fetch of every round is answered with a rate limit
    status, crawl_products returns after 3 retry rounds (fewer when
    the counter of the run was raised before): nothing is extracted, no
    url is counted as successful, and every url is counted as failed and
    as rate limited once for every round in which it was fetched. *)
Theorem all_rate_limited_returns urls c :
  (∀ n us cache delay, ∃ crawl_results,
     arun_many n us cache delay = Ok crawl_results
     ∧ map url crawl_results = us
     ∧ Forall rate_limited_result crawl_results) →
  urls ≠ [] →
  let rounds := S (3 - retry_count (stats c)) in
  let final := crawl_products urls c in
  fst final = []
  ∧ calls (snd final) = calls c + rounds
  ∧ rounds ≤ 4
  ∧ retry_count (stats (snd final)) = Nat.max 3 (retry_count (stats c))
  ∧ successful (stats (snd final)) = successful (stats c)
  ∧ products_found (stats (snd final)) = products_found (stats c)
  ∧ failed (stats (snd final)) = rounds * length urls + failed (stats c)
  ∧ rate_limited (stats (snd final)) = rounds * length urls + rate_limited (stats c)
  ∧ urls_processed (stats (snd final)) = length urls
  ∧ base_delay (snd final) = base_delay c.
Proof.
  intros Hlimited. revert urls.
  induction c as [c IH] using retry_rounds_ind. intros urls Hurls.
  cbv zeta. rewrite crawl_products_unfold.
  destruct urls as [|u us]; [done|]. unfold fetch.
  destruct (Hlimited (calls c) (u :: us) (last_run_json c) (base_delay c))
    as (crawl_results & -> & Hmap & Hall).
  rewrite (process_rate_limited _ _ _ _ Hall). simpl app. rewrite Hmap.
  assert (Hlen : length crawl_results = length (u :: us))
    by (by rewrite <- Hmap, length_map).
  rewrite Hlen.
  set (c2 := with_stats _ _).
  destruct (Nat.ltb_spec (retry_count (stats c2)) 3) as [Hlt|Hge].
  - simpl in Hlt.
    destruct (IH (start_retry c2) Hlt eq_refl (u :: us) Hurls)
      as (Hres & Hcalls & _ & Hcount & Hsucc & Hfound & Hfail & Hrate & Hproc & _).
    simpl in Hcalls, Hcount, Hsucc, Hfound, Hfail, Hrate, Hproc.
    simpl. rewrite Hres, Hcalls, Hcount, Hsucc, Hfound, Hfail, Hrate, Hproc.
    repeat split; try done; try lia.
    all: destruct (retry_count (stats c)) as [|[|[|?]]]; simpl; lia.
  - simpl in Hge. simpl.
    replace (3 - retry_count (stats c)) with 0 by lia.
    repeat split; try done; lia.
Qed.

End Props.

(** *** Examples *)

Import Demo.

Lemma all_rate_limited_returns_witness :
  let final := @crawl_products throttling_site two_urls
                 (new_crawler (1, 3)%Q false) in
  fst final = []
  ∧ calls (snd final) = 4
  ∧ retry_count (stats (snd final)) = 3
  ∧ successful (stats (snd final)) = 0
  ∧ failed (stats (snd final)) = 8
  ∧ rate_limited (stats (snd final)) = 8.
Proof.
  destruct (@all_rate_limited_returns throttling_site two_urls
              (new_crawler (1, 3)%Q false))
    as (Hres & Hcalls & _ & Hcount & Hsucc & _ & Hfail & Hrate & _).
  - intros n us cache delay. eexists. split; [reflexivity|]. split.
    + rewrite map_map. simpl. apply map_id.
    + apply List.Forall_forall. intros r Hr.
      apply List.in_map_iff in Hr as (u & <- & _). split; reflexivity.
  - discriminate.
  - cbv zeta. repeat split; assumption.
Defined.

Lemma retry_round_witness :
  let c := new_crawler (1, 3)%Q false in
  let final := @crawl_products recovering_site two_urls c in
  (∃ later,
     trace (snd final)
     = [ArunMany two_urls false (1, 3)%Q] ++ Sleep 5
         :: ArunMany two_urls false (1 * inject_Z 2, 3 * inject_Z 2)%Q :: later)
  ∧ length (fst final) = 2
  ∧ base_delay (snd final) = (1, 3)%Q.
Proof.
  intros c final.
  destruct (@retry_round recovering_site two_urls c
              (map (fun u => mk_result u false (Some 429%Z) "page") two_urls)
              [] two_urls
              (mk_crawler (mk_stats 2 0 2 0 0 2) (1, 3)%Q false 1
                 [ArunMany two_urls false (1, 3)%Q]))
    as (_ & Htrace & Hres & Hdelay & _);
    [discriminate|reflexivity|reflexivity|discriminate|simpl; lia|].
  fold final in Htrace, Hres, Hdelay.
  split; [exact Htrace|]. split; [|exact Hdelay].
  rewrite Hres. reflexivity.
Defined.

End CrawlerProps.

(** ** Properties of the job scheduler *)

Module SchedulerProps.
Import Py Database Scheduler.
Local Open Scope nat_scope.

(** What the claim on queued jobs says of a pass of the checker: a job
    that waits in the queue is not put there again. *)
Definition queued_not_requeued (now : nat → Z) (s : CrawlScheduler) : Prop :=
  ∀ ref, In (Some ref) (job_queue s) →
         ¬ In ref (due_jobs now 0 (objects s) (map snd (jobs s))).

Lemma is_due_spec now job :
  is_due now job = true
  ↔ enabled job = true ∧ running job = false ∧ (next_run job <= now)%Z.
Proof.
  unfold is_due. rewrite !andb_true_iff, negb_true_iff, Z.leb_le. tauto.
Qed.

Lemma due_jobs_spec now k objs values ref :
  In ref (due_jobs now k objs values)
  ↔ ∃ i job, values !! i = Some ref ∧ objs !! ref = Some job
             ∧ is_due (now (k + i)) job = true.
Proof.
  revert k. induction values as [|r rest IH]; intros k; simpl.
  - split; [done|]. by intros (i & job & Hi & _).
  - assert (Hrest : In ref (due_jobs now (S k) objs rest)
              ↔ ∃ i job, (r :: rest) !! S i = Some ref ∧ objs !! ref = Some job
                         ∧ is_due (now (k + S i)) job = true).
    { rewrite IH. split; intros (i & job & Hi & Hjob & Hdue); exists i, job;
        (split; [done|]); (split; [done|]);
        by replace (k + S i) with (S k + i) in * by lia. }
    destruct (objs !! r) as [job|] eqn:Hr.
    + destruct (is_due (now k) job) eqn:Hdue; simpl; rewrite Hrest.
      * split.
        -- intros [<-|(i & job' & Hi)]; [|by exists (S i), job'].
           exists 0, job. by rewrite Nat.add_0_r.
        -- intros ([|i] & job' & Hi & Hjob & Hd); [left; by injection Hi|].
           right. by exists i, job'.
      * split.
        -- intros (i & job' & Hi). by exists (S i), job'.
        -- intros ([|i] & job' & Hi & Hjob & Hd); [|by exists i, job'].
           simpl in Hi. injection Hi as ->. rewrite Nat.add_0_r in Hd. congruence.
    + rewrite Hrest. split.
      * intros (i & job' & Hi). by exists (S i), job'.
      * intros ([|i] & job' & Hi & Hjob & Hd); [|by exists i, job'].
        simpl in Hi. injection Hi as ->. congruence.
Qed.

Lemma due_jobs_sublist now k objs values :
  sublist (due_jobs now k objs values) values.
Proof.
  revert k. induction values as [|r rest IH]; intros k; simpl; [done|].
  destruct (objs !! r) as [job|].
  - destruct (is_due (now k) job); [by apply sublist_skip|by apply sublist_cons].
  - by apply sublist_cons.
Qed.

(** C6, amended: a pass of the checker puts at the end of the queue the
    jobs of the dict that are enabled, not running and whose next run is
    at or before the time the pass reads for them, these and no others,
    each once; so a running job is not enqueued.  (A job that waits in
    the queue is not marked, and is no exception.) *)
Theorem checker_pass_enqueues_due now s :
  let enqueued := due_jobs now 0 (objects s) (map snd (jobs s)) in
  job_queue (checker_pass now s) = job_queue s ++ map Some enqueued
  ∧ (∀ ref, In ref enqueued
            ↔ ∃ i name job,
                jobs s !! i = Some (name, ref) ∧ objects s !! ref = Some job
                ∧ enabled job = true ∧ running job = false
                ∧ (next_run job <= now i)%Z)
  ∧ (NoDup (map snd (jobs s)) → NoDup enqueued)
  ∧ (∀ ref job, objects s !! ref = Some job → running job = true →
                ¬ In ref enqueued).
Proof.
  cbv zeta. split; [done|]. split; [|split].
  - intros ref. rewrite due_jobs_spec. split.
    + intros (i & job & Hi & Hjob & Hdue). simpl in Hdue.
      rewrite list_lookup_fmap in Hi.
      destruct (jobs s !! i) as [[name ref']|] eqn:Hentry; [|done].
      simpl in Hi. injection Hi as ->. apply is_due_spec in Hdue.
      by exists i, name, job.
    + intros (i & name & job & Hi & Hjob & Hdue). exists i, job.
      rewrite list_lookup_fmap, Hi. split; [done|]. split; [done|].
      by apply is_due_spec.
  - intros Hnodup. eapply sublist_NoDup; [done|apply due_jobs_sublist].
  - intros ref job Hjob Hrun. rewrite due_jobs_spec.
    intros (i & job' & _ & Hjob' & Hdue). apply is_due_spec in Hdue.
    rewrite Hjob in Hjob'. injection Hjob' as <-. destruct Hdue as (_ & Hdue & _).
    congruence.
Qed.

Section Work.
Context `{Engine} `{Retailers}.

(** Work that raises has written nothing to the store. *)
Lemma work_raised_store job1 store n message traceback :
  fst (work job1 store n) = Raised message traceback →
  snd (work job1 store n) = store.
Proof.
  unfold work. destruct (run_crawler job1 n) as [m t|summary [files|]]; try done.
  destruct (storage_error n) as [[m t]|]; [done|].
  by destruct (bulk_upsert_products _ _) as [[sc fc] store'].
Qed.

(** An iteration on a queued job that is alive goes on to the next, with
    the job put back where it was and the rest of the queue waiting. *)
Lemma worker_iteration_job now s ref job queue :
  scheduler_running s = true →
  job_queue s = Some ref :: queue →
  objects s !! ref = Some job →
  ∃ job',
    worker_iteration now s
    = (Continue,
       mk_scheduler (check_interval s) true (jobs s) (<[ref := job']> (objects s))
         queue (snd (run now job (db s) (runs s))) (S (runs s)))
    ∧ job' = snd (fst (run now job (db s) (runs s)))
    ∧ last_run job' = Some now ∧ running job' = false
    ∧ (status job' = "completed" ∨ status job' = "failed").
Proof.
  intros Hrun Hqueue Hjob. unfold worker_iteration. rewrite Hrun, Hqueue, Hjob.
  simpl. destruct (run now job (db s) (runs s)) as [[summary job'] store'] eqn:Hr.
  exists job'. split; [done|]. split; [done|].
  revert Hr. unfold run.
  destruct (work (started now job) (db s) (runs s)) as [[summary'|msg tb] store''];
    intros [= _ <- _]; simpl; auto.
Qed.

(** The worker runs every job of the queue, one clock reading each,
    whatever the jobs meet. *)
Lemma worker_loop_drains refs : ∀ times s,
  scheduler_running s = true →
  job_queue s = map Some refs →
  Forall (fun ref => is_Some (objects s !! ref)) refs →
  length times = length refs →
  fst (worker_loop times s) = Continue
  ∧ job_queue (snd (worker_loop times s)) = []
  ∧ scheduler_running (snd (worker_loop times s)) = true
  ∧ runs (snd (worker_loop times s)) = runs s + length refs.
Proof.
  induction refs as [|ref refs IH]; intros times s Hrun Hqueue Halive Hlen.
  - destruct times; [|done]. simpl. by rewrite Nat.add_0_r.
  - destruct times as [|now times]; [done|]. simpl in Hlen.
    apply Forall_cons in Halive as [[job Hjob] Halive].
    destruct (worker_iteration_job now s ref job (map Some refs) Hrun Hqueue Hjob)
      as (job' & Hiter & _).
    simpl. rewrite Hiter.
    assert (Halive' : Forall (fun r => is_Some (<[ref := job']> (objects s) !! r))
                        refs).
    { eapply Forall_impl; [exact Halive|]. intros r Hr.
      by apply lookup_insert_is_Some'; right. }
    match goal with |- context [worker_loop times ?s1] =>
      destruct (IH times s1 eq_refl eq_refl Halive' ltac:(lia))
        as (H1 & H2 & H3 & H4) end.
    simpl in H4. rewrite H1, H2, H3, H4. repeat split; done || lia.
Qed.

(** C7: when the crawl and store work of a job raises (in the crawler
    or in the store), the iteration of the worker that runs the job ends
    normally and the loop goes on: the
    job is marked failed, with the error in its stats, and no longer
    running; the scheduler is still running, its jobs, the other job
    objects and the store are as they were; the checker goes on
    enqueueing the due jobs, and the worker runs the jobs that wait in
    the queue. *)
Theorem failed_job_is_contained now s ref job queue message traceback :
  scheduler_running s = true →
  job_queue s = Some ref :: queue →
  objects s !! ref = Some job →
  fst (work (started now job) (db s) (runs s)) = Raised message traceback →
  let s' := snd (worker_iteration now s) in
  fst (worker_iteration now s) = Continue
  ∧ scheduler_running s' = true
  ∧ job_queue s' = queue ∧ jobs s' = jobs s ∧ db s' = db s
  ∧ (∃ job',
       objects s' !! ref = Some job'
       ∧ status job' = "failed" ∧ running job' = false
       ∧ stats job' = error_payload job message traceback
       ∧ lookup_key (stats job') "error"
         = Some (JStr ("Error running crawl job for " ++ retailer_name job
                       ++ ": " ++ message))
       ∧ last_run job' = Some now
       ∧ next_run job' = (now + interval_hours job * 3600)%Z)
  ∧ (∀ other, other ≠ ref → objects s' !! other = objects s !! other)
  ∧ (∀ clock,
       job_queue (checker_pass clock s')
       = queue ++ map Some (due_jobs clock 0 (objects s') (map snd (jobs s'))))
  ∧ (∀ refs times,
       queue = map Some refs →
       Forall (fun r => is_Some (objects s !! r)) refs →
       length times = length refs →
       fst (worker_loop times s') = Continue
       ∧ job_queue (snd (worker_loop times s')) = []
       ∧ runs (snd (worker_loop times s')) = S (runs s) + length refs).
Proof.
  intros Hrun Hqueue Hjob Hraise.
  destruct (worker_iteration_job now s ref job queue Hrun Hqueue Hjob)
    as (job' & Hiter & Hjob' & _).
  pose proof (work_raised_store (started now job) (db s) (runs s) _ _ Hraise)
    as Hstore.
  unfold run in Hiter, Hjob'.
  destruct (work (started now job) (db s) (runs s)) as [result store'].
  simpl in Hraise, Hstore. subst result store'. simpl in Hiter, Hjob'.
  cbv zeta. rewrite Hiter. simpl. subst job'.
  do 5 (split; [done|]). split; [|split; [|split; [done|]]].
  - eexists. rewrite lookup_insert_eq. split; [done|]. simpl. done.
  - intros other Hother. by rewrite lookup_insert_ne.
  - intros refs times -> Halive Hlen.
    assert (Halive' : Forall (fun r => is_Some
              (<[ref := finished (started now job) "failed"
                          (error_payload (started now job) message traceback)]>
                 (objects s) !! r)) refs).
    { eapply Forall_impl; [exact Halive|]. intros r Hr.
      by apply lookup_insert_is_Some'; right. }
    match goal with |- context [worker_loop times ?s1] =>
      destruct (worker_loop_drains refs times s1 eq_refl eq_refl Halive' Hlen)
        as (H1 & H2 & H3 & H4) end.
    done.
Qed.

End Work.

(** *** Examples *)

Import Demo.

Example busy_scheduler_queue : job_queue busy_scheduler = [Some 2].
Proof. vm_compute. reflexivity. Qed.

Example busy_scheduler_requeues :
  job_queue (checker_pass (fun _ => 60%Z) busy_scheduler) = [Some 2; Some 2].
Proof. vm_compute. reflexivity. Qed.

(** C6 as stated fails: at the pass of time 60 the second job still waits
    in the queue, and the checker puts it there once more. *)
Lemma checker_requeues_queued_job_counterexample :
  ¬ queued_not_requeued (fun _ => 60%Z) busy_scheduler.
Proof.
  intros Hclaim. apply (Hclaim 2).
  - vm_compute. left. reflexivity.
  - vm_compute. left. reflexivity.
Qed.

Lemma failed_job_is_contained_witness :
  let s' := snd (@worker_iteration demo_engine broken_pricecheck 1 both_queued) in
  scheduler_running both_queued = true
  ∧ fst (@worker_iteration demo_engine broken_pricecheck 1 both_queued) = Continue
  ∧ scheduler_running s' = true
  ∧ job_queue s' = [Some 2]
  ∧ (∃ job', objects s' !! 1 = Some job' ∧ status job' = "failed"
             ∧ running job' = false)
  ∧ fst (@worker_loop demo_engine broken_pricecheck [2%Z] s') = Continue.
Proof.
  destruct (@failed_job_is_contained demo_engine broken_pricecheck 1 both_queued 1
              (new_job 0 "PriceCheck" 24 1000 6 true) [Some 2]
              "No module named 'pricecheck_crawler'" "Traceback")
    as (Hgo & Hrunning & Hqueue & _ & _ & (job' & Hjob' & Hstatus & Hflag & _) & _
        & _ & Hnext);
    [reflexivity|reflexivity|reflexivity|reflexivity|].
  cbv zeta. split; [reflexivity|]. split; [exact Hgo|]. split; [exact Hrunning|].
  split; [exact Hqueue|]. split; [by exists job'|].
  destruct (Hnext [2] [2%Z]) as (Hloop & _); [reflexivity| |reflexivity|exact Hloop].
  repeat constructor. vm_compute. eauto.
Defined.

End SchedulerProps.

(** ** More on the product store: deleting, clearing, counting *)

Module StoreInvariants.
Import Py Database StoreProps.
Local Open Scope nat_scope.

(** The index entry [e] shows the row [r]: its id is the text of the
    primary key, and its columns read as the row's. *)
Definition shows `{Engine} (e : search_row) (r : product_row) : Prop :=
  fts_id e = SText (col_id r)
  ∧ as_text (fts_title e) = Some (col_title r)
  ∧ as_text (fts_description e) = col_description r
  ∧ as_text (fts_brand e) = col_brand r
  ∧ as_text (fts_category e) = col_category r.

(** The two tables agree: ids are unique, every index entry has a text
    id, and under every id the index entries are the rows, one for one. *)
Definition in_sync `{Engine} (db : database) : Prop :=
  primary_key db
  ∧ (∀ e, In e (product_search db) → ∃ i, fts_id e = SText i)
  ∧ ∀ i, Forall2 shows (entries_with (SText i) db) (rows_with i db).

(** The calls that write to the store. *)
Inductive store_op : Type :=
| Upsert (product_data : dict)
| BulkUpsert (products_in : list dict)
| Delete (product_id : string)
| ClearRetailer (retailer : string).

Definition apply_op `{Engine} (op : store_op) (db : database) : database :=
  match op with
  | Upsert product_data => snd (upsert_product product_data db)
  | BulkUpsert products_in => snd (bulk_upsert_products products_in db)
  | Delete product_id => snd (delete_product product_id db)
  | ClearRetailer retailer => snd (clear_retailer_data retailer db)
  end.

(** The record names itself by a str, or not at all. *)
Definition text_identity (product_data : dict) : bool :=
  is_str (get product_data "id" (JStr "")).

Definition text_identities (op : store_op) : bool :=
  match op with
  | Upsert product_data => text_identity product_data
  | BulkUpsert products_in => forallb text_identity products_in
  | Delete _ | ClearRetailer _ => true
  end.

(** The verdicts of one call of upsert_product per record, in turn. *)
Fixpoint upsert_each `{Engine} (products_in : list dict) (db : database)
    : list bool * database :=
  match products_in with
  | [] => ([], db)
  | product_data :: rest =>
      let '(verdict, db1) := upsert_product product_data db in
      let '(verdicts, db2) := upsert_each rest db1 in
      (verdict :: verdicts, db2)
  end.

(** The number of rows of a retailer. *)
Definition rows_of_retailer (retailer : string) (db : database) : list product_row :=
  List.filter (fun r => String.eqb (col_retailer r) retailer) (products db).

(** [counts.get(k, 0)] *)
Fixpoint lookup_count (k : string) (counts : list (string * nat)) : nat :=
  match counts with
  | [] => 0
  | (k', n) :: rest => if String.eqb k' k then n else lookup_count k rest
  end.

(** The number of the keys equal to [k]. *)
Definition count_of (k : string) (keys : list string) : nat :=
  length (List.filter (fun k' => String.eqb k' k) keys).

(** Largest count first. *)
Definition largest_first (groups : list (string * nat)) : Prop :=
  StronglySorted (fun a b => snd b ≤ snd a) groups.

(** The rows whose column [column] holds the text [c]. *)
Definition rows_in_group (column : product_row → option string) (c : string)
    (db : database) : list product_row :=
  List.filter (fun r => text_is c (column r)) (products db).

Section Props.
Context `{Engine}.

Lemma filter_filter_comm {A} (f g : A → bool) (l : list A) :
  List.filter f (List.filter g l) = List.filter g (List.filter f l).
Proof.
  induction l as [|x l IH]; [done|]. simpl.
  destruct (f x) eqn:Hf, (g x) eqn:Hg; simpl; rewrite ?Hf, ?Hg, IH; done.
Qed.

Lemma filter_filter_neg {A} (f : A → bool) (l : list A) :
  List.filter f (List.filter (fun x => negb (f x)) l) = [].
Proof.
  induction l as [|x l IH]; [done|]. simpl.
  destruct (f x) eqn:Hf; simpl; rewrite ?Hf; done.
Qed.

Lemma filter_filter_implied {A} (f g : A → bool) (l : list A) :
  (∀ x, f x = true → g x = true) →
  List.filter f (List.filter g l) = List.filter f l.
Proof.
  intros Himp. induction l as [|x l IH]; [done|]. simpl.
  destruct (f x) eqn:Hf.
  - rewrite (Himp x Hf). simpl. by rewrite Hf, IH.
  - destruct (g x); simpl; rewrite ?Hf; done.
Qed.

Lemma sql_eqb_text v i : sql_eqb v (SText i) = true → v = SText i.
Proof.
  destruct v; simpl; try done. intros Heq. apply String.eqb_eq in Heq. by subst.
Qed.

Lemma delete_product_rowcount i db :
  fst (delete_product i db) = (0 <? length (entries_with (SText i) db)).
Proof.
  unfold delete_product, entries_with. simpl.
  rewrite (filter_complement_length (fun e => sql_eqb (fts_id e) (SText i))).
  pose proof (List.filter_length_le (fun e => sql_eqb (fts_id e) (SText i))
                (product_search db)).
  f_equal. lia.
Qed.

(** X1: delete_product removes the row of the id and the index entries
    of the id, and nothing else: afterwards the id reads back nothing,
    every other id reads back what it did, and the index entries of every
    other id are as they were.  What it returns is whether the index held
    an entry for the id. *)
Theorem delete_product_removes i db :
  let db' := snd (delete_product i db) in
  get_product_by_id i db' = None
  ∧ rows_with i db' = []
  ∧ entries_with (SText i) db' = []
  ∧ (∀ j, j ≠ i →
       rows_with j db' = rows_with j db
       ∧ get_product_by_id j db' = get_product_by_id j db
       ∧ entries_with (SText j) db' = entries_with (SText j) db)
  ∧ (fst (delete_product i db) = true ↔ entries_with (SText i) db ≠ []).
Proof.
  cbv zeta.
  assert (Hrows : rows_with i (snd (delete_product i db)) = []).
  { unfold rows_with, delete_product. simpl.
    apply (filter_filter_neg (fun r => String.eqb (col_id r) i)). }
  assert (Hother : ∀ j, j ≠ i →
            rows_with j (snd (delete_product i db)) = rows_with j db).
  { intros j Hj. unfold rows_with, delete_product. simpl.
    apply filter_filter_implied. intros r Hr. apply String.eqb_eq in Hr.
    apply negb_true_iff, String.eqb_neq. congruence. }
  split; [by rewrite get_product_by_id_rows, Hrows|]. split; [done|]. split.
  { unfold entries_with, delete_product. simpl.
    apply (filter_filter_neg (fun e => sql_eqb (fts_id e) (SText i))). }
  split.
  - intros j Hj. split; [by apply Hother|]. split.
    + by rewrite !get_product_by_id_rows, Hother.
    + unfold entries_with, delete_product. simpl.
      apply filter_filter_implied. intros e He. apply sql_eqb_text in He.
      rewrite He. simpl. by apply negb_true_iff, String.eqb_neq.
  - rewrite delete_product_rowcount.
    destruct (entries_with (SText i) db); simpl; split; done.
Qed.

(** *** One verdict per record *)

Lemma upsert_product_turn product_data db :
  upsert_product product_data db = (valid_record product_data, turn product_data db).
Proof.
  unfold upsert_product, turn.
  destruct (truthy (get product_data "url" (JStr ""))) eqn:Hurl; simpl.
  - pose proof (upsert_record_inv product_data (get product_data "url" (JStr "")) db)
      as Hinv.
    pose proof (upsert_record_valid product_data db Hurl) as Hvalid.
    destruct (upsert_record _ _ db) as [[[]|ex] db1]; simpl in *; rewrite <- Hvalid.
    + done.
    + destruct Hinv as [Hp Hs]. unfold rollback. rewrite <- Hp, <- Hs.
      by destruct db1.
  - rewrite lacks_url_invalid; [done|]. unfold lacks_url. by rewrite Hurl.
Qed.

Lemma upsert_each_spec products_in : ∀ db,
  upsert_each products_in db
  = (map valid_record products_in, snd (bulk_upsert_products products_in db)).
Proof.
  induction products_in as [|p rest IH]; intros db; [done|].
  simpl. rewrite upsert_product_turn, IH, bulk_db_cons. done.
Qed.

(** X2: a batch stored by bulk_upsert_products, in its one transaction,
    leaves the store that one call of upsert_product per record leaves, in
    the same order; the first count is the number of calls that return
    True, the second the number of calls that return False. *)
Theorem bulk_upsert_is_upsert_each products_in db :
  let each := upsert_each products_in db in
  bulk_upsert_products products_in db
  = ((length (List.filter (fun verdict => verdict) (fst each)),
      length (List.filter negb (fst each))),
     snd each).
Proof.
  cbv zeta. rewrite upsert_each_spec. simpl.
  rewrite (surjective_pairing (bulk_upsert_products products_in db)) at 1.
  f_equal. unfold bulk_upsert_products. rewrite bulk_loop_counts. simpl.
  f_equal; induction products_in as [|p rest IH]; simpl; try done;
    destruct (valid_record p); simpl; by rewrite IH.
Qed.

(** X3: a record whose retailer or title is given as null is refused:
    upsert_product returns False and neither table changes, and in a
    batch the record is counted as a failure. *)
Theorem null_title_or_retailer_refused product_data db :
  lookup_key product_data "title" = Some JNull
  ∨ lookup_key product_data "retailer" = Some JNull →
  fst (upsert_product product_data db) = false
  ∧ products (snd (upsert_product product_data db)) = products db
  ∧ product_search (snd (upsert_product product_data db)) = product_search db
  ∧ fst (bulk_upsert_products [product_data] db) = (0, 1).
Proof.
  intros Hnull.
  assert (Hinvalid : valid_record product_data = false).
  { unfold valid_record, get.
    destruct Hnull as [-> | ->]; simpl; rewrite ?andb_false_r; done. }
  rewrite upsert_product_turn. simpl.
  destruct (turn_invalid product_data db Hinvalid) as [Hp Hs].
  split; [done|]. split; [done|]. split; [done|].
  unfold bulk_upsert_products. rewrite bulk_loop_counts. simpl.
  by rewrite Hinvalid.
Qed.

(** *** The two tables stay in step *)

Lemma in_sync_ext db db' :
  products db' = products db → product_search db' = product_search db →
  in_sync db → in_sync db'.
Proof.
  unfold in_sync, primary_key, entries_with, rows_with. by intros -> ->.
Qed.

Lemma Forall2_filter_agree {A B} (R : A → B → Prop) (f : A → bool) (g : B → bool)
    l1 l2 :
  Forall2 R l1 l2 → (∀ a b, In b l2 → R a b → f a = g b) →
  Forall2 R (List.filter f l1) (List.filter g l2).
Proof.
  induction 1 as [|a b l1 l2 Hab Hrest IH]; intros Hagree; [constructor|].
  simpl. rewrite (Hagree a b (or_introl eq_refl) Hab).
  assert (Forall2 R (List.filter f l1) (List.filter g l2)) as Htail.
  { apply IH. intros a' b' Hin. apply Hagree. by right. }
  destruct (g b); [by constructor|done].
Qed.

Lemma derive_id_text product_data url db pid :
  text_identity product_data = true →
  fst (derive_id product_data url db) = Ok pid → ∃ s, pid = JStr s.
Proof.
  unfold text_identity, derive_id. intros Htext.
  destruct (truthy (get product_data "id" (JStr ""))).
  - simpl. intros [= <-]. destruct (get product_data "id" (JStr "")); try done.
    by eexists.
  - destruct url; try done. destruct (negb _); simpl.
    + intros [= <-]. by eexists.
    + unfold bind, time_millis, ret. simpl. intros [= <-]. by eexists.
Qed.

Lemma written_in_sync row e db clk :
  shows e row → in_sync db → in_sync (written (SText (col_id row)) row e db clk).
Proof.
  intros (He & Ht & Hd & Hb & Hc) (Hpk & Htext & Hsync).
  split; [by apply written_primary_key|]. split.
  - intros e'. unfold written. simpl. rewrite List.in_app_iff, List.filter_In.
    intros [[Hin _]|[<-|[]]]; [by apply Htext|by eexists].
  - intros j. destruct (String.eqb_spec (col_id row) j) as [<-|Hne].
    + rewrite written_entry; [|done..].
      destruct (written_row (SText (col_id row)) row e db clk eq_refl Hpk)
        as (r & -> & Hid & _ & Htitle & Hdesc & Hbrand & Hcat & _).
      constructor; [|constructor]. unfold shows.
      by rewrite Hid, Htitle, Hdesc, Hbrand, Hcat.
    + rewrite written_other_rows; [|done].
      assert (entries_with (SText j) (written (SText (col_id row)) row e db clk)
              = entries_with (SText j) db) as ->; [|by apply Hsync].
      unfold entries_with, written. simpl. rewrite List.filter_app. simpl.
      rewrite He. simpl. apply String.eqb_neq in Hne. rewrite Hne, app_nil_r.
      apply filter_filter_implied. intros e' He'. apply sql_eqb_text in He'.
      rewrite He'. simpl. apply negb_true_iff.
      rewrite String.eqb_sym. exact Hne.
Qed.

Lemma stored_in_sync product_data url db db' :
  text_identity product_data = true → stored product_data url db db' →
  in_sync db → in_sync db'.
Proof.
  intros Htext Hstored Hsync.
  destruct (stored_identity _ _ _ _ Hstored)
    as (pid & v & row & e & clk & Hid & Hv & Hrow & _ & He & _ & Ht & Hd & Hb & Hc
        & ->).
  destruct (derive_id_text _ _ _ _ Htext Hid) as [s ->].
  simpl in Hv. injection Hv as <-. simpl in Hrow. injection Hrow as ->.
  by apply written_in_sync.
Qed.

Lemma turn_in_sync product_data db :
  text_identity product_data = true → in_sync db → in_sync (turn product_data db).
Proof.
  intros Htext Hsync. destruct (valid_record product_data) eqn:Hvalid.
  - eapply stored_in_sync; [done|by apply turn_valid|done].
  - destruct (turn_invalid product_data db Hvalid) as [Hp Hs].
    by apply (in_sync_ext db).
Qed.

Lemma bulk_in_sync products_in : ∀ db,
  forallb text_identity products_in = true → in_sync db →
  in_sync (snd (bulk_upsert_products products_in db)).
Proof.
  induction products_in as [|p rest IH]; intros db Htext Hsync; [done|].
  simpl in Htext. apply andb_true_iff in Htext as [Hp Hrest].
  rewrite bulk_db_cons. apply IH; [done|]. by apply turn_in_sync.
Qed.

Lemma NoDup_map_filter {A B} (f : A → B) (g : A → bool) (l : list A) :
  NoDup (map f l) → NoDup (map f (List.filter g l)).
Proof.
  induction l as [|x l IH]; [done|]. simpl. intros [Hnot Hnd]%NoDup_cons.
  destruct (g x); [|by apply IH]. simpl. apply NoDup_cons. split; [|by apply IH].
  intros Hin. apply Hnot. apply list_elem_of_In in Hin. apply list_elem_of_In.
  apply List.in_map_iff in Hin as (y & Hy & Hin). apply List.filter_In in Hin as [Hin _].
  apply List.in_map_iff. by exists y.
Qed.

Lemma NoDup_map_eq {A B} (f : A → B) (l : list A) a b :
  NoDup (map f l) → In a l → In b l → f a = f b → a = b.
Proof.
  induction l as [|x l IH]; [done|]. simpl. intros [Hnot Hnd]%NoDup_cons.
  intros [->|Ha] [->|Hb] Heq; try done.
  - exfalso. apply Hnot. apply list_elem_of_In. rewrite Heq. by apply List.in_map.
  - exfalso. apply Hnot. apply list_elem_of_In. rewrite <- Heq. by apply List.in_map.
  - by apply IH.
Qed.

Lemma filter_neg_all {A} (f : A → bool) (l : list A) :
  List.filter f l = [] → List.filter (fun x => negb (f x)) l = l.
Proof.
  induction l as [|x l IH]; [done|]. simpl.
  destruct (f x); [done|]. simpl. intros Hnil. by rewrite IH.
Qed.

Lemma delete_in_sync i db : in_sync db → in_sync (snd (delete_product i db)).
Proof.
  intros (Hpk & Htext & Hsync). split; [|split].
  - unfold primary_key, delete_product. simpl. by apply NoDup_map_filter.
  - intros e. unfold delete_product. simpl. rewrite List.filter_In.
    intros [Hin _]. by apply Htext.
  - intros j. unfold entries_with, rows_with, delete_product. simpl.
    rewrite (filter_filter_comm (fun e => sql_eqb (fts_id e) (SText j))).
    rewrite (filter_filter_comm (fun r => String.eqb (col_id r) j)).
    apply Forall2_filter_agree; [apply Hsync|].
    intros e r _ (He & _). rewrite He. done.
Qed.

(** The rows of a retailer are the rows whose ids were selected. *)
Lemma selected_ids retailer db r :
  primary_key db → In r (products db) →
  existsb (fun i => String.eqb (col_id r) i)
    (map col_id (rows_of_retailer retailer db))
  = String.eqb (col_retailer r) retailer.
Proof.
  intros Hpk Hin. destruct (String.eqb (col_retailer r) retailer) eqn:Hret.
  - apply existsb_exists. exists (col_id r). split; [|apply String.eqb_refl].
    apply List.in_map, List.filter_In. done.
  - destruct (existsb _ _) eqn:Hex; [|done].
    apply existsb_exists in Hex as (i & Hi & Heq). apply String.eqb_eq in Heq.
    apply List.in_map_iff in Hi as (r1 & Hid & Hr1).
    apply List.filter_In in Hr1 as [Hr1 Hret1].
    assert (r1 = r) as -> by (eapply NoDup_map_eq; [exact Hpk|done..|congruence]).
    congruence.
Qed.

Lemma clear_in_sync retailer db :
  in_sync db → in_sync (snd (clear_retailer_data retailer db)).
Proof.
  intros Hsync. unfold clear_retailer_data. fold (rows_of_retailer retailer db).
  destruct (map col_id (rows_of_retailer retailer db)) as [|i ids] eqn:Hids.
  - simpl. apply (in_sync_ext db); [|done|done]. simpl.
    apply filter_neg_all. by apply List.map_eq_nil in Hids.
  - destruct (_ <? _); [done|]. rewrite <- Hids. simpl.
    destruct Hsync as (Hpk & Htext & Hsync). split; [|split].
    + unfold primary_key. simpl. by apply NoDup_map_filter.
    + intros e. simpl. rewrite List.filter_In. intros [Hin _]. by apply Htext.
    + intros j. unfold entries_with at 1, rows_with at 1. simpl.
      rewrite (filter_filter_comm (fun e => sql_eqb (fts_id e) (SText j))).
      rewrite (filter_filter_comm (fun r => String.eqb (col_id r) j)).
      apply Forall2_filter_agree; [apply Hsync|].
      intros e r Hin (He & _). rewrite He. simpl. f_equal.
      apply selected_ids; [done|]. by apply List.filter_In in Hin as [Hin _].
Qed.

Lemma apply_op_in_sync op db :
  text_identities op = true → in_sync db → in_sync (apply_op op db).
Proof.
  destruct op as [p|ps|i|retailer]; simpl; intros Htext Hsync.
  - rewrite upsert_product_turn. by apply turn_in_sync.
  - by apply bulk_in_sync.
  - by apply delete_in_sync.
  - by apply clear_in_sync.
Qed.

(** What the agreement of the tables means for one id. *)
Lemma in_sync_lookup db i :
  in_sync db →
  match get_product_by_id i db with
  | None => rows_with i db = [] ∧ entries_with (SText i) db = []
  | Some product_data =>
      ∃ r e, rows_with i db = [r] ∧ entries_with (SText i) db = [e]
             ∧ col_data r = product_data ∧ shows e r
  end.
Proof.
  intros (Hpk & _ & Hsync). specialize (Hsync i).
  rewrite get_product_by_id_rows.
  destruct (existsb (has_id i) (products db)) eqn:Hex.
  - destruct (filter_unique_id i _ Hpk Hex) as (r & Hr & _).
    change (rows_with i db = [r]) in Hr. rewrite Hr in *. simpl.
    inversion Hsync as [|e r' es rs Hshows Hrest]; subst. inversion Hrest; subst.
    by exists r, e.
  - apply filter_none_existsb in Hex. change (rows_with i db = []) in Hex.
    rewrite Hex in *. simpl. by inversion Hsync.
Qed.

(** X4: the full-text index never falls out of step with the table of
    products.  From a store in which ids are unique and every index entry
    has a text id and shows the row of that id, any sequence of calls of
    upsert_product, bulk_upsert_products, delete_product and
    clear_retailer_data, on records that name themselves by a str or not
    at all, leaves such a store: an id that reads back nothing has no
    index entry, and an id that reads back a record has exactly one row
    and exactly one index entry, which shows the title, description,
    brand and category of the row. *)
Theorem store_stays_in_sync ops db :
  in_sync db → forallb text_identities ops = true →
  let db' := foldl (fun d op => apply_op op d) db ops in
  in_sync db'
  ∧ ∀ i, match get_product_by_id i db' with
         | None => rows_with i db' = [] ∧ entries_with (SText i) db' = []
         | Some product_data =>
             ∃ r e, rows_with i db' = [r] ∧ entries_with (SText i) db' = [e]
                    ∧ col_data r = product_data ∧ shows e r
         end.
Proof.
  intros Hsync Htext. cbv zeta.
  assert (in_sync (foldl (fun d op => apply_op op d) db ops)) as Hfinal.
  { revert db Hsync Htext. induction ops as [|op ops IH]; intros db Hsync Htext;
      [done|].
    simpl in Htext. apply andb_true_iff in Htext as [Hop Hops].
    simpl. apply IH; [|done]. by apply apply_op_in_sync. }
  split; [done|]. intros i. by apply in_sync_lookup.
Qed.

(** *** Deleting what was stored, clearing a retailer *)

Lemma delete_product_rows i db : rows_with i (snd (delete_product i db)) = [].
Proof.
  unfold rows_with, delete_product. simpl.
  apply (filter_filter_neg (fun r => String.eqb (col_id r) i)).
Qed.

Lemma delete_product_entries i db :
  entries_with (SText i) (snd (delete_product i db)) = [].
Proof.
  unfold entries_with, delete_product. simpl.
  apply (filter_filter_neg (fun e => sql_eqb (fts_id e) (SText i))).
Qed.

(** X5: a record that upsert_product has stored under a text id is read
    back by that id, and delete_product of the id returns True and leaves
    neither a row nor an index entry of it. *)
Theorem delete_stored_product product_data i db db' :
  upsert_product product_data db = (true, db') →
  fst (derive_id product_data (get product_data "url" (JStr "")) db) = Ok (JStr i) →
  get_product_by_id i db' = Some product_data
  ∧ fst (delete_product i db') = true
  ∧ get_product_by_id i (snd (delete_product i db')) = None
  ∧ entries_with (SText i) (snd (delete_product i db')) = [].
Proof.
  intros Hupsert Hid.
  apply upsert_product_true in Hupsert as [_ Hstored].
  destruct (stored_identity _ _ _ _ Hstored)
    as (pid & v & row & e & clk & Hid' & Hv & Hrow & _ & He & Hdata & _ & _ & _ & _
        & ->).
  rewrite Hid in Hid'. injection Hid' as <-.
  simpl in Hv. injection Hv as <-. simpl in Hrow. injection Hrow as ->.
  split; [by rewrite written_get, Hdata|]. split.
  - rewrite delete_product_rowcount, written_entry; done.
  - split; [|apply delete_product_entries].
    by rewrite get_product_by_id_rows, delete_product_rows.
Qed.

Lemma clear_retailer_data_rows retailer db other :
  length (rows_of_retailer retailer db) ≤ SQLITE_MAX_VARIABLE_NUMBER →
  rows_of_retailer other (snd (clear_retailer_data retailer db))
  = List.filter (fun r => negb (String.eqb (col_retailer r) retailer))
      (rows_of_retailer other db).
Proof.
  intros Hfew. unfold clear_retailer_data. fold (rows_of_retailer retailer db).
  rewrite length_map.
  destruct (map col_id (rows_of_retailer retailer db)) as [|i ids]; simpl.
  - apply filter_filter_comm.
  - destruct (Nat.ltb_spec SQLITE_MAX_VARIABLE_NUMBER
                (length (rows_of_retailer retailer db))); [lia|].
    apply filter_filter_comm.
Qed.

(** X6: clear_retailer_data deletes the rows of the retailer and returns
    their number; no row of the retailer is left, the rows of every other
    retailer are as they were, and in a store whose tables agree the ids
    of the deleted rows read back nothing and have no index entry any
    more.  When the retailer has more rows than SQLite allows parameters
    in a statement, nothing is deleted and 0 is returned. *)
Theorem clear_retailer_data_clears retailer db :
  let result := clear_retailer_data retailer db in
  let n := length (rows_of_retailer retailer db) in
  if SQLITE_MAX_VARIABLE_NUMBER <? n then result = (0, db)
  else
    fst result = n
    ∧ rows_of_retailer retailer (snd result) = []
    ∧ (∀ other, other ≠ retailer →
         rows_of_retailer other (snd result) = rows_of_retailer other db)
    ∧ length (products (snd result)) + n = length (products db)
    ∧ (in_sync db →
       ∀ r, In r (rows_of_retailer retailer db) →
            get_product_by_id (col_id r) (snd result) = None
            ∧ entries_with (SText (col_id r)) (snd result) = []).
Proof.
  cbv zeta.
  destruct (Nat.ltb_spec SQLITE_MAX_VARIABLE_NUMBER
              (length (rows_of_retailer retailer db))) as [Hmany|Hfew].
  { unfold clear_retailer_data. fold (rows_of_retailer retailer db).
    rewrite length_map.
    destruct (map col_id (rows_of_retailer retailer db)) as [|i ids] eqn:Hids.
    - apply List.map_eq_nil in Hids. rewrite Hids in Hmany. simpl in Hmany. lia.
    - apply Nat.ltb_lt in Hmany. by rewrite Hmany. }
  assert (Hkept : products (snd (clear_retailer_data retailer db))
                  = List.filter (fun r => negb (String.eqb (col_retailer r) retailer))
                      (products db)).
  { unfold clear_retailer_data. fold (rows_of_retailer retailer db).
    rewrite length_map.
    destruct (map col_id (rows_of_retailer retailer db)); [done|].
    by destruct (Nat.ltb_spec SQLITE_MAX_VARIABLE_NUMBER
                   (length (rows_of_retailer retailer db))); [lia|]. }
  assert (Hcount : fst (clear_retailer_data retailer db)
                   = length (rows_of_retailer retailer db)).
  { unfold clear_retailer_data. fold (rows_of_retailer retailer db).
    rewrite length_map.
    rewrite (filter_complement_length (fun r => String.eqb (col_retailer r) retailer)).
    fold (rows_of_retailer retailer db).
    pose proof (List.filter_length_le
                  (fun r => String.eqb (col_retailer r) retailer) (products db)) as Hle.
    fold (rows_of_retailer retailer db) in Hle.
    destruct (map col_id (rows_of_retailer retailer db)); simpl; [lia|].
    destruct (Nat.ltb_spec SQLITE_MAX_VARIABLE_NUMBER
                (length (rows_of_retailer retailer db))); simpl; lia. }
  split; [done|]. split; [|split; [|split]].
  - rewrite clear_retailer_data_rows; [|done].
    unfold rows_of_retailer. rewrite filter_filter_comm.
    apply (filter_filter_neg (fun r => String.eqb (col_retailer r) retailer)).
  - intros other Hother. rewrite clear_retailer_data_rows; [|done].
    unfold rows_of_retailer. rewrite filter_filter_comm.
    apply filter_filter_implied. intros r Hr. apply String.eqb_eq in Hr.
    apply negb_true_iff, String.eqb_neq. congruence.
  - rewrite Hkept.
    rewrite (filter_complement_length (fun r => String.eqb (col_retailer r) retailer)).
    pose proof (List.filter_length_le
                  (fun r => String.eqb (col_retailer r) retailer) (products db)).
    unfold rows_of_retailer. lia.
  - intros Hsync r Hr.
    assert (Hnone : get_product_by_id (col_id r) (snd (clear_retailer_data retailer db))
                    = None).
    { rewrite get_product_by_id_rows. unfold rows_with. rewrite Hkept.
      rewrite filter_filter_comm. fold (rows_with (col_id r) db).
      apply List.filter_In in Hr as [Hin Hret].
      destruct Hsync as (Hpk & _).
      assert (Hex : existsb (has_id (col_id r)) (products db) = true).
      { apply existsb_exists. exists r. split; [done|]. apply String.eqb_refl. }
      destruct (filter_unique_id _ _ Hpk Hex) as (r0 & Hr0 & Hid0).
      change (rows_with (col_id r) db = [r0]) in Hr0.
      assert (Hin0 : In r0 (rows_with (col_id r) db)) by (rewrite Hr0; by left).
      apply List.filter_In in Hin0 as [Hin0 _]. rewrite Hr0.
      assert (r0 = r) as -> by (by eapply NoDup_map_eq; [exact Hpk|done..]).
      simpl. by rewrite Hret. }
    split; [done|].
    pose proof (in_sync_lookup _ (col_id r) (clear_in_sync retailer db Hsync)) as Hl.
    rewrite Hnone in Hl. by destruct Hl.
Qed.

(** *** Counting by retailer *)

Lemma lookup_count_key k k' counts :
  lookup_count k' (count_key k counts)
  = if String.eqb k k' then S (lookup_count k' counts) else lookup_count k' counts.
Proof.
  induction counts as [|[k0 n] rest IH]; simpl.
  - by destruct (String.eqb k k').
  - destruct (String.eqb_spec k0 k) as [->|Hne]; simpl.
    + by destruct (String.eqb k k').
    + rewrite IH. destruct (String.eqb_spec k0 k') as [->|Hne']; [|done].
      apply not_eq_sym, String.eqb_neq in Hne. by rewrite Hne.
Qed.

Lemma count_key_keys k counts :
  map fst (count_key k counts)
  = if existsb (fun g => String.eqb (fst g) k) counts
    then map fst counts else map fst counts ++ [k].
Proof.
  induction counts as [|[k0 n] rest IH]; simpl; [done|].
  destruct (String.eqb k0 k); simpl; [done|]. rewrite IH.
  by destruct (existsb _ rest).
Qed.

Lemma count_key_NoDup k counts :
  NoDup (map fst counts) → NoDup (map fst (count_key k counts)).
Proof.
  intros Hnd. rewrite count_key_keys.
  destruct (existsb _ counts) eqn:Hex; [done|].
  apply NoDup_app. split; [done|]. split; [|apply NoDup_singleton].
  intros k' Hin Hk. apply list_elem_of_In in Hk as [<-|[]].
  apply list_elem_of_In, List.in_map_iff in Hin as (g & Hg & Hin).
  assert (existsb (fun g => String.eqb (fst g) k) counts = true); [|congruence].
  apply existsb_exists. exists g. split; [done|]. by apply String.eqb_eq.
Qed.

Lemma count_key_positive k counts :
  Forall (fun g => 0 < snd g) counts → Forall (fun g => 0 < snd g) (count_key k counts).
Proof.
  induction 1 as [|[k0 n] rest Hn Hrest IH]; simpl.
  - repeat constructor.
  - destruct (String.eqb k0 k); constructor; simpl in *; done || lia.
Qed.

Lemma count_key_sum k counts :
  list_sum (map snd (count_key k counts)) = S (list_sum (map snd counts)).
Proof.
  induction counts as [|[k0 n] rest IH]; simpl; [done|].
  destruct (String.eqb k0 k); simpl; [lia|]. rewrite IH. lia.
Qed.

Lemma group_counts_fold keys : ∀ counts,
  let result := foldl (fun counts k => count_key k counts) counts keys in
  (NoDup (map fst counts) → NoDup (map fst result))
  ∧ (Forall (fun g => 0 < snd g) counts → Forall (fun g => 0 < snd g) result)
  ∧ list_sum (map snd result) = list_sum (map snd counts) + length keys
  ∧ ∀ k, lookup_count k result = lookup_count k counts + count_of k keys.
Proof.
  induction keys as [|k0 keys IH]; intros counts; simpl.
  - repeat split; try done; try lia; intros; unfold count_of; simpl; lia.
  - destruct (IH (count_key k0 counts)) as (Hnd & Hpos & Hsum & Hlookup).
    split; [|split; [|split]].
    + intros Hc. by apply Hnd, count_key_NoDup.
    + intros Hc. by apply Hpos, count_key_positive.
    + rewrite Hsum, count_key_sum. lia.
    + intros k. rewrite Hlookup, lookup_count_key. unfold count_of. simpl.
      destruct (String.eqb k0 k); simpl; lia.
Qed.

Lemma in_lookup_count k n counts :
  NoDup (map fst counts) → Forall (fun g => 0 < snd g) counts →
  In (k, n) counts ↔ 0 < n ∧ lookup_count k counts = n.
Proof.
  induction counts as [|[k0 n0] rest IH]; simpl.
  - intros _ _. split; [done|lia].
  - intros [Hnot Hnd]%NoDup_cons [Hn0 Hpos]%Forall_cons. simpl in Hn0.
    destruct (String.eqb_spec k0 k) as [->|Hne].
    + split.
      * intros [[= ->]|Hin]; [done|]. exfalso. apply Hnot, list_elem_of_In.
        apply List.in_map_iff. by exists (k, n).
      * intros [_ ->]. by left.
    + rewrite <- IH; [|done..]. split; [|by right].
      intros [[= -> ->]|Hin]; done.
Qed.

Lemma count_of_map {A} (f : A → string) k (l : list A) :
  count_of k (map f l) = length (List.filter (fun x => String.eqb (f x) k) l).
Proof.
  unfold count_of. induction l as [|x l IH]; [done|]. simpl.
  destruct (String.eqb (f x) k); simpl; by rewrite IH.
Qed.

Lemma lookup_retailer_count retailer db :
  lookup_count retailer (get_product_count_by_retailer db)
  = length (rows_of_retailer retailer db).
Proof.
  unfold get_product_count_by_retailer, group_counts.
  destruct (group_counts_fold (map col_retailer (products db)) [])
    as (_ & _ & _ & Hlookup).
  rewrite Hlookup. simpl. apply count_of_map.
Qed.

(** X7: get_product_count_by_retailer has one key for every retailer
    that has a row, and none else; the count under a key is the number of
    the rows of that retailer; and the counts add up to the total number
    of products that get_database_stats reports. *)
Theorem retailer_counts_are_counts db :
  let counts := get_product_count_by_retailer db in
  NoDup (map fst counts)
  ∧ (∀ retailer n,
       In (retailer, n) counts ↔ 0 < n ∧ length (rows_of_retailer retailer db) = n)
  ∧ retailer_counts (get_database_stats db) = counts
  ∧ list_sum (map snd counts) = total_products (get_database_stats db).
Proof.
  cbv zeta.
  destruct (group_counts_fold (map col_retailer (products db)) [])
    as (Hnd & Hpos & Hsum & _).
  specialize (Hnd (NoDup_nil_2)). specialize (Hpos (Forall_nil_2 _)).
  split; [done|]. split; [|split; [done|]].
  - intros retailer n. rewrite <- lookup_retailer_count.
    by apply in_lookup_count.
  - unfold get_product_count_by_retailer, group_counts. rewrite Hsum. simpl.
    apply length_map.
Qed.

(** X8: find_products with a retailer as its only argument reports as
    total the count that get_product_count_by_retailer gives for this
    retailer (0 when the retailer is not a key), and every record it
    returns is the data of a row of this retailer; this for every limit
    and offset that fit 64 bits, the default 100 and 0 among them, while
    with another limit or offset the call returns ([], 0). *)
Theorem find_by_retailer_counts retailer limit offset db :
  retailer ≠ "" → 3 ≤ SQLITE_MAX_VARIABLE_NUMBER →
  let result := find_products None (Some retailer) None None None None
                  limit offset db in
  (if int64 limit && int64 offset
   then snd result = lookup_count retailer (get_product_count_by_retailer db)
   else result = ([], 0))
  ∧ ∀ product_data, In product_data (fst result) →
      ∃ r, In r (rows_of_retailer retailer db) ∧ col_data r = product_data.
Proof.
  intros Hname Hmax. cbv zeta. rewrite lookup_retailer_count.
  unfold find_products, filter_clauses. simpl.
  apply String.eqb_neq in Hname. rewrite Hname. simpl.
  unfold run_queries. simpl.
  destruct (Nat.ltb_spec SQLITE_MAX_VARIABLE_NUMBER 3) as [|_]; [lia|].
  destruct (int64 limit && int64 offset); simpl; [|done].
  assert (Hsel : List.filter
                   (where_sql [fun r => String.eqb (col_retailer r) retailer])
                   (products db)
                 = rows_of_retailer retailer db).
  { apply List.filter_ext. intros r. simpl. apply andb_true_r. }
  rewrite Hsel. split; [done|].
  intros product_data Hin. apply List.in_map_iff in Hin as (r & Hdata & Hin).
  exists r. split; [|done].
  apply in_limit_offset in Hin. by rewrite in_order_by in Hin.
Qed.

(** *** The pages of find_products *)

Lemma int64_range z : (- 2 ^ 63 <= z < 2 ^ 63)%Z → int64 z = true.
Proof.
  intros [Hlo Hhi]. unfold int64.
  apply andb_true_iff. split; [by apply Z.leb_le|by apply Z.ltb_lt].
Qed.

Lemma order_by_nil limit offset : order_by_updated_desc limit offset [] = [].
Proof. apply Permutation_nil. symmetry. apply order_by_permutation. Qed.

(** All the calls of find_products with the same query and filters select
    the same rows of the table, and cut their pages from these rows put in
    order. *)
Lemma find_products_rows query retailer category brand min_price max_price db :
  ∃ clause : product_row → bool,
    ∀ limit offset,
      find_products query retailer category brand min_price max_price
        limit offset db
      = if int64 limit && int64 offset
        then (map col_data
                (limit_offset limit offset
                   (order_by_updated_desc limit offset
                      (List.filter clause (products db)))),
              length (List.filter clause (products db)))
        else ([], 0).
Proof.
  assert (Hnone : ∃ clause : product_row → bool,
            ∀ limit offset : Z,
              (@nil dict, 0)
              = if int64 limit && int64 offset
                then (map col_data
                        (limit_offset limit offset
                           (order_by_updated_desc limit offset
                              (List.filter clause (products db)))),
                      length (List.filter clause (products db)))
                else ([], 0)).
  { exists (fun _ => false). intros limit offset.
    assert (Hnil : List.filter (fun _ : product_row => false) (products db) = []).
    { induction (products db) as [|r rows IH]; [done|]. exact IH. }
    rewrite Hnil, order_by_nil, limit_offset_nil.
    by destruct (int64 limit && int64 offset). }
  assert (Hrun : ∀ clauses n, ∃ clause : product_row → bool,
            ∀ limit offset,
              run_queries clauses n limit offset db
              = if int64 limit && int64 offset
                then (map col_data
                        (limit_offset limit offset
                           (order_by_updated_desc limit offset
                              (List.filter clause (products db)))),
                      length (List.filter clause (products db)))
                else ([], 0)).
  { intros clauses n. unfold run_queries.
    destruct (SQLITE_MAX_VARIABLE_NUMBER <? n + 2); [exact Hnone|].
    exists (where_sql clauses). intros limit offset.
    by destruct (int64 limit && int64 offset). }
  unfold find_products. destruct (given query); [|apply Hrun].
  destruct (fts5_match _) as [matches|]; [|exact Hnone].
  destruct (map fts_id _); [exact Hnone|apply Hrun].
Qed.

(** Rows of which no two were updated in the same second can be put
    newest first in one way only. *)
Lemma newest_first_unique rows rows' :
  Permutation rows rows' → newest_first rows → newest_first rows' →
  NoDup (map col_updated_at rows) → rows = rows'.
Proof.
  revert rows'. induction rows as [|a rows IH]; intros rows' Hperm Hs Hs' Hnd.
  - by apply Permutation_nil in Hperm.
  - destruct rows' as [|b rows'].
    { symmetry in Hperm. by apply Permutation_nil in Hperm. }
    apply StronglySorted_inv in Hs as [Hs Ha].
    apply StronglySorted_inv in Hs' as [Hs' Hb].
    apply NoDup_cons in Hnd as [Hnot Hnd].
    assert (Hab : a = b).
    { assert (Hina : In a (b :: rows')).
      { eapply Permutation_in; [exact Hperm|]. by left. }
      assert (Hinb : In b (a :: rows)).
      { eapply Permutation_in; [symmetry; exact Hperm|]. by left. }
      destruct Hina as [->|Hina]; [done|].
      destruct Hinb as [->|Hinb]; [done|].
      rewrite List.Forall_forall in Ha, Hb.
      specialize (Ha b Hinb). specialize (Hb a Hina). simpl in Ha, Hb.
      exfalso. apply Hnot. apply list_elem_of_In, List.in_map_iff.
      exists b. split; [lia|done]. }
    subst b. f_equal. apply IH; [|done|done|done].
    by apply Permutation_cons_inv in Hperm.
Qed.

(** X9: the pages of find_products join, when no two rows of the table
    were last written in the same second (ORDER BY leaves the order of
    such rows open) and the limits and offsets fit 64 bits: for one query
    and one set of filters, the page of [a] records at offset [o]
    followed by the page of [b] records at offset [o + a] is the page of
    [a + b] records at offset [o], so paging through a result loses no
    record and repeats none; and every page reports the same total
    count. *)
Theorem find_products_pages_join query retailer category brand min_price max_price
    (a b o : Z) db :
  (0 <= a)%Z → (0 <= b)%Z → (0 <= o)%Z → (o + a + b < 2 ^ 63)%Z →
  NoDup (map col_updated_at (products db)) →
  let find := fun limit offset =>
    find_products query retailer category brand min_price max_price limit offset db in
  fst (find a o) ++ fst (find b (o + a)%Z) = fst (find (a + b)%Z o)
  ∧ ∀ limit offset limit' offset',
      int64 limit = true → int64 offset = true →
      int64 limit' = true → int64 offset' = true →
      snd (find limit offset) = snd (find limit' offset').
Proof.
  intros Ha Hb Ho Hmax Hnd. cbv zeta.
  destruct (find_products_rows query retailer category brand min_price max_price db)
    as (clause & Hfind).
  rewrite !Hfind. split.
  - assert (H63 : (0 < 2 ^ 63)%Z) by done.
    rewrite !int64_range by lia. simpl.
    set (selected := List.filter clause (products db)).
    assert (Hsame : ∀ limit offset,
              order_by_updated_desc limit offset selected
              = order_by_updated_desc 0 0 selected).
    { intros limit offset. apply newest_first_unique.
      - by rewrite !order_by_permutation.
      - apply order_by_sorted.
      - apply order_by_sorted.
      - apply NoDup_ListNoDup. eapply Permutation_NoDup.
        + apply Permutation_map. symmetry. apply order_by_permutation.
        + apply NoDup_ListNoDup. by apply NoDup_map_filter. }
    rewrite (Hsame a o), (Hsame b (o + a)%Z), (Hsame (a + b)%Z o).
    rewrite <- map_app. f_equal. unfold limit_offset.
    destruct (Z.ltb_spec a 0); [lia|]. destruct (Z.ltb_spec b 0); [lia|].
    destruct (Z.ltb_spec (a + b) 0); [lia|].
    rewrite !Z2Nat.inj_add by lia. rewrite <- drop_drop. apply take_take_drop.
  - intros limit offset limit' offset' Hl Ho' Hl' Ho''. rewrite !Hfind.
    by rewrite Hl, Ho', Hl', Ho''.
Qed.

(** X10: whatever the query and the filters, find_products returns the
    data of rows of the table, most recently updated first, not more of
    them than the limit (when the limit is not negative) and not more
    than the total count it reports. *)
Theorem find_products_newest_first query retailer category brand min_price max_price
    limit offset db :
  let result := find_products query retailer category brand min_price max_price
                  limit offset db in
  (∃ page, fst result = map col_data page
           ∧ newest_first page
           ∧ ∀ r, In r page → In r (products db))
  ∧ length (fst result) ≤ snd result
  ∧ snd result ≤ length (products db)
  ∧ ((0 <= limit)%Z → length (fst result) ≤ Z.to_nat limit).
Proof.
  cbv zeta.
  destruct (find_products_rows query retailer category brand min_price max_price db)
    as (clause & Hfind).
  rewrite Hfind. destruct (int64 limit && int64 offset); simpl.
  - set (rows := order_by_updated_desc limit offset
                   (List.filter clause (products db))).
    rewrite length_map.
    destruct (limit_offset_length limit offset rows) as [Hlen Hlimit].
    unfold rows in Hlen at 2. rewrite length_order_by in Hlen.
    pose proof (List.filter_length_le clause (products db)) as Htable.
    split; [|split; [done|split; [done|done]]].
    exists (limit_offset limit offset rows). split; [done|].
    split; [apply limit_offset_sorted, order_by_sorted|].
    intros r Hr. apply in_limit_offset in Hr. unfold rows in Hr.
    rewrite in_order_by in Hr. by apply List.filter_In in Hr as [Hr _].
  - split; [|repeat split; lia].
    exists []. split; [done|]. split; [constructor|done].
Qed.

(** *** The two timestamps of a row *)

Lemma derive_id_clock product_data url db :
  clock db ≤ clock (snd (derive_id product_data url db)).
Proof.
  unfold derive_id.
  destruct (truthy (get product_data "id" (JStr ""))); [done|].
  destruct url; try done. destruct (negb _); [done|].
  unfold bind, time_millis, ret. simpl. lia.
Qed.

Lemma written_row_times v row e db clk :
  as_text v = Some (col_id row) → primary_key db →
  ∃ r', rows_with (col_id row) (written v row e db clk) = [r']
        ∧ col_data r' = col_data row
        ∧ col_updated_at r' = col_updated_at row
        ∧ (∀ r, In r (products db) → col_id r = col_id row →
                col_created_at r' = col_created_at r)
        ∧ (get_product_by_id (col_id row) db = None →
           col_created_at r' = col_created_at row).
Proof.
  intros Hv Hpk. unfold written, rows_with. simpl.
  rewrite (existsb_id_is v _ _ Hv). fold (has_id (col_id row)).
  destruct (existsb (has_id (col_id row)) (products db)) eqn:Hex.
  - destruct (filter_unique_id _ _ Hpk Hex) as (r0 & Hr0 & Hid0).
    rewrite filter_map_update, Hr0. simpl. exists (update_row row r0).
    assert (Hin0 : In r0 (products db)).
    { apply (List.filter_In (has_id (col_id row))). rewrite Hr0. by left. }
    unfold update_row. rewrite Hid0, String.eqb_refl. simpl.
    split; [done|]. split; [done|]. split; [done|]. split.
    + intros r Hin Hid. f_equal. eapply NoDup_map_eq; [exact Hpk|done..|congruence].
    + rewrite get_product_by_id_rows. unfold rows_with.
      fold (has_id (col_id row)). by rewrite Hr0.
  - rewrite List.filter_app, (filter_none_existsb _ _ Hex). simpl.
    unfold has_id at 1. rewrite String.eqb_refl. exists row.
    split; [done|]. split; [done|]. split; [done|]. split; [|done].
    intros r Hin Hid.
    assert (existsb (has_id (col_id row)) (products db) = true); [|congruence].
    apply existsb_exists. exists r. split; [done|]. by apply String.eqb_eq.
Qed.

(** X11: a successful upsert_product leaves exactly one row under the
    id of the record, with the record as its data and the time of the
    call as updated_at; when the id had a row before, created_at is the
    one of that row (an update never changes it), and when the id was
    new, created_at is the time of the call too. *)
Theorem upsert_keeps_created_at product_data pid i db db' :
  primary_key db →
  upsert_product product_data db = (true, db') →
  fst (derive_id product_data (get product_data "url" (JStr "")) db) = Ok pid →
  row_id_of pid = Some i →
  ∃ r' n, rows_with i db' = [r']
          ∧ col_data r' = product_data
          ∧ clock db ≤ n ∧ col_updated_at r' = (time_ms n / 1000)%Z
          ∧ (∀ r, In r (products db) → col_id r = i →
                  col_created_at r' = col_created_at r)
          ∧ (get_product_by_id i db = None →
             col_created_at r' = col_updated_at r').
Proof.
  intros Hpk Hupsert Hpid Hi.
  apply upsert_product_true in Hupsert as [_ [pid' dbi v row e Hid Hv Hrow He ->]].
  rewrite Hid in Hpid. injection Hpid as ->.
  destruct (bind_row_inv _ _ _ _ _ _ _ _ _ _ _ _ Hrow).
  rewrite Hv in adapt_id. injection adapt_id as <-.
  unfold row_id_of in Hi. rewrite Hv, text_id in Hi. injection Hi as <-.
  destruct (written_row_times v row e db (S (clock dbi)) text_id Hpk)
    as (r' & Hrows & Hdata' & Hupd & Hold & Hnew).
  exists r', (clock dbi). split; [done|]. split; [congruence|]. split.
  { pose proof (derive_id_clock product_data (get product_data "url" (JStr "")) db).
    by rewrite Hid in *. }
  split; [congruence|]. split; [done|].
  intros Hnone. rewrite Hnew, Hupd; [congruence|done].
Qed.

(** *** The statistics *)

Lemma in_insert_count x g sorted :
  In x (insert_count g sorted) ↔ x = g ∨ In x sorted.
Proof.
  induction sorted as [|g' rest IH]; simpl; [intuition congruence|].
  destruct (snd g' <? snd g); simpl; [intuition congruence|]. rewrite IH. tauto.
Qed.

Lemma in_order_by_count x groups :
  In x (order_by_count_desc groups) ↔ In x groups.
Proof.
  induction groups as [|g rest IH]; simpl; [done|].
  rewrite in_insert_count, IH. split; intros [->|Hx]; auto.
Qed.

Lemma insert_count_sorted g sorted :
  largest_first sorted → largest_first (insert_count g sorted).
Proof.
  unfold largest_first. induction 1 as [|g' rest Hrest IH Hall]; simpl.
  - repeat constructor.
  - destruct (Nat.ltb_spec (snd g') (snd g)) as [Hlt|Hge].
    + constructor; [by constructor|]. constructor; [lia|].
      eapply Forall_impl; [exact Hall|]. simpl. intros x Hx. lia.
    + constructor; [done|]. apply List.Forall_forall. intros x Hx.
      apply in_insert_count in Hx as [->|Hx]; [lia|].
      by apply (proj1 (List.Forall_forall _ _) Hall).
Qed.

Lemma order_by_count_sorted groups : largest_first (order_by_count_desc groups).
Proof.
  induction groups as [|g rest IH]; simpl; [constructor|].
  by apply insert_count_sorted.
Qed.

Lemma insert_count_keys_NoDup g sorted :
  ¬ In (fst g) (map fst sorted) → NoDup (map fst sorted) →
  NoDup (map fst (insert_count g sorted)).
Proof.
  induction sorted as [|g' rest IH]; simpl.
  - intros _ _. apply NoDup_singleton.
  - intros Hnot [Hnot' Hnd]%NoDup_cons.
    destruct (snd g' <? snd g); simpl.
    + apply NoDup_cons. split; [by rewrite list_elem_of_In|].
      apply NoDup_cons. done.
    + apply NoDup_cons. split; [|apply IH; tauto].
      rewrite list_elem_of_In, List.in_map_iff. intros (x & Hx & Hin).
      apply in_insert_count in Hin as [->|Hin]; [apply Hnot; by left|].
      apply Hnot', list_elem_of_In, List.in_map_iff. by exists x.
Qed.

Lemma order_by_count_NoDup groups :
  NoDup (map fst groups) → NoDup (map fst (order_by_count_desc groups)).
Proof.
  induction groups as [|g rest IH]; simpl; [done|].
  intros [Hnot Hnd]%NoDup_cons. apply insert_count_keys_NoDup; [|by apply IH].
  rewrite List.in_map_iff. intros (x & Hx & Hin). rewrite in_order_by_count in Hin.
  apply Hnot, list_elem_of_In, List.in_map_iff. by exists x.
Qed.

Lemma count_of_column column c db :
  c ≠ "" →
  count_of c (omap (fun r => not_empty (column r)) (products db))
  = length (rows_in_group column c db).
Proof.
  intros Hc. unfold count_of, rows_in_group.
  induction (products db) as [|r rows IH]; [done|]. simpl.
  destruct (column r) as [s|]; simpl; [|done].
  destruct (String.eqb_spec s "") as [->|Hs]; simpl.
  - destruct c; [done|]. exact IH.
  - destruct (String.eqb s c); simpl; [f_equal|]; exact IH.
Qed.

Lemma count_of_empty column db :
  count_of "" (omap (fun r => not_empty (column r)) (products db)) = 0.
Proof.
  unfold count_of. induction (products db) as [|r rows IH]; [done|]. simpl.
  destruct (column r) as [s|]; simpl; [|done].
  destruct (String.eqb_spec s "") as [->|Hs]; simpl; [done|].
  apply String.eqb_neq in Hs. by rewrite Hs.
Qed.

(** The groups of a column before they are ordered and cut. *)
Lemma column_groups column db :
  let groups := group_counts (omap (fun r => not_empty (column r)) (products db)) in
  NoDup (map fst groups)
  ∧ ∀ c n, In (c, n) groups
           ↔ c ≠ "" ∧ 0 < n ∧ length (rows_in_group column c db) = n.
Proof.
  cbv zeta. unfold group_counts.
  destruct (group_counts_fold (omap (fun r => not_empty (column r)) (products db)) [])
    as (Hnd & Hpos & _ & Hlookup).
  specialize (Hnd (NoDup_nil_2)). specialize (Hpos (Forall_nil_2 _)).
  split; [done|]. intros c n. rewrite (in_lookup_count _ _ _ Hnd Hpos), Hlookup.
  simpl. destruct (String.eqb_spec c "") as [->|Hc].
  - rewrite count_of_empty. split; [lia|]. by intros [].
  - rewrite count_of_column by done. tauto.
Qed.

(** X12: the top categories and the top brands of get_database_stats
    are at most ten in number, each a non-empty text with the number of
    the rows that hold it, which is not zero; no text is listed twice;
    they stand with the largest count first; and a text that is left out
    has no more rows than any text that is listed. *)
Theorem top_groups_are_top column db :
  let top := top_groups column db in
  top_categories (get_database_stats db) = top_groups col_category db
  ∧ top_brands (get_database_stats db) = top_groups col_brand db
  ∧ length top ≤ 10
  ∧ NoDup (map fst top)
  ∧ largest_first top
  ∧ (∀ c n, In (c, n) top →
            c ≠ "" ∧ 0 < n ∧ length (rows_in_group column c db) = n)
  ∧ (∀ c, c ≠ "" → ¬ In c (map fst top) →
          ∀ c' n', In (c', n') top → length (rows_in_group column c db) ≤ n').
Proof.
  cbv zeta. split; [done|]. split; [done|].
  destruct (column_groups column db) as [Hnd Hgroups].
  unfold top_groups.
  set (groups := group_counts (omap (fun r => not_empty (column r)) (products db)))
    in *.
  pose proof (order_by_count_sorted groups) as Hsorted.
  pose proof (order_by_count_NoDup groups Hnd) as Hnd'.
  set (sorted := order_by_count_desc groups) in *.
  assert (Hin : ∀ x, In x (take 10 sorted) → In x groups).
  { intros x Hx. apply in_order_by_count. fold sorted.
    rewrite <- (take_drop 10 sorted). apply List.in_app_iff. by left. }
  split; [rewrite length_take; lia|]. split; [|split; [|split]].
  - rewrite <- (take_drop 10 sorted), map_app in Hnd'.
    by apply NoDup_app in Hnd' as [Hnd' _].
  - unfold largest_first in *. rewrite <- (take_drop 10 sorted) in Hsorted.
    by apply StronglySorted_app_1_l in Hsorted.
  - intros c n Hc. by apply Hgroups, Hin.
  - intros c Hc Hout c' n' Hc'.
    destruct (length (rows_in_group column c db)) as [|m] eqn:Hcount; [lia|].
    assert (Hgroup : In (c, S m) sorted).
    { apply in_order_by_count, Hgroups. split; [done|]. split; [lia|done]. }
    rewrite <- (take_drop 10 sorted) in Hgroup, Hsorted.
    apply List.in_app_iff in Hgroup as [Hgroup|Hgroup].
    + exfalso. apply Hout, List.in_map_iff. by exists (c, S m).
    + apply (StronglySorted_app_1_elem_of _ _ _ (c', n') (c, S m)) in Hsorted;
        [done|by apply list_elem_of_In..].
Qed.

Lemma max_updated_at_spec rows :
  match max_updated_at rows with
  | None => rows = []
  | Some t => (∃ r, In r rows ∧ col_updated_at r = t)
              ∧ ∀ r, In r rows → (col_updated_at r <= t)%Z
  end.
Proof.
  induction rows as [|r rows IH]; [done|]. simpl.
  destruct (max_updated_at rows) as [t|].
  - destruct IH as [(r0 & Hin0 & Ht) Hmax]. split.
    + destruct (Z.max_spec (col_updated_at r) t) as [[_ ->]|[_ ->]];
        [exists r0|exists r]; auto.
    + intros x [<-|Hx]; [lia|]. specialize (Hmax x Hx). lia.
  - subst rows. split; [exists r; auto|]. intros x [<-|[]]. lia.
Qed.

(** The time that get_database_stats reports as last_updated is
    the updated_at of a row and no row was updated after it; nothing is
    reported when the table is empty, and also when the latest updated_at
    is 0, which tests false. *)
Lemma last_updated_is_latest db :
  match last_updated (get_database_stats db) with
  | Some t =>
      t ≠ 0%Z
      ∧ (∃ r, In r (products db) ∧ col_updated_at r = t)
      ∧ ∀ r, In r (products db) → (col_updated_at r <= t)%Z
  | None =>
      products db = []
      ∨ ((∃ r, In r (products db) ∧ col_updated_at r = 0%Z)
         ∧ ∀ r, In r (products db) → (col_updated_at r <= 0)%Z)
  end.
Proof.
  simpl. pose proof (max_updated_at_spec (products db)) as Hmax.
  destruct (max_updated_at (products db)) as [t|]; [|by left].
  destruct (Z.eqb_spec t 0) as [->|Hne]; [by right|done].
Qed.

End Props.

(** *** Examples *)

Import Demo.

Lemma null_title_or_retailer_refused_witness :
  lookup_key untitled_product "title" = Some JNull
  ∧ fst (@upsert_product demo_engine untitled_product small_store) = false
  ∧ fst (@bulk_upsert_products demo_engine [untitled_product] small_store) = (0, 1).
Proof.
  destruct (@null_title_or_retailer_refused demo_engine untitled_product small_store)
    as (Hverdict & _ & _ & Hcount); [left; reflexivity|].
  split; [reflexivity|]. split; assumption.
Defined.

Lemma store_stays_in_sync_witness :
  let ops := [Upsert test_product; BulkUpsert mixed_batch; Delete "123";
              ClearRetailer "Shop"] in
  @in_sync demo_engine empty_db
  ∧ forallb text_identities ops = true
  ∧ @in_sync demo_engine (foldl (fun d op => @apply_op demo_engine op d) empty_db ops).
Proof.
  intros ops.
  assert (Hempty : @in_sync demo_engine empty_db).
  { split; [constructor|]. split; [intros e []|]. intros i. constructor. }
  destruct (@store_stays_in_sync demo_engine ops empty_db Hempty) as [Hsync _];
    [reflexivity|].
  split; [exact Hempty|]. split; [reflexivity|exact Hsync].
Defined.

Lemma delete_stored_product_witness :
  let db' := snd (@upsert_product demo_engine test_product empty_db) in
  @upsert_product demo_engine test_product empty_db = (true, db')
  ∧ get_product_by_id "123" db' = Some test_product
  ∧ fst (delete_product "123" db') = true
  ∧ get_product_by_id "123" (snd (delete_product "123" db')) = None.
Proof.
  intros db'.
  destruct (@delete_stored_product demo_engine test_product "123" empty_db db')
    as (Hget & Hdeleted & Hgone & _); [reflexivity|reflexivity|].
  split; [reflexivity|]. split; [exact Hget|]. split; assumption.
Defined.

Lemma find_by_retailer_counts_witness :
  "Shop" ≠ ""
  ∧ snd (@find_products demo_engine None (Some "Shop") None None None None 100 0
           small_store)
    = lookup_count "Shop" (get_product_count_by_retailer small_store).
Proof.
  destruct (@find_by_retailer_counts demo_engine "Shop" 100 0 small_store)
    as [Htotal _]; [discriminate|apply Nat.leb_le; reflexivity|].
  split; [discriminate|exact Htotal].
Defined.

Lemma find_products_pages_join_witness :
  NoDup (map col_updated_at (products small_store))
  ∧ (let find := fun limit offset =>
       @find_products demo_engine None None None None None None limit offset
         small_store in
     fst (find 1%Z 0%Z) ++ fst (find 2%Z 1%Z) = fst (find 3%Z 0%Z)).
Proof.
  assert (Hnd : NoDup (map col_updated_at (products small_store))).
  { vm_compute. repeat constructor; intros Hin; inversion Hin; subst;
      repeat match goal with
             | Hx : _ ∈ _ |- _ => inversion Hx; clear Hx; subst
             end. }
  split; [exact Hnd|].
  destruct (@find_products_pages_join demo_engine None None None None None None
              1 2 0 small_store) as [Hjoin _]; [lia|lia|lia|done|exact Hnd|].
  exact Hjoin.
Defined.

Lemma upsert_keeps_created_at_witness :
  let db := snd (@upsert_product demo_engine test_product empty_db) in
  let db' := snd (@upsert_product demo_engine test_product_again db) in
  primary_key db
  ∧ ∃ r r', products db = [r] ∧ rows_with "123" db' = [r']
            ∧ col_data r' = test_product_again
            ∧ col_created_at r' = col_created_at r.
Proof.
  intros db db'.
  assert (Hpk : primary_key db) by (apply NoDup_singleton).
  destruct (@upsert_keeps_created_at demo_engine test_product_again (JStr "123")
              "123" db db' Hpk)
    as (r' & n & Hrows & Hdata & _ & _ & Hold & _);
    [reflexivity|reflexivity|reflexivity|].
  split; [exact Hpk|].
  eexists. exists r'. split; [reflexivity|]. split; [exact Hrows|].
  split; [exact Hdata|]. apply Hold; [left|]; reflexivity.
Defined.

End StoreInvariants.

(** ** More on the crawler: what a run fetches, saves and counts *)

Module CrawlerRuns.
Import Py Crawler CrawlerProps.
Local Open Scope nat_scope.

(** The records written by _save_product_data, the calls of the fetch
    engine and the seconds slept, as a trace tells them. *)
Definition saved_products (events : list event) : list dict :=
  omap (fun e => match e with SaveProductData p => Some p | _ => None end) events.

Definition fetches (events : list event) : list (list string * bool) :=
  omap (fun e => match e with
                 | ArunMany urls cache_enabled _ => Some (urls, cache_enabled)
                 | _ => None
                 end) events.

Definition slept (events : list event) : nat :=
  list_sum (omap (fun e => match e with Sleep s => Some s | _ => None end) events).

(** The seconds of backoff that are left to a run whose retry counter
    is [n]: 5 for the first round, 10 for the second, 15 for the third. *)
Definition backoff_left (n : nat) : nat :=
  match n with
  | 0 => 30
  | 1 => 25
  | 2 => 15
  | _ => 0
  end.

(** The fetch engine answers with results for urls it was asked for. *)
Definition answers_what_was_asked `{FetchEngine} : Prop :=
  ∀ n urls cache_enabled delay crawl_results,
    arun_many n urls cache_enabled delay = Ok crawl_results →
    Forall (fun r => In (url r) urls) crawl_results.

(** The result was fetched and a record that is not empty was extracted
    from it. *)
Definition extracted `{FetchEngine} (r : CrawlResult) (product_data : dict) : Prop :=
  success r = true ∧ process_result r = Ok (Some product_data) ∧ product_data ≠ [].

Section Props.
Context `{FetchEngine}.

(** The loop over the results of a round: what it extracts it saves and
    counts as successful, and every other result gives a url to retry. *)
Lemma process_results_saved crawl_results : ∀ results retry_urls c,
  ∃ saved again,
    process_results crawl_results results retry_urls c
    = (results ++ saved, retry_urls ++ again,
       snd (process_results crawl_results results retry_urls c))
    ∧ let c' := snd (process_results crawl_results results retry_urls c) in
      trace c' = trace c ++ map SaveProductData saved
      ∧ successful (stats c') = successful (stats c) + length saved
      ∧ products_found (stats c') = products_found (stats c) + length saved
      ∧ failed (stats c') = failed (stats c) + length again
      ∧ length saved + length again = length crawl_results
      ∧ Forall (fun u => In u (map url crawl_results)) again
      ∧ Forall (fun d => d ≠ []) saved.
Proof.
  induction crawl_results as [|r rest IH]; intros results retry_urls c.
  { exists [], []. simpl. rewrite !app_nil_r. repeat split; done || lia. }
  assert (Hfail : ∀ c1, failed (stats c1) = S (failed (stats c)) →
            successful (stats c1) = successful (stats c) →
            products_found (stats c1) = products_found (stats c) →
            trace c1 = trace c →
            ∃ saved again,
              process_results rest results (retry_urls ++ [url r]) c1
              = (results ++ saved, retry_urls ++ again,
                 snd (process_results rest results (retry_urls ++ [url r]) c1))
              ∧ let c' := snd (process_results rest results
                                 (retry_urls ++ [url r]) c1) in
                trace c' = trace c ++ map SaveProductData saved
                ∧ successful (stats c') = successful (stats c) + length saved
                ∧ products_found (stats c') = products_found (stats c) + length saved
                ∧ failed (stats c') = failed (stats c) + length again
                ∧ length saved + length again = length (r :: rest)
                ∧ Forall (fun u => In u (map url (r :: rest))) again
                ∧ Forall (fun d => d ≠ []) saved).
  { intros c1 Hf Hs Hp Ht.
    destruct (IH results (retry_urls ++ [url r]) c1)
      as (saved & again & Heq & Htrace & Hsucc & Hfound & Hfailed & Hlen & Hurls
          & Hsaved).
    exists saved, (url r :: again). rewrite Heq at 1. rewrite <- app_assoc.
    split; [done|]. cbv zeta. rewrite Htrace, Hsucc, Hfound, Hfailed, Ht, Hs, Hp, Hf.
    simpl. repeat split; try done; try lia.
    constructor; [by left|]. eapply Forall_impl; [exact Hurls|]. simpl. auto. }
  cbn [process_results]. destruct (success r).
  - destruct (process_result r) as [[[|kv d]|]|]; try by apply Hfail.
    match goal with |- context [process_results rest ?a ?b ?c'] =>
      destruct (IH a b c')
        as (saved & again & Heq & Htrace & Hsucc & Hfound & Hfailed & Hlen & Hurls
            & Hsaved) end.
    exists ((kv :: d) :: saved), again. rewrite Heq at 1. rewrite <- app_assoc.
    split; [done|]. cbv zeta. rewrite Htrace, Hsucc, Hfound, Hfailed.
    simpl. rewrite <- app_assoc. repeat split; try done; try lia.
    + eapply Forall_impl; [exact Hurls|]. simpl. auto.
    + by constructor.
  - apply Hfail; by destruct (is_rate_limited (status_code r)).
Qed.

Lemma saved_products_app l1 l2 :
  saved_products (l1 ++ l2) = saved_products l1 ++ saved_products l2.
Proof. apply omap_app. Qed.

Lemma fetches_app l1 l2 : fetches (l1 ++ l2) = fetches l1 ++ fetches l2.
Proof. apply omap_app. Qed.

Lemma slept_app l1 l2 : slept (l1 ++ l2) = slept l1 + slept l2.
Proof. unfold slept. by rewrite omap_app, list_sum_app. Qed.

Lemma saved_products_saved saved :
  saved_products (map SaveProductData saved) = saved
  ∧ fetches (map SaveProductData saved) = []
  ∧ slept (map SaveProductData saved) = 0.
Proof.
  induction saved as [|d saved (IH1 & IH2 & IH3)]; [done|].
  split; [|split; [exact IH2|exact IH3]].
  unfold saved_products in *. simpl. f_equal. exact IH1.
Qed.

Lemma backoff_step n : n < 3 → 5 * S n + backoff_left (S n) = backoff_left n.
Proof. destruct n as [|[|[|n]]]; simpl; lia. Qed.

(** What one call of crawl_products adds to the trace and to the
    counters, whatever the fetch engine and the extractor do. *)
Lemma crawl_products_account : ∀ c urls,
  let final := crawl_products urls c in
  ∃ events,
    trace (snd final) = trace c ++ events
    ∧ saved_products events = fst final
    ∧ slept events ≤ backoff_left (retry_count (stats c))
    ∧ length (fetches events) ≤ S (3 - retry_count (stats c))
    ∧ calls (snd final) = calls c + length (fetches events)
    ∧ Forall (fun f => snd f = last_run_json c) (fetches events)
    ∧ successful (stats (snd final)) = successful (stats c) + length (fst final)
    ∧ products_found (stats (snd final))
      = products_found (stats c) + length (fst final)
    ∧ Forall (fun d => d ≠ []) (fst final)
    ∧ (urls ≠ [] → last_run_json (snd final) = true
                   ∧ ∃ rest, fetches events = (urls, last_run_json c) :: rest)
    ∧ (urls = [] → events = []).
Proof.
  induction c as [c IH] using retry_rounds_ind. intros urls.
  cbv zeta. rewrite crawl_products_unfold. destruct urls as [|u us].
  { exists []. simpl. rewrite app_nil_r.
    repeat split; try done; unfold slept; simpl; lia. }
  unfold fetch.
  destruct (arun_many (calls c) (u :: us) (last_run_json c) (base_delay c))
    as [crawl_results|ex].
  2:{ exists [ArunMany (u :: us) (last_run_json c) (base_delay c); SaveLastRun].
      simpl. rewrite <- app_assoc.
      repeat split; try done; try (unfold slept; simpl; lia).
      - by repeat constructor.
      - by eexists. }
  match goal with |- context [process_results crawl_results [] [] ?c1] =>
    destruct (process_results_saved crawl_results [] [] c1)
      as (saved & again & Heq & Htrace & Hsucc & Hfound & _ & _ & _ & Hsaved);
    pose proof (process_results_frame crawl_results [] [] c1) as Hframe;
    pose proof (process_results_retry_count crawl_results [] [] c1) as Hcount;
    destruct (process_results crawl_results [] [] c1) as [[results retry_urls] c2]
  end.
  simpl in Heq, Htrace, Hsucc, Hfound, Hframe, Hcount.
  injection Heq as -> ->.
  destruct Hframe as (Hd & Hl & Hc & _ & _).
  assert (Hlast : ∃ events,
    trace (save_last_run c2) = trace c ++ events
    ∧ saved_products events = saved
    ∧ slept events ≤ backoff_left (retry_count (stats c))
    ∧ length (fetches events) ≤ S (3 - retry_count (stats c))
    ∧ calls (save_last_run c2) = calls c + length (fetches events)
    ∧ Forall (fun f => snd f = last_run_json c) (fetches events)
    ∧ successful (stats (save_last_run c2)) = successful (stats c) + length saved
    ∧ products_found (stats (save_last_run c2))
      = products_found (stats c) + length saved
    ∧ Forall (fun d => d ≠ []) saved
    ∧ (u :: us ≠ [] → last_run_json (save_last_run c2) = true
                      ∧ ∃ rest, fetches events = (u :: us, last_run_json c) :: rest)
    ∧ (u :: us = [] → events = [])).
  { destruct (saved_products_saved saved) as (Hs1 & Hs2 & Hs3).
    exists (ArunMany (u :: us) (last_run_json c) (base_delay c)
            :: map SaveProductData saved ++ [SaveLastRun]).
    simpl. rewrite Htrace, Hsucc, Hfound, Hc.
    rewrite <- !app_assoc. simpl.
    change (saved_products (?a :: ?l)) with (saved_products l).
    change (fetches (ArunMany ?a ?b ?d :: ?l)) with ((a, b) :: fetches l).
    change (slept (ArunMany ?a ?b ?d :: ?l)) with (slept l).
    rewrite saved_products_app, fetches_app, slept_app, Hs1, Hs2, Hs3.
    simpl. rewrite app_nil_r.
    repeat split; try done; try (unfold slept; simpl; lia).
    - by repeat constructor.
    - by eexists. }
  destruct again as [|r rs]; [exact Hlast|].
  destruct (Nat.ltb_spec (retry_count (stats c2)) 3) as [Hlt|Hge]; [|exact Hlast].
  clear Hlast.
  destruct (start_retry_spec c2) as (Hrc & _ & Htr & Hlr & Hcl).
  assert (successful (stats (start_retry c2)) = successful (stats c2)) as Hst1
    by done.
  assert (products_found (stats (start_retry c2)) = products_found (stats c2))
    as Hst2 by done.
  destruct (IH (start_retry c2)) with (urls := r :: rs)
    as (events & Ht' & Hsv' & Hsl' & Hfl' & Hcl' & Hca' & Hsu' & Hfo' & Hne' & Hlr'
        & _).
  { lia. } { rewrite Hrc. lia. }
  destruct (Hlr' ltac:(done)) as [_ [rest Hrest]].
  destruct (saved_products_saved saved) as (Hs1 & Hs2 & Hs3).
  rewrite Hrc in Hsl', Hfl'. rewrite Htr in Ht'. rewrite Hcl in Hcl'.
  rewrite Hlr in Hca'. rewrite Hst1 in Hsu'. rewrite Hst2 in Hfo'.
  rewrite Hcount in *.
  set (retried := crawl_products (r :: rs) (start_retry c2)) in *.
  exists (ArunMany (u :: us) (last_run_json c) (base_delay c)
          :: map SaveProductData saved
             ++ Sleep (5 * S (retry_count (stats c))) :: events ++ [SaveLastRun]).
  cbn [fst snd]. unfold save_last_run, with_delay.
  cbn [trace stats calls last_run_json].
  rewrite Ht', Htrace, Hcl', Hsu', Hfo', Hsucc, Hfound, Hc.
  change (saved_products (ArunMany ?a ?b ?d :: ?l)) with (saved_products l).
  change (fetches (ArunMany ?a ?b ?d :: ?l)) with ((a, b) :: fetches l).
  change (slept (ArunMany ?a ?b ?d :: ?l)) with (slept l).
  rewrite saved_products_app, fetches_app, slept_app, Hs1, Hs2, Hs3.
  change (saved_products (Sleep ?a :: ?l)) with (saved_products l).
  change (fetches (Sleep ?a :: ?l)) with (fetches l).
  change (slept (Sleep ?a :: ?l)) with (a + slept l).
  rewrite saved_products_app, fetches_app, slept_app.
  change (saved_products [SaveLastRun]) with (@nil dict).
  change (fetches [SaveLastRun]) with (@nil (list string * bool)).
  change (slept [SaveLastRun]) with 0.
  rewrite !app_nil_r, !length_app, Hsv'. cbn [app length].
  pose proof (backoff_step _ Hlt) as Hstep.
  split; [by rewrite <- !app_assoc|]. split; [done|].
  split; [lia|]. split; [lia|]. split; [lia|]. split.
  { constructor; [done|]. eapply Forall_impl; [exact Hca'|].
    cbn beta. intros f ->. done. }
  split; [lia|]. split; [lia|]. split; [apply Forall_app; by split|].
  split; [|done]. intros _. split; [done|]. by eexists.
Qed.

Lemma crawl_products_asked : answers_what_was_asked → ∀ c urls,
  ∃ events,
    trace (snd (crawl_products urls c)) = trace c ++ events
    ∧ Forall (fun f => ∀ x, In x (fst f) → In x urls) (fetches events).
Proof.
  intros Hasked. induction c as [c IH] using retry_rounds_ind. intros urls.
  rewrite crawl_products_unfold. destruct urls as [|u us].
  { exists []. simpl. by rewrite app_nil_r. }
  unfold fetch.
  destruct (arun_many (calls c) (u :: us) (last_run_json c) (base_delay c))
    as [crawl_results|ex] eqn:Hfetch.
  2:{ exists [ArunMany (u :: us) (last_run_json c) (base_delay c); SaveLastRun].
      simpl. rewrite <- app_assoc. split; [done|]. constructor; [by intros x Hx|constructor]. }
  apply Hasked in Hfetch.
  match goal with |- context [process_results crawl_results [] [] ?c1] =>
    destruct (process_results_saved crawl_results [] [] c1)
      as (saved & again & Heq & Htrace & _ & _ & _ & _ & Hagain & _);
    pose proof (process_results_retry_count crawl_results [] [] c1) as Hcount;
    destruct (process_results crawl_results [] [] c1) as [[results retry_urls] c2]
  end.
  simpl in Heq, Htrace, Hcount. injection Heq as -> ->.
  destruct (saved_products_saved saved) as (_ & Hs2 & _).
  assert (Hlast : ∃ events,
    trace (save_last_run c2) = trace c ++ events
    ∧ Forall (fun f => ∀ x, In x (fst f) → In x (u :: us)) (fetches events)).
  { exists (ArunMany (u :: us) (last_run_json c) (base_delay c)
            :: map SaveProductData saved ++ [SaveLastRun]).
    unfold save_last_run. cbn [trace]. rewrite Htrace.
    split; [by rewrite <- !app_assoc|].
    change (fetches (ArunMany ?a ?b ?d :: ?l)) with ((a, b) :: fetches l).
    rewrite fetches_app, Hs2. constructor; [by intros x Hx|constructor]. }
  destruct again as [|r rs]; [exact Hlast|].
  destruct (Nat.ltb_spec (retry_count (stats c2)) 3) as [Hlt|Hge]; [|exact Hlast].
  clear Hlast.
  destruct (start_retry_spec c2) as (Hrc & _ & Htr & _).
  destruct (IH (start_retry c2)) with (urls := r :: rs) as (events & Ht' & Hall).
  { lia. } { rewrite Hrc. lia. }
  rewrite Htr in Ht'.
  exists (ArunMany (u :: us) (last_run_json c) (base_delay c)
          :: map SaveProductData saved
             ++ Sleep (5 * S (retry_count (stats c2))) :: events ++ [SaveLastRun]).
  cbn [fst snd]. unfold save_last_run, with_delay. cbn [trace].
  rewrite Ht', Htrace. split; [by rewrite <- !app_assoc|].
  change (fetches (ArunMany ?a ?b ?d :: ?l)) with ((a, b) :: fetches l).
  rewrite fetches_app, Hs2.
  change (fetches (Sleep ?a :: ?l)) with (fetches l).
  rewrite fetches_app. change (fetches [SaveLastRun]) with (@nil (list string * bool)).
  rewrite app_nil_r. constructor; [done|]. cbn [app].
  eapply Forall_impl; [exact Hall|]. cbn beta. intros f Hf x Hx.
  specialize (Hf x Hx).
  apply (proj1 (List.Forall_forall _ _) Hagain) in Hf.
  apply List.in_map_iff in Hf as (result & <- & Hresult).
  by apply (proj1 (List.Forall_forall _ _) Hfetch).
Qed.

(** X14: however the site answers and whatever the extractor does, one
    call of crawl_products makes at most four calls of the fetch engine
    (one when the retry counter of the crawler has reached 3) and sleeps
    at most 30 seconds of backoff in all. *)
Theorem crawl_products_is_bounded urls c :
  let final := crawl_products urls c in
  ∃ events,
    trace (snd final) = trace c ++ events
    ∧ calls (snd final) = calls c + length (fetches events)
    ∧ length (fetches events) ≤ 4
    ∧ slept events ≤ 30
    ∧ (3 ≤ retry_count (stats c) → length (fetches events) ≤ 1 ∧ slept events = 0).
Proof.
  destruct (crawl_products_account c urls)
    as (events & Htrace & _ & Hslept & Hfetches & Hcalls & _).
  cbv zeta. exists events. split; [done|]. split; [done|].
  split; [lia|]. split.
  - destruct (retry_count (stats c)) as [|[|[|n]]]; simpl in Hslept; lia.
  - intros Hthree. split; [lia|].
    destruct (retry_count (stats c)) as [|[|[|n]]]; simpl in Hslept; lia.
Qed.

(** X15: the records that crawl_products returns are the records that
    it saved to the run directory, in the order in which it saved them;
    none of them is empty; and the counters successful and products_found
    both grow by their number. *)
Theorem returned_records_are_saved urls c :
  let final := crawl_products urls c in
  ∃ events,
    trace (snd final) = trace c ++ events
    ∧ saved_products events = fst final
    ∧ Forall (fun product_data => product_data ≠ []) (fst final)
    ∧ successful (stats (snd final)) = successful (stats c) + length (fst final)
    ∧ products_found (stats (snd final))
      = products_found (stats c) + length (fst final).
Proof.
  destruct (crawl_products_account c urls)
    as (events & Htrace & Hsaved & _ & _ & _ & _ & Hsucc & Hfound & Hne & _).
  cbv zeta. by exists events.
Qed.

(** X16: the cache mode is decided once for a call of crawl_products:
    every fetch of the call, the retry rounds included, runs with the
    cache enabled exactly when last_run.json was there before the call;
    and a call with urls always leaves last_run.json behind, even when
    the fetch engine raised, so that the next call runs with the cache
    enabled.  A call without urls does nothing. *)
Theorem cache_mode_is_fixed_per_call urls c :
  let final := crawl_products urls c in
  match urls with
  | [] => final = ([], c)
  | _ :: _ =>
      last_run_json (snd final) = true
      ∧ ∃ events rest,
          trace (snd final) = trace c ++ events
          ∧ fetches events = (urls, last_run_json c) :: rest
          ∧ Forall (fun f => snd f = last_run_json c) rest
  end.
Proof.
  cbv zeta. destruct urls as [|u us]; [by rewrite crawl_products_unfold|].
  destruct (crawl_products_account c (u :: us))
    as (events & Htrace & _ & _ & _ & _ & Hcache & _ & _ & _ & Hurls & _).
  destruct (Hurls ltac:(done)) as [Hlast [rest Hrest]].
  split; [done|]. exists events, rest. split; [done|]. split; [done|].
  rewrite Hrest in Hcache. by apply Forall_cons in Hcache as [_ Hcache].
Qed.

Lemma process_all_extracted crawl_results data :
  Forall2 extracted crawl_results data → ∀ results retry_urls c,
  ∃ c', process_results crawl_results results retry_urls c
        = (results ++ data, retry_urls, c')
        ∧ failed (stats c') = failed (stats c).
Proof.
  induction 1 as [|r d crawl_results data (Hsucc & Hdata & Hne) Hrest IH];
    intros results retry_urls c.
  - exists c. simpl. by rewrite app_nil_r.
  - cbn [process_results]. rewrite Hsucc, Hdata. destruct d as [|kv d]; [done|].
    match goal with |- context [process_results crawl_results ?a ?b ?c1] =>
      destruct (IH a b c1) as (c' & -> & Hfailed) end.
    exists c'. by rewrite <- app_assoc.
Qed.

(** X17: when the fetch engine answers the first fetch with results
    from each of which the extractor makes a record that is not empty,
    crawl_products makes that one fetch and no retry round: it returns
    these records in the order of the results, saves each of them, writes
    last_run.json, and counts no failure. *)
Theorem all_extracted_one_fetch urls c crawl_results data :
  urls ≠ [] →
  arun_many (calls c) urls (last_run_json c) (base_delay c) = Ok crawl_results →
  Forall2 extracted crawl_results data →
  let final := crawl_products urls c in
  fst final = data
  ∧ trace (snd final)
    = trace c ++ ArunMany urls (last_run_json c) (base_delay c)
                 :: map SaveProductData data ++ [SaveLastRun]
  ∧ calls (snd final) = S (calls c)
  ∧ retry_count (stats (snd final)) = retry_count (stats c)
  ∧ failed (stats (snd final)) = failed (stats c)
  ∧ successful (stats (snd final)) = successful (stats c) + length data
  ∧ urls_processed (stats (snd final)) = length crawl_results
  ∧ base_delay (snd final) = base_delay c.
Proof.
  intros Hurls Hfetch Hall. cbv zeta. rewrite crawl_products_unfold.
  destruct urls as [|u us]; [done|]. unfold fetch. rewrite Hfetch.
  match goal with |- context [process_results crawl_results [] [] ?c1] =>
    destruct (process_all_extracted crawl_results data Hall [] [] c1)
      as (c2 & Heq & Hfailed);
    destruct (process_results_saved crawl_results [] [] c1)
      as (saved & again & Heq' & Htrace & Hsucc & _);
    pose proof (process_results_frame crawl_results [] [] c1) as Hframe;
    pose proof (process_results_retry_count crawl_results [] [] c1) as Hcount
  end.
  rewrite Heq in Heq', Htrace, Hsucc, Hframe, Hcount.
  simpl in Heq', Htrace, Hsucc, Hframe, Hcount, Hfailed.
  injection Heq' as <- _. rewrite Heq. simpl.
  destruct Hframe as (Hd & _ & Hc & Hp & _).
  rewrite Htrace, <- !app_assoc. done.
Qed.

(** X18: when the fetch engine answers with results for urls it was
    asked for, crawl_products never asks for a url that is not among the
    urls it was called with: every retry round fetches urls of the call
    only. *)
Theorem retries_stay_within_urls urls c :
  answers_what_was_asked →
  ∃ events,
    trace (snd (crawl_products urls c)) = trace c ++ events
    ∧ ∀ fetched cache_enabled u,
        In (fetched, cache_enabled) (fetches events) → In u fetched → In u urls.
Proof.
  intros Hasked. destruct (crawl_products_asked Hasked c urls) as (events & Ht & Hall).
  exists events. split; [done|]. intros fetched cache_enabled u Hin Hu.
  by apply (proj1 (List.Forall_forall _ _) Hall (fetched, cache_enabled) Hin).
Qed.

Lemma fetch_sitemap_in listed url_filter max_urls u :
  In u (fetch_sitemap (Some listed) url_filter max_urls) →
  url_filter u = true ∧ In u listed.
Proof.
  simpl. intros Hu.
  assert (In u (List.filter url_filter listed)) as Hin.
  { destruct (_ && _); [|done].
    rewrite <- (take_drop (Z.to_nat max_urls) (List.filter url_filter listed)).
    apply List.in_app_iff. by left. }
  apply List.filter_In in Hin. tauto.
Qed.

(** X19: fetch_sitemap returns urls of the sitemap that pass the filter
    of the retailer, in the order of the sitemap: the first max_urls of
    them when max_urls is positive, all of them when max_urls is zero or
    negative; and it returns no url when the sitemap could not be fetched
    or parsed. *)
Theorem fetch_sitemap_filters_and_limits sitemap url_filter max_urls :
  let urls := fetch_sitemap sitemap url_filter max_urls in
  match sitemap with
  | None => urls = []
  | Some listed =>
      (∃ rest, List.filter url_filter listed = urls ++ rest)
      ∧ (∀ u, In u urls → url_filter u = true ∧ In u listed)
      ∧ ((0 < max_urls)%Z →
         urls = take (Z.to_nat max_urls) (List.filter url_filter listed)
         ∧ length urls ≤ Z.to_nat max_urls)
      ∧ ((max_urls <= 0)%Z → urls = List.filter url_filter listed)
  end.
Proof.
  cbv zeta. destruct sitemap as [listed|]; [|done]. simpl.
  set (filtered := List.filter url_filter listed).
  assert (Hcut : (if (0 <? max_urls)%Z && (Z.of_nat (length filtered) >? max_urls)%Z
                  then take (Z.to_nat max_urls) filtered else filtered)
                 = if (0 <? max_urls)%Z then take (Z.to_nat max_urls) filtered
                   else filtered).
  { destruct (Z.ltb_spec 0 max_urls); simpl; [|done].
    destruct (Z.gtb_spec (Z.of_nat (length filtered)) max_urls); [done|].
    rewrite take_ge; [done|lia]. }
  rewrite Hcut. split; [|split; [|split]].
  - destruct (0 <? max_urls)%Z.
    + exists (drop (Z.to_nat max_urls) filtered). by rewrite take_drop.
    + exists []. by rewrite app_nil_r.
  - intros u Hu. apply (fetch_sitemap_in listed url_filter max_urls).
    simpl. fold filtered. by rewrite Hcut.
  - intros Hpos. destruct (Z.ltb_spec 0 max_urls); [|lia].
    split; [done|]. rewrite length_take. lia.
  - intros Hneg. by destruct (Z.ltb_spec 0 max_urls); [lia|].
Qed.

(** X20: a run of the crawler asks the site for nothing but urls that
    its sitemap lists and that pass the filter of the retailer, as long as
    the fetch engine answers with results for urls it was asked for; and
    when the sitemap gives no such url, the run makes no fetch at all and
    reports the counters as they were. *)
Theorem run_fetches_listed_urls sitemap url_filter max_urls c :
  answers_what_was_asked →
  let result := run sitemap url_filter max_urls c in
  fst result = get_summary (snd result)
  ∧ (fetch_sitemap sitemap url_filter max_urls = [] → snd result = c)
  ∧ ∃ events,
      trace (snd result) = trace c ++ events
      ∧ ∀ fetched cache_enabled u,
          In (fetched, cache_enabled) (fetches events) → In u fetched →
          url_filter u = true ∧ ∃ listed, sitemap = Some listed ∧ In u listed.
Proof.
  intros Hasked. cbv zeta. unfold run.
  destruct (fetch_sitemap sitemap url_filter max_urls) as [|u us] eqn:Hfetch.
  { simpl. split; [done|]. split; [done|]. exists []. rewrite app_nil_r.
    split; [done|]. by intros ? ? ? []. }
  cbn [fst snd]. split; [done|]. split; [done|].
  destruct (crawl_products_asked Hasked c (u :: us)) as (events & Ht & Hall).
  exists events. split; [done|]. intros fetched cache_enabled x Hin Hx.
  pose proof (proj1 (List.Forall_forall _ _) Hall (fetched, cache_enabled) Hin x Hx)
    as Hlisted.
  destruct sitemap as [listed|]; [|done]. rewrite <- Hfetch in Hlisted.
  destruct (fetch_sitemap_in _ _ _ _ Hlisted) as [Hok Hx'].
  split; [done|]. by exists listed.
Qed.

End Props.

(** *** Examples *)

Import Demo.

Lemma throttling_site_answers : @answers_what_was_asked throttling_site.
Proof.
  intros n urls cache_enabled delay crawl_results [= <-].
  apply List.Forall_forall. intros r Hr.
  apply List.in_map_iff in Hr as (u & <- & Hu). exact Hu.
Qed.

Lemma all_extracted_one_fetch_witness :
  let final := @crawl_products recovering_site two_urls second_call in
  two_urls ≠ []
  ∧ fst final = map (fun u => [("url", JStr u)]) two_urls
  ∧ calls (snd final) = 2
  ∧ failed (stats (snd final)) = 0.
Proof.
  destruct (@all_extracted_one_fetch recovering_site two_urls second_call
              (map (fun u => mk_result u true (Some 200%Z) "page") two_urls)
              (map (fun u => [("url", JStr u)]) two_urls))
    as (Hdata & _ & Hcalls & _ & Hfailed & _).
  - discriminate.
  - reflexivity.
  - repeat constructor; discriminate.
  - cbv zeta. split; [discriminate|]. split; [exact Hdata|].
    split; [exact Hcalls|exact Hfailed].
Defined.

Lemma retries_stay_within_urls_witness :
  @answers_what_was_asked throttling_site
  ∧ ∃ events,
      trace (snd (@crawl_products throttling_site two_urls
                    (new_crawler (1, 3)%Q false))) = [] ++ events
      ∧ ∀ fetched cache_enabled u,
          In (fetched, cache_enabled) (fetches events) → In u fetched →
          In u two_urls.
Proof.
  split; [exact throttling_site_answers|].
  exact (@retries_stay_within_urls throttling_site two_urls
           (new_crawler (1, 3)%Q false) throttling_site_answers).
Defined.

Lemma run_fetches_listed_urls_witness :
  let result := @run throttling_site (Some shop_sitemap)
                  RetailersConfig.checkers_url_filter 100
                  (new_crawler (3 # 2, 7 # 2)%Q false) in
  @answers_what_was_asked throttling_site
  ∧ fst result = get_summary (snd result)
  ∧ ∃ events,
      trace (snd result) = [] ++ events
      ∧ ∀ fetched cache_enabled u,
          In (fetched, cache_enabled) (fetches events) → In u fetched →
          RetailersConfig.checkers_url_filter u = true
          ∧ ∃ listed, Some shop_sitemap = Some listed ∧ In u listed.
Proof.
  destruct (@run_fetches_listed_urls throttling_site (Some shop_sitemap)
              RetailersConfig.checkers_url_filter 100
              (new_crawler (3 # 2, 7 # 2)%Q false) throttling_site_answers)
    as (Hsummary & _ & Hevents).
  cbv zeta. split; [exact throttling_site_answers|]. split; [exact Hsummary|].
  exact Hevents.
Defined.

End CrawlerRuns.

(** ** The name of a saved file and the id of the stored row *)

Module FileNames.
Import Py Database.

Section Props.
Context `{Engine}.

(** X21: the file that the crawler saves for a record and the row that
    the store keeps for it go by the same id when the record names itself
    by an id that tests true and is not the str unknown, and also when it
    has no id and its url does not end in a slash.  They part when the id
    is the empty str: the file is named by the empty str and the row by
    the last segment of the url. *)
Theorem file_id_is_store_id product_data u db :
  lookup_key product_data "url" = Some (JStr u) →
  let segment := last_part (split "/" u) in
  let file_id := Crawler.save_file_id product_data in
  let store_id := fst (derive_id product_data (JStr u) db) in
  match lookup_key product_data "id" with
  | None => segment ≠ "" → file_id = Ok (JStr segment) ∧ store_id = Ok (JStr segment)
  | Some product_id =>
      (truthy product_id = true → product_id ≠ JStr "unknown" →
       file_id = Ok product_id ∧ store_id = Ok product_id)
      ∧ (product_id = JStr "" → segment ≠ "" →
         file_id = Ok (JStr "") ∧ store_id = Ok (JStr segment))
  end.
Proof.
  intros Hurl. cbv zeta. unfold Crawler.save_file_id, derive_id, get. rewrite Hurl.
  destruct (lookup_key product_data "id") as [product_id|].
  - split.
    + intros Htrue Hknown. rewrite Htrue. split; [|done].
      destruct product_id as [| | | |s| |]; try done.
      destruct (String.eqb_spec s "unknown"); [congruence|done].
    + intros -> Hsegment. simpl. apply String.eqb_neq in Hsegment.
      by rewrite Hsegment.
  - intros Hsegment. simpl. apply String.eqb_neq in Hsegment. by rewrite Hsegment.
Qed.

End Props.

(** *** Examples *)

Import Demo.

Lemma file_id_is_store_id_witness :
  lookup_key test_product "url" = Some (JStr test_url)
  ∧ Crawler.save_file_id test_product = Ok (JStr "123")
  ∧ fst (@derive_id demo_engine test_product (JStr test_url) empty_db)
    = Ok (JStr "123").
Proof.
  pose proof (@file_id_is_store_id demo_engine test_product test_url empty_db
                eq_refl) as Hagree.
  split; [reflexivity|]. apply Hagree. discriminate.
Defined.

End FileNames.

(** ** More on the scheduler: what a run leaves, adding and removing jobs *)

Module SchedulerJobs.
Import Py Database Scheduler SchedulerProps.
Local Open Scope nat_scope.

(** What a loaded record has of the file it was read from: the retailer
    of the file, or the retailer of the job when the file names none, and
    every other key as the file has it. *)
Definition loaded_from (job : CrawlJob) (product_data loaded : dict) : Prop :=
  lookup_key loaded "retailer"
  = Some (default (JStr (retailer_name job)) (lookup_key product_data "retailer"))
  ∧ ∀ k, k ≠ "retailer" → lookup_key loaded k = lookup_key product_data k.

Lemma lookup_dict_set d k v : lookup_key (dict_set d k v) k = Some v.
Proof.
  induction d as [|[k' v'] d IH]; simpl.
  - by rewrite String.eqb_refl.
  - destruct (String.eqb k' k) eqn:Hk; simpl; [by rewrite String.eqb_refl|].
    by rewrite Hk.
Qed.

Lemma lookup_dict_set_other d k v k' :
  k' ≠ k → lookup_key (dict_set d k v) k' = lookup_key d k'.
Proof.
  intros Hne. induction d as [|[k0 v0] d IH]; simpl.
  - apply not_eq_sym, String.eqb_neq in Hne. by rewrite Hne.
  - destruct (String.eqb_spec k0 k) as [->|Hk0]; simpl.
    + apply not_eq_sym, String.eqb_neq in Hne. by rewrite Hne.
    + by rewrite IH.
Qed.

(** X22: _load_crawled_products returns one record for every file, in
    the order of the files; a record keeps the retailer of its file, gets
    the retailer of the job when the file names none, and keeps every
    other key; loading what was loaded changes nothing. *)
Theorem load_fills_retailer job files :
  let loaded := load_crawled_products job files in
  length loaded = length files
  ∧ Forall2 (loaded_from job) files loaded
  ∧ load_crawled_products job loaded = loaded.
Proof.
  cbv zeta. unfold load_crawled_products. split; [apply length_map|]. split.
  - induction files as [|p files IH]; simpl; constructor; [|exact IH].
    unfold loaded_from. destruct (lookup_key p "retailer") as [v|] eqn:Hp; simpl.
    + by rewrite Hp.
    + split; [apply lookup_dict_set|]. intros k Hk.
      by apply lookup_dict_set_other.
  - rewrite map_map. apply map_ext. intros p.
    destruct (lookup_key p "retailer") as [v|] eqn:Hp; [by rewrite Hp|].
    by rewrite lookup_dict_set.
Qed.

(** *** Adding and removing jobs *)

Lemma le_foldr_max k l : In k l → k ≤ foldr Nat.max 0 l.
Proof.
  induction l as [|x l IH]; [done|]. simpl. intros [->|Hin]; [lia|].
  specialize (IH Hin). lia.
Qed.

Lemma fresh_ref_is_fresh s : objects s !! fresh_ref s = None.
Proof.
  destruct (objects s !! fresh_ref s) as [job|] eqn:Hjob; [|done].
  apply elem_of_map_to_list in Hjob.
  assert (In (fresh_ref s) (map fst (map_to_list (objects s)))) as Hin.
  { apply List.in_map_iff. exists (fresh_ref s, job). split; [done|].
    by apply list_elem_of_In. }
  apply le_foldr_max in Hin. unfold fresh_ref in Hin at 1. lia.
Qed.

Lemma find_jobs_set js name ref :
  List.find (fun entry => String.eqb (fst entry) name) (jobs_set js name ref)
  = Some (name, ref).
Proof.
  induction js as [|[n r] js IH]; simpl.
  - by rewrite String.eqb_refl.
  - destruct (String.eqb n name) eqn:Hn; simpl; [by rewrite String.eqb_refl|].
    by rewrite Hn.
Qed.

Lemma find_jobs_set_other js name ref other :
  other ≠ name →
  List.find (fun entry => String.eqb (fst entry) other) (jobs_set js name ref)
  = List.find (fun entry => String.eqb (fst entry) other) js.
Proof.
  intros Hne. apply not_eq_sym, String.eqb_neq in Hne.
  induction js as [|[n r] js IH]; simpl.
  - by rewrite Hne.
  - destruct (String.eqb_spec n name) as [->|Hn]; simpl.
    + by rewrite Hne.
    + by rewrite IH.
Qed.

Lemma in_jobs_set js name ref : In ref (map snd (jobs_set js name ref)).
Proof.
  induction js as [|[n r] js IH]; simpl; [by left|].
  destruct (String.eqb n name); simpl; auto.
Qed.

(** X27: add_job registers a new job object under the name, in place
    of the job that had the name, and touches neither the other jobs nor
    the queue; the new job is idle with the time of its creation as
    next_run, so that, when it is enabled, the next pass of the checker
    puts it in the queue. *)
Theorem added_job_is_due now name interval_hours max_urls concurrency s clock :
  (∀ i, (now <= clock i)%Z) →
  let ref := fresh_ref s in
  let s' := add_job now name interval_hours max_urls concurrency true s in
  objects s !! ref = None
  ∧ get_job name s' = Some ref
  ∧ objects s' !! ref
    = Some (new_job now name interval_hours max_urls concurrency true)
  ∧ (∀ other, other ≠ name → get_job other s' = get_job other s)
  ∧ (∀ r job, objects s !! r = Some job → objects s' !! r = Some job)
  ∧ job_queue s' = job_queue s
  ∧ In (Some ref) (job_queue (checker_pass clock s')).
Proof.
  intros Hclock. cbv zeta. pose proof (fresh_ref_is_fresh s) as Hfresh.
  split; [done|]. split.
  { unfold get_job, add_job. simpl. by rewrite find_jobs_set. }
  split; [apply lookup_insert_eq|]. split.
  { intros other Hother. unfold get_job, add_job. simpl.
    by rewrite find_jobs_set_other. }
  split.
  { intros r job Hr. simpl. rewrite lookup_insert_ne; [done|]. congruence. }
  split; [done|].
  unfold checker_pass. cbn [job_queue]. apply List.in_app_iff. right.
  apply List.in_map. apply due_jobs_spec.
  pose proof (in_jobs_set (jobs s) name (fresh_ref s)) as Hin.
  apply list_elem_of_In, list_elem_of_lookup in Hin as [i Hi].
  exists i, (new_job now name interval_hours max_urls concurrency true).
  split; [exact Hi|]. split; [apply lookup_insert_eq|].
  apply is_due_spec. simpl. split; [done|]. split; [done|]. apply Hclock.
Qed.

(** X13: add_job looks the retailer up without regard to the case of
    the letters, but keeps the job under the name as it was written: two
    spellings of one retailer give two jobs, both in the dict, each a job
    object of its own, with the same configuration. *)
Theorem two_spellings_two_jobs now n1 n2 interval_hours max_urls enabled s s1 :
  RetailersConfig.lower n1 = RetailersConfig.lower n2 → n1 ≠ n2 →
  add_job_checked now n1 interval_hours max_urls None enabled s = Some s1 →
  ∃ s2 r1 r2 j1 j2,
    add_job_checked now n2 interval_hours max_urls None enabled s1 = Some s2
    ∧ get_job n1 s2 = Some r1 ∧ get_job n2 s2 = Some r2 ∧ r1 ≠ r2
    ∧ objects s2 !! r1 = Some j1 ∧ objects s2 !! r2 = Some j2
    ∧ retailer_name j1 = n1 ∧ retailer_name j2 = n2
    ∧ concurrency j1 = concurrency j2.
Proof.
  intros Hlower Hne. unfold add_job_checked, CrawlJob_init.
  assert (RetailersConfig.get_retailer_config n2
          = RetailersConfig.get_retailer_config n1) as ->.
  { unfold RetailersConfig.get_retailer_config. by rewrite Hlower. }
  destruct (RetailersConfig.get_retailer_config n1) as [retailer|]; [|done].
  cbn [concurrency new_job]. intros [= <-].
  set (s1 := add_job now n1 interval_hours max_urls
               (RetailersConfig.concurrency retailer) enabled s).
  assert (Hr1 : objects s1 !! fresh_ref s
                = Some (new_job now n1 interval_hours max_urls
                          (RetailersConfig.concurrency retailer) enabled))
    by apply lookup_insert_eq.
  assert (Hdiff : fresh_ref s ≠ fresh_ref s1).
  { intros Heq. pose proof (fresh_ref_is_fresh s1) as Hfresh.
    rewrite <- Heq in Hfresh. congruence. }
  eexists. exists (fresh_ref s), (fresh_ref s1). eexists. eexists.
  split; [reflexivity|]. split.
  { unfold get_job, add_job. cbn [jobs].
    rewrite find_jobs_set_other by done. unfold s1, add_job. cbn [jobs].
    by rewrite find_jobs_set. }
  split.
  { unfold get_job, add_job. cbn [jobs]. by rewrite find_jobs_set. }
  split; [done|]. split.
  { unfold add_job at 1. cbn [objects]. rewrite lookup_insert_ne by done.
    exact Hr1. }
  split; [apply lookup_insert_eq|]. done.
Qed.

Lemma find_filter_other {A} (f g : A → bool) (l : list A) :
  (∀ x, f x = true → g x = true) →
  List.find f (List.filter g l) = List.find f l.
Proof.
  intros Himp. induction l as [|x l IH]; [done|]. simpl.
  destruct (f x) eqn:Hf.
  - rewrite (Himp x Hf). simpl. by rewrite Hf.
  - destruct (g x); simpl; rewrite ?Hf; exact IH.
Qed.

Lemma find_filter_neg {A} (f : A → bool) (l : list A) :
  List.find f (List.filter (fun x => negb (f x)) l) = None.
Proof.
  induction l as [|x l IH]; [done|]. simpl.
  destruct (f x) eqn:Hf; simpl; rewrite ?Hf; exact IH.
Qed.

Section Work.
Context `{Engine} `{Retailers}.

Lemma bulk_counts_add_up products_in store :
  fst (fst (bulk_upsert_products products_in store))
  + snd (fst (bulk_upsert_products products_in store))
  = length products_in.
Proof.
  unfold bulk_upsert_products. rewrite StoreProps.bulk_loop_counts. simpl.
  rewrite (StoreProps.filter_complement_length StoreProps.valid_record).
  pose proof (List.filter_length_le StoreProps.valid_record products_in). lia.
Qed.

(** X23: when the crawler of a job returns its summary and its run
    directory, and the store does not raise, CrawlJob.run stores the
    loaded records with one call of bulk_upsert_products, returns the
    summary with the two counts of that call under database_success and
    database_failure, which add up to the number of the files, keeps the
    other keys of the summary, and leaves the job completed, not running,
    with the summary as its stats. *)
Theorem completed_job_reports_store_counts now job store n summary files :
  run_crawler (started now job) n = Crawled summary (Some files) →
  storage_error n = None →
  let loaded := load_crawled_products job files in
  let stored := bulk_upsert_products loaded store in
  let result := run now job store n in
  let job' := snd (fst result) in
  snd result = snd stored
  ∧ status job' = "completed" ∧ running job' = false
  ∧ stats job' = fst (fst result)
  ∧ lookup_key (stats job') "database_success"
    = Some (JInt (Z.of_nat (fst (fst stored))))
  ∧ lookup_key (stats job') "database_failure"
    = Some (JInt (Z.of_nat (snd (fst stored))))
  ∧ fst (fst stored) + snd (fst stored) = length files
  ∧ ∀ k, k ≠ "database_success" → k ≠ "database_failure" →
         lookup_key (stats job') k = lookup_key summary k.
Proof.
  intros Hcrawl Hstore. cbv zeta. unfold run, work. rewrite Hcrawl, Hstore.
  change (load_crawled_products (started now job) files)
    with (load_crawled_products job files).
  pose proof (bulk_counts_add_up (load_crawled_products job files) store) as Hsum.
  destruct (bulk_upsert_products (load_crawled_products job files) store)
    as [[success_count failure_count] store'].
  simpl in Hsum. simpl.
  split; [done|]. split; [done|]. split; [done|]. split; [done|]. split.
  { rewrite lookup_dict_set_other by done. apply lookup_dict_set. }
  split; [apply lookup_dict_set|]. split.
  { rewrite Hsum. unfold load_crawled_products. apply length_map. }
  intros k Hs Hf. by rewrite !lookup_dict_set_other.
Qed.

(** X24: however a run of a job ends, completed or failed, the job is
    left not running, with the time the run began as last_run and that
    time plus the interval as next_run: it is due again exactly when it is
    enabled and the clock has reached the begin of the run plus the
    interval.  The time the run took does not count, and a failed job
    waits as long as a completed one. *)
Theorem run_reschedules_from_start now job store n later :
  let job' := snd (fst (run now job store n)) in
  (status job' = "completed" ∨ status job' = "failed")
  ∧ running job' = false
  ∧ last_run job' = Some now
  ∧ next_run job' = (now + interval_hours job * 3600)%Z
  ∧ enabled job' = enabled job
  ∧ stats job' = fst (fst (run now job store n))
  ∧ is_due later job'
    = enabled job && (now + interval_hours job * 3600 <=? later)%Z.
Proof.
  cbv zeta. unfold run.
  destruct (work (started now job) store n) as [[summary|message traceback] store'];
    simpl; unfold is_due; simpl; rewrite andb_true_r; auto 10.
Qed.

Lemma worker_loop_app times more s :
  fst (worker_loop times s) = Continue →
  worker_loop (times ++ more) s = worker_loop more (snd (worker_loop times s)).
Proof.
  revert s. induction times as [|now times IH]; intros s; [done|]. simpl.
  destruct (worker_iteration now s) as [[] s1]; try done. apply IH.
Qed.

(** The worker takes the jobs from the head of the queue in their order,
    one clock reading each, and leaves the rest of the queue. *)
Lemma worker_loop_runs refs : ∀ times s rest,
  scheduler_running s = true →
  job_queue s = map Some refs ++ rest →
  Forall (fun ref => is_Some (objects s !! ref)) refs →
  length times = length refs →
  let s' := snd (worker_loop times s) in
  fst (worker_loop times s) = Continue
  ∧ job_queue s' = rest
  ∧ scheduler_running s' = true
  ∧ runs s' = runs s + length refs
  ∧ jobs s' = jobs s
  ∧ (∀ ref, ¬ In ref refs → objects s' !! ref = objects s !! ref)
  ∧ (NoDup refs →
     ∀ i ref now, refs !! i = Some ref → times !! i = Some now →
       ∃ job', objects s' !! ref = Some job'
               ∧ last_run job' = Some now ∧ running job' = false
               ∧ (status job' = "completed" ∨ status job' = "failed")).
Proof.
  induction refs as [|ref refs IH]; intros times s rest Hrun Hqueue Halive Hlen.
  - destruct times; [|done]. simpl. rewrite Nat.add_0_r.
    repeat split; done.
  - destruct times as [|now times]; [done|]. simpl in Hlen.
    apply Forall_cons in Halive as [[job Hjob] Halive].
    destruct (worker_iteration_job now s ref job (map Some refs ++ rest)
                Hrun Hqueue Hjob)
      as (job' & Hiter & _ & Hlast & Hnot & Hstatus).
    simpl. rewrite Hiter.
    assert (Halive' : Forall (fun r => is_Some (<[ref := job']> (objects s) !! r))
                        refs).
    { eapply Forall_impl; [exact Halive|]. intros r Hr.
      by apply lookup_insert_is_Some'; right. }
    match goal with |- context [worker_loop times ?s1] =>
      destruct (IH times s1 rest eq_refl eq_refl Halive' ltac:(lia))
        as (H1 & H2 & H3 & H4 & H5 & H6 & H7) end.
    simpl in H4, H5, H6, H7. rewrite H1, H2, H3, H4, H5.
    split; [done|]. split; [done|]. split; [done|]. split; [lia|].
    split; [done|]. split.
    + intros r Hr. rewrite H6 by tauto. apply lookup_insert_ne. intros ->.
      apply Hr. by left.
    + intros [Hnew Hnd]%NoDup_cons [|i] r t Hi Ht; simpl in Hi, Ht.
      * injection Hi as <-. injection Ht as <-. exists job'.
        rewrite H6, lookup_insert_eq; [done|]. by rewrite <- list_elem_of_In.
      * by apply (H7 Hnd i).
Qed.

(** X25: the worker runs the queued jobs in the order of the queue, one
    at a time: with distinct jobs in the queue, the job at place [i] is
    run at the [i]-th reading of the clock, and afterwards it is not
    running, has that reading as last_run, and is completed or failed;
    the queue is empty, the dict of jobs is as it was, and one run was
    counted for every job. *)
Theorem worker_runs_queue_in_order refs times s :
  scheduler_running s = true →
  job_queue s = map Some refs →
  Forall (fun ref => is_Some (objects s !! ref)) refs →
  length times = length refs →
  NoDup refs →
  let s' := snd (worker_loop times s) in
  job_queue s' = []
  ∧ jobs s' = jobs s
  ∧ runs s' = runs s + length refs
  ∧ ∀ i ref now, refs !! i = Some ref → times !! i = Some now →
      ∃ job', objects s' !! ref = Some job'
              ∧ last_run job' = Some now ∧ running job' = false
              ∧ (status job' = "completed" ∨ status job' = "failed").
Proof.
  intros Hrun Hqueue Halive Hlen Hnd. cbv zeta.
  rewrite <- (app_nil_r (map Some refs)) in Hqueue.
  destruct (worker_loop_runs refs times s [] Hrun Hqueue Halive Hlen)
    as (_ & Hq & _ & Hruns & Hjobs & _ & Hrun_at).
  split; [done|]. split; [done|]. split; [done|]. by apply Hrun_at.
Qed.

(** X26: a stop that finds jobs waiting in the queue makes the worker
    leave its loop before it takes the next of them: the jobs stay in the
    queue, and so does the exit signal behind them.  After the next start
    the worker runs these jobs, then meets the old signal and leaves its
    loop for good, though the scheduler is running: the queue is empty,
    and what the checker enqueues from then on is run by no one. *)
Theorem stale_signal_ends_restarted_worker refs times now s :
  scheduler_running s = true →
  refs ≠ [] →
  job_queue s = map Some refs →
  Forall (fun ref => is_Some (objects s !! ref)) refs →
  length times = length refs →
  let stopped := snd (stop s) in
  let restarted := snd (start stopped) in
  let after := worker_loop (times ++ [now]) restarted in
  fst (stop s) = true
  ∧ worker_iteration now stopped = (Exited, stopped)
  ∧ job_queue stopped = map Some refs ++ [None]
  ∧ fst (start stopped) = true
  ∧ fst after = Exited
  ∧ scheduler_running (snd after) = true
  ∧ job_queue (snd after) = []
  ∧ runs (snd after) = runs s + length refs.
Proof.
  intros Hrun _ Hqueue Halive Hlen. cbv zeta.
  unfold stop, start. rewrite Hrun. simpl. rewrite Hqueue.
  split; [done|]. split; [done|]. split; [done|]. split; [done|].
  match goal with |- context [worker_loop (times ++ [now]) ?s1] =>
    destruct (worker_loop_runs refs times s1 [None] eq_refl eq_refl Halive Hlen)
      as (Hgo & Hq & Hr & Hruns & _);
    rewrite (worker_loop_app times [now] s1 Hgo);
    destruct (worker_loop times s1) as [state s2]
  end.
  simpl in Hgo, Hq, Hr, Hruns. simpl. unfold worker_iteration.
  rewrite Hr, Hq. simpl. done.
Qed.

(** X28: remove_job takes the name out of the dict of jobs and leaves
    the queue alone.  Afterwards the name is unknown to get_job and to
    run_job_now, the other names are as they were, and no pass of the
    checker enqueues the job again; but a run of the job that waits in
    the queue is not withdrawn: the worker still runs it. *)
Theorem removed_job_still_queued name ref s :
  NoDup (map snd (jobs s)) →
  get_job name s = Some ref →
  let s' := snd (remove_job name s) in
  fst (remove_job name s) = true
  ∧ get_job name s' = None
  ∧ fst (run_job_now name s') = false
  ∧ (∀ other, other ≠ name → get_job other s' = get_job other s)
  ∧ (∀ clock, ¬ In ref (due_jobs clock 0 (objects s') (map snd (jobs s'))))
  ∧ job_queue s' = job_queue s
  ∧ ∀ now queue job,
      scheduler_running s = true → job_queue s = Some ref :: queue →
      objects s !! ref = Some job →
      fst (worker_iteration now s') = Continue
      ∧ ∃ job', objects (snd (worker_iteration now s')) !! ref = Some job'
                ∧ last_run job' = Some now.
Proof.
  intros Hnd Hget. cbv zeta. unfold get_job in Hget.
  destruct (List.find _ (jobs s)) as [[n r]|] eqn:Hfind; [|done].
  injection Hget as ->. apply List.find_some in Hfind as [Hin Hn].
  simpl in Hn. apply String.eqb_eq in Hn. subst n.
  assert (Hex : existsb (fun entry => String.eqb (fst entry) name) (jobs s) = true).
  { apply existsb_exists. exists (name, ref). split; [done|]. apply String.eqb_refl. }
  unfold remove_job. rewrite Hex. cbn [fst snd].
  assert (Hgone : get_job name
            (mk_scheduler (check_interval s) (scheduler_running s)
               (List.filter (fun entry => negb (String.eqb (fst entry) name)) (jobs s))
               (objects s) (job_queue s) (db s) (runs s)) = None).
  { unfold get_job. cbn [jobs].
    by rewrite (find_filter_neg (fun entry => String.eqb (fst entry) name)). }
  split; [done|]. split; [done|]. split.
  { unfold run_job_now. by rewrite Hgone. }
  split.
  { intros other Hother. unfold get_job. cbn [jobs].
    rewrite find_filter_other; [done|]. intros entry Hentry.
    apply String.eqb_eq in Hentry. apply negb_true_iff, String.eqb_neq. congruence. }
  split.
  { intros clock Hdue. apply due_jobs_spec in Hdue as (i & job & Hi & _).
    cbn [jobs] in Hi. apply list_elem_of_lookup_2, list_elem_of_In in Hi.
    apply List.in_map_iff in Hi as ([n r] & Hr & Hentry). simpl in Hr. subst r.
    apply List.filter_In in Hentry as [Hentry Hn]. simpl in Hn.
    apply negb_true_iff, String.eqb_neq in Hn.
    assert ((n, ref) = (name, ref)) as [= ->]; [|done].
    by eapply (StoreInvariants.NoDup_map_eq snd); [exact Hnd|..]. }
  split; [done|]. intros now queue job Hrun Hqueue Hjob.
  match goal with |- context [worker_iteration now ?s1] =>
    destruct (worker_iteration_job now s1 ref job queue Hrun Hqueue Hjob)
      as (job' & Hiter & _ & Hlast & _) end.
  rewrite Hiter. split; [done|]. exists job'. cbn [snd objects].
  by rewrite lookup_insert_eq.
Qed.

End Work.

(** *** Examples *)

Import Demo.

Lemma two_refs_distinct : NoDup [1; 2].
Proof.
  apply NoDup_cons. split; [|apply NoDup_singleton].
  intros Hin. apply list_elem_of_In in Hin as [Heq|[]]. discriminate.
Qed.

Lemma both_queued_alive :
  Forall (fun ref => is_Some (objects both_queued !! ref)) [1; 2].
Proof. repeat constructor; vm_compute; eauto. Qed.

Lemma completed_job_reports_store_counts_witness :
  let job := new_job 0 "Checkers" 24 1000 5 true in
  let result := @run demo_engine broken_pricecheck 1 job empty_db 0 in
  @storage_error broken_pricecheck 0 = None
  ∧ status (snd (fst result)) = "completed"
  ∧ lookup_key (stats (snd (fst result))) "database_success" = Some (JInt 1)
  ∧ lookup_key (stats (snd (fst result))) "database_failure" = Some (JInt 0).
Proof.
  destruct (@completed_job_reports_store_counts demo_engine broken_pricecheck 1
              (new_job 0 "Checkers" 24 1000 5 true) empty_db 0
              [("retailer", JStr "Checkers")] [test_product])
    as (_ & Hstatus & _ & _ & Hsuccess & Hfailure & _); [reflexivity|reflexivity|].
  cbv zeta. split; [reflexivity|]. split; [exact Hstatus|].
  split; [exact Hsuccess|exact Hfailure].
Defined.

Lemma worker_runs_queue_in_order_witness :
  let s' := snd (@worker_loop demo_engine broken_pricecheck [1%Z; 2%Z] both_queued) in
  job_queue both_queued = map Some [1; 2]
  ∧ job_queue s' = []
  ∧ ∃ job', objects s' !! 2 = Some job' ∧ last_run job' = Some 2%Z.
Proof.
  destruct (@worker_runs_queue_in_order demo_engine broken_pricecheck [1; 2]
              [1%Z; 2%Z] both_queued)
    as (Hqueue & _ & _ & Hrun);
    [reflexivity|reflexivity|exact both_queued_alive|reflexivity
    |exact two_refs_distinct|].
  cbv zeta. split; [reflexivity|]. split; [exact Hqueue|].
  destruct (Hrun 1 2 2%Z) as (job' & Hjob & Hlast & _); [reflexivity..|].
  by exists job'.
Defined.

Lemma stale_signal_ends_restarted_worker_witness :
  let stopped := snd (stop both_queued) in
  let after := @worker_loop demo_engine broken_pricecheck [1%Z; 2%Z; 3%Z]
                 (snd (start stopped)) in
  scheduler_running both_queued = true
  ∧ job_queue stopped = [Some 1; Some 2; None]
  ∧ fst after = Exited
  ∧ scheduler_running (snd after) = true.
Proof.
  destruct (@stale_signal_ends_restarted_worker demo_engine broken_pricecheck [1; 2]
              [1%Z; 2%Z] 3%Z both_queued)
    as (_ & _ & Hqueue & _ & Hexit & Hrunning & _);
    [reflexivity|discriminate|reflexivity|exact both_queued_alive|reflexivity|].
  cbv zeta. split; [reflexivity|]. split; [exact Hqueue|].
  split; [exact Hexit|exact Hrunning].
Defined.

Lemma removed_job_still_queued_witness :
  let s' := snd (remove_job "PriceCheck" both_queued) in
  get_job "PriceCheck" both_queued = Some 1
  ∧ get_job "PriceCheck" s' = None
  ∧ job_queue s' = [Some 1; Some 2]
  ∧ fst (@worker_iteration demo_engine broken_pricecheck 1 s') = Continue.
Proof.
  destruct (@removed_job_still_queued demo_engine broken_pricecheck "PriceCheck" 1
              both_queued)
    as (_ & Hgone & _ & _ & _ & Hqueue & Hrun);
    [exact two_refs_distinct|reflexivity|].
  cbv zeta. split; [reflexivity|]. split; [exact Hgone|]. split; [exact Hqueue|].
  destruct (Hrun 1%Z [Some 2] (new_job 0 "PriceCheck" 24 1000 6 true))
    as [Hgo _]; [reflexivity..|exact Hgo].
Defined.

Lemma added_job_is_due_witness :
  let s := new_scheduler 60 empty_db in
  let s' := add_job 0 "Checkers" 24 1000 5 true s in
  get_job "Checkers" s' = Some (fresh_ref s)
  ∧ In (Some (fresh_ref s)) (job_queue (checker_pass (fun _ => 0%Z) s')).
Proof.
  destruct (added_job_is_due 0 "Checkers" 24 1000 5 (new_scheduler 60 empty_db)
              (fun _ => 0%Z))
    as (_ & Hget & _ & _ & _ & _ & Hdue); [intros i; reflexivity|].
  cbv zeta. split; [exact Hget|exact Hdue].
Defined.

Lemma two_spellings_two_jobs_witness :
  let s := new_scheduler 60 empty_db in
  let s1 := add_job 0 "Checkers" 24 1000 5 true s in
  RetailersConfig.lower "Checkers" = RetailersConfig.lower "checkers"
  ∧ add_job_checked 0 "Checkers" 24 1000 None true s = Some s1
  ∧ ∃ s2 r1 r2,
      add_job_checked 0 "checkers" 24 1000 None true s1 = Some s2
      ∧ get_job "Checkers" s2 = Some r1 ∧ get_job "checkers" s2 = Some r2
      ∧ r1 ≠ r2.
Proof.
  destruct (two_spellings_two_jobs 0 "Checkers" "checkers" 24 1000 true
              (new_scheduler 60 empty_db)
              (add_job 0 "Checkers" 24 1000 5 true (new_scheduler 60 empty_db)))
    as (s2 & r1 & r2 & j1 & j2 & Hadd & Hget1 & Hget2 & Hdiff & _);
    [reflexivity|discriminate|reflexivity|].
  cbv zeta. split; [reflexivity|]. split; [reflexivity|].
  by exists s2, r1, r2.
Defined.

End SchedulerJobs.

(** ** The retailers' configuration *)

Module ConfigProps.
Import Py RetailersConfig.

Lemma prefix_spec pattern s :
  String.prefix pattern s = true ↔ ∃ after, s = (pattern ++ after)%string.
Proof.
  revert s. induction pattern as [|a pattern IH]; intros s.
  - destruct s; simpl; split; try done; intros _; by eexists.
  - destruct s as [|b s]; simpl.
    + split; [done|]. by intros [after Hs].
    + destruct (ascii_dec a b) as [->|Hne].
      * rewrite IH. split; intros [after Hs]; exists after.
        -- by rewrite Hs.
        -- by injection Hs.
      * split; [done|]. intros [after Hs]. injection Hs as Hb _. congruence.
Qed.

(** [pattern in s] holds when [pattern] stands somewhere in [s]. *)
Lemma str_in_spec pattern s :
  str_in pattern s = true
  ↔ ∃ before after, s = (before ++ pattern ++ after)%string.
Proof.
  induction s as [|c s IH].
  - change (str_in pattern EmptyString)
      with (String.prefix pattern EmptyString || false).
    rewrite orb_false_r, prefix_spec. split.
    + intros [after Hs]. by exists EmptyString, after.
    + intros (before & after & Hs). destruct before as [|b before]; [|done].
      by exists after.
  - change (str_in pattern (String c s))
      with (String.prefix pattern (String c s) || str_in pattern s).
    rewrite orb_true_iff, prefix_spec, IH. split.
    + intros [[after Hs]|(before & after & Hs)].
      * by exists EmptyString, after.
      * exists (String c before), after. simpl. by rewrite Hs.
    + intros (before & after & Hs). destruct before as [|b before].
      * left. by exists after.
      * right. exists before, after. simpl in Hs. by injection Hs.
Qed.

Lemma table_resolves :
  Forall (fun retailer => get_retailer_config (name retailer) = Some retailer)
    RETAILERS.
Proof. repeat constructor. Qed.

(** X29: get_retailer_config does not tell two spellings of a name
    apart that differ in the case of their letters only (names of ASCII
    characters); the entry it returns is an entry of RETAILERS whose name
    is the name asked for but for the case of the letters, and asking for
    the name of that entry gives that entry, so that no entry of the
    table hides another; it raises exactly when the table has no such
    entry. *)
Theorem retailer_lookup_ignores_case retailer_name :
  (∀ spelling, lower spelling = lower retailer_name →
               get_retailer_config spelling = get_retailer_config retailer_name)
  ∧ match get_retailer_config retailer_name with
    | Some retailer =>
        In retailer RETAILERS
        ∧ lower (name retailer) = lower retailer_name
        ∧ get_retailer_config (name retailer) = Some retailer
    | None =>
        ∀ retailer, In retailer RETAILERS →
                    lower (name retailer) ≠ lower retailer_name
    end.
Proof.
  split.
  { intros spelling Hsame. unfold get_retailer_config. by rewrite Hsame. }
  destruct (get_retailer_config retailer_name) as [retailer|] eqn:Hfound.
  - apply List.find_some in Hfound as [Hin Hname].
    apply String.eqb_eq in Hname. split; [done|]. split; [done|].
    by apply (proj1 (List.Forall_forall _ _) table_resolves).
  - intros retailer Hin.
    pose proof (List.find_none _ _ Hfound retailer Hin) as Hname.
    by apply String.eqb_neq in Hname.
Qed.

(** X30: the filter that create_url_filter makes for a retailer takes
    a url exactly when one of the url patterns of the retailer stands
    somewhere in the url; and for the two retailers that have a crawler
    class, PriceCheck and Checkers, the filter and the rate limit that the
    class passes to the crawler are those of the configuration. *)
Theorem url_filters_match_config url :
  (∀ retailer,
     create_url_filter retailer url = true
     ↔ ∃ pattern before after,
         In pattern (url_patterns retailer)
         ∧ url = (before ++ pattern ++ after)%string)
  ∧ (∃ retailer, get_retailer_config "PriceCheck" = Some retailer
                 ∧ create_url_filter retailer url = pricecheck_url_filter url
                 ∧ rate_limit retailer = pricecheck_rate_limit)
  ∧ (∃ retailer, get_retailer_config "Checkers" = Some retailer
                 ∧ create_url_filter retailer url = checkers_url_filter url
                 ∧ rate_limit retailer = checkers_rate_limit).
Proof.
  split; [|split].
  - intros retailer. unfold create_url_filter. rewrite existsb_exists. split.
    + intros (pattern & Hin & Hpattern). apply str_in_spec in Hpattern
        as (before & after & Hurl). by exists pattern, before, after.
    + intros (pattern & before & after & Hin & Hurl). exists pattern.
      split; [done|]. apply str_in_spec. by exists before, after.
  - eexists. split; [reflexivity|]. split; [|done].
    unfold create_url_filter, pricecheck_url_filter.
    cbn [url_patterns existsb]. by rewrite orb_false_r.
  - eexists. split; [reflexivity|]. split; [|done].
    unfold create_url_filter, checkers_url_filter.
    cbn [url_patterns existsb]. by rewrite orb_false_r.
Qed.

End ConfigProps.
